(** * The gallery of the AI image generator suite

    A shallow embedding of the [Gallery] component (the gallery index of the
    specification): the record type [GalleryImage], the loader [loadImages],
    the write-through [saveImages], the query [filterAndSortImages] and the
    two mutations [toggleFavorite] and [deleteImage], with the browser
    services they call ([localStorage], [JSON], [Date], [Array.prototype.sort],
    the string methods) modelled next to them. *)

From Stdlib Require Import ZArith Ascii String List Permutation Sorted Lia.
From stdpp Require Import base tactics option list sorting gmap strings pretty.

Set Warnings "-register-all,-clear-no-such-hyp".
Local Open Scope string_scope.
Local Open Scope Z_scope.

(** ** Strings

    A JavaScript string is a sequence of UTF-16 code units.  The model keeps
    the code units below 256 (the type [ascii]), on which the three string
    methods the component calls are defined as ECMAScript defines them.  The
    search on texts with other code units is modelled apart, in [Utf16]. *)

Module Str.

Definition code (c : ascii) : Z := Z.of_N (N_of_ascii c).

(** [String.prototype.toLowerCase] on one code unit: the letters A-Z and the
    capital letters of the Latin-1 supplement (U+00C0 to U+00DE, the
    multiplication sign U+00D7 apart) move 32 places up. *)
Definition lowerChar (c : ascii) : ascii :=
  let n := code c in
  if ((65 <=? n) && (n <=? 90)) || ((192 <=? n) && (n <=? 222) && negb (n =? 215))
  then ascii_of_N (Z.to_N (n + 32))
  else c.

Fixpoint toLowerCase (s : string) : string :=
  match s with
  | EmptyString => EmptyString
  | String c s' => String (lowerChar c) (toLowerCase s')
  end.

(** White space and line terminators below 256: TAB, LF, VT, FF, CR, SP and
    NBSP. *)
Definition isWhiteSpace (c : ascii) : bool :=
  let n := code c in
  ((9 <=? n) && (n <=? 13)) || (n =? 32) || (n =? 160).

Fixpoint trimStart (s : string) : string :=
  match s with
  | EmptyString => EmptyString
  | String c s' => if isWhiteSpace c then trimStart s' else s
  end.

(** [trimEnd] drops the white space that is followed by white space only. *)
Fixpoint trimEnd (s : string) : string :=
  match s with
  | EmptyString => EmptyString
  | String c s' =>
      match trimEnd s' with
      | EmptyString => if isWhiteSpace c then EmptyString else String c EmptyString
      | t => String c t
      end
  end.

Definition trim (s : string) : string := trimEnd (trimStart s).

(** A string is truthy when it is not empty. *)
Definition truthy (s : string) : bool :=
  match s with EmptyString => false | String _ _ => true end.

Fixpoint startsWith (s search : string) {struct search} : bool :=
  match search, s with
  | EmptyString, _ => true
  | String _ _, EmptyString => false
  | String a search', String b s' => if Ascii.eqb a b then startsWith s' search' else false
  end.

(** [String.prototype.includes]: [search] occurs in [s] at some position. *)
Fixpoint includes (s search : string) : bool :=
  startsWith s search ||
  match s with
  | EmptyString => false
  | String _ s' => includes s' search
  end.

End Str.

(** ** Time values and the ISO 8601 text of a date

    A [Date] holds a time value: milliseconds since 1970-01-01T00:00:00Z, or
    NaN when it is an Invalid Date.  A time value is an [option Z], [None]
    standing for NaN. *)

Module Date.

Definition msPerDay : Z := 86400000.

(** Year, month (1-12) and day (1-31) of a day number counted from the epoch
    (proleptic Gregorian calendar). *)
Definition civilFromDays (days : Z) : Z * Z * Z :=
  let z := days + 719468 in
  let era := z / 146097 in
  let doe := z - era * 146097 in
  let yoe := (doe - doe / 1460 + doe / 36524 - doe / 146096) / 365 in
  let doy := doe - (365 * yoe + yoe / 4 - yoe / 100) in
  let mp := (5 * doy + 2) / 153 in
  let d := doy - (153 * mp + 2) / 5 + 1 in
  let m := if mp <? 10 then mp + 3 else mp - 9 in
  let y := yoe + era * 400 + (if m <=? 2 then 1 else 0) in
  (y, m, d).

Definition daysFromCivil (y m d : Z) : Z :=
  let y' := if m <=? 2 then y - 1 else y in
  let era := y' / 400 in
  let yoe := y' - era * 400 in
  let mp := if m <=? 2 then m + 9 else m - 3 in
  let doy := (153 * mp + 2) / 5 + d - 1 in
  let doe := yoe * 365 + yoe / 4 - yoe / 100 + doy in
  era * 146097 + doe - 719468.

Definition isLeap (y : Z) : bool :=
  ((y mod 4 =? 0) && negb (y mod 100 =? 0)) || (y mod 400 =? 0).

Definition daysInMonth (y m : Z) : Z :=
  if m =? 2 then (if isLeap y then 29 else 28)
  else if (m =? 4) || (m =? 6) || (m =? 9) || (m =? 11) then 30
  else 31.

Definition digit (n : Z) : ascii := ascii_of_N (Z.to_N (48 + n mod 10)).

(** [n] written with exactly [w] decimal digits. *)
Fixpoint pad (w : nat) (n : Z) : string :=
  match w with
  | O => EmptyString
  | S w' => pad w' (n / 10) ++ String (digit n) EmptyString
  end.

(** [Date.prototype.toISOString]: YYYY-MM-DDTHH:mm:ss.sssZ, the year with a
    sign and six digits outside 0..9999. *)
Definition toISOString (t : Z) : string :=
  let '(y, m, d) := civilFromDays (t / msPerDay) in
  let ms := t mod msPerDay in
  let year := if (0 <=? y) && (y <=? 9999) then pad 4 y
              else (if y <? 0 then "-" else "+") ++ pad 6 (Z.abs y) in
  year ++ "-" ++ pad 2 m ++ "-" ++ pad 2 d ++ "T" ++
  pad 2 (ms / 3600000) ++ ":" ++ pad 2 (ms / 60000 mod 60) ++ ":" ++
  pad 2 (ms / 1000 mod 60) ++ "." ++ pad 3 (ms mod 1000) ++ "Z".

(** Reading [w] decimal digits off the front of a string. *)
Fixpoint digits (w : nat) (acc : Z) (s : string) : option (Z * string) :=
  match w with
  | O => Some (acc, s)
  | S w' =>
      match s with
      | String c s' =>
          let n := Str.code c in
          if (48 <=? n) && (n <=? 57) then digits w' (10 * acc + (n - 48)) s' else None
      | EmptyString => None
      end
  end.

Definition expect (c : ascii) (s : string) : option string :=
  match s with
  | String c' s' => if Ascii.eqb c c' then Some s' else None
  | EmptyString => None
  end.

(** The largest time value of a date: 100,000,000 days either side of the
    epoch. *)
Definition maxTime : Z := 8640000000000000.

Definition timeClip (t : Z) : option Z :=
  if Z.abs t <=? maxTime then Some t else None.

(** [x - y] on two time values: NaN when either is. *)
Definition minus (x y : option Z) : option Z :=
  a ← x; b ← y; Some (a - b).

(** The text after the year of a complete date-time in UTC. *)
Definition parseAfterYear (y : Z) (s : string) : option Z :=
  s ← expect "-" s; '(m, s) ← digits 2 0 s;
  s ← expect "-" s; '(d, s) ← digits 2 0 s;
  s ← expect "T" s; '(hh, s) ← digits 2 0 s;
  s ← expect ":" s; '(mm, s) ← digits 2 0 s;
  s ← expect ":" s; '(ss, s) ← digits 2 0 s;
  s ← expect "." s; '(ms, s) ← digits 3 0 s;
  s ← expect "Z" s;
  if Str.truthy s then None
  else if (1 <=? m) && (m <=? 12) && (1 <=? d) && (d <=? daysInMonth y m)
          && (hh <=? 23) && (mm <=? 59) && (ss <=? 59)
  then timeClip (daysFromCivil y m d * msPerDay
                 + hh * 3600000 + mm * 60000 + ss * 1000 + ms)
  else None.

(** [Date.parse] on the format [toISOString] writes.  ECMAScript fixes the
    reading of that format; what an engine makes of any other text is left to
    the engine, so the loader takes [Date.parse] as a parameter and this
    function is the instance the worked examples run on. *)
Definition parseISO (s : string) : option Z :=
  match s with
  | String "+" s' => '(y, s) ← digits 6 0 s'; parseAfterYear y s
  | String "-" s' =>
      '(y, s) ← digits 6 0 s'; if y =? 0 then None else parseAfterYear (- y) s
  | _ => '(y, s) ← digits 4 0 s; parseAfterYear y s
  end.

End Date.

(** ** JSON documents and the texts kept by [localStorage]

    [json] is what [JSON.parse] returns: the fields of an object are its own
    properties in enumeration order.  Numbers are the integral ones. *)

Inductive json : Type :=
  | JNull
  | JBool (b : bool)
  | JNum (n : Z)
  | JStr (s : string)
  | JArr (xs : list json)
  | JObj (fields : list (string * json)).

(** A stored text is identified with the document it denotes; [NotJson raw] is
    a text [JSON.parse] rejects. *)
Inductive Text : Type :=
  | JsonText (j : json)
  | NotJson (raw : string).

Inductive Error : Type := SyntaxError | TypeError | QuotaExceededError.

Inductive Result (A : Type) : Type :=
  | Ok (a : A)
  | Throw (e : Error).
Arguments Ok {A} a.
Arguments Throw {A} e.

Definition JSON_parse (text : Text) : Result json :=
  match text with
  | JsonText j => Ok j
  | NotJson _ => Throw SyntaxError
  end.

(** [if (savedImages)]: every text but the empty one is truthy. *)
Definition Text_truthy (text : Text) : bool :=
  match text with
  | JsonText _ => true
  | NotJson raw => Str.truthy raw
  end.

(** A property value of a loaded object: a JSON value, or the [Date] the
    loader puts under [createdAt]. *)
Inductive Value : Type :=
  | Json (j : json)
  | DateObj (time : option Z).

(** An object as the loader builds it: own properties in order. *)
Definition RawImage : Type := list (string * Value).

Definition getField {V : Type} (key : string) (fields : list (string * V)) : option V :=
  snd <$> List.find (fun kv => String.eqb (fst kv) key) fields.

(** [{...o, key: v}]: the property keeps its place when [o] has it and is
    added last otherwise. *)
Fixpoint setField {V : Type} (key : string) (v : V) (fields : list (string * V))
  : list (string * V) :=
  match fields with
  | [] => [(key, v)]
  | (k, w) :: rest =>
      if String.eqb k key then (k, v) :: rest else (k, w) :: setField key v rest
  end.

(** [Object.prototype.hasOwnProperty] *)
Definition hasOwn {V : Type} (key : string) (fields : list (string * V)) : bool :=
  match getField key fields with
  | Some _ => true
  | None => false
  end.

(** The string a value converts to when a primitive is asked of it
    (ToPrimitive and ToString).  An integer is written in decimal, as it is
    below 10^21.  An array goes through [Array.prototype.join], which writes
    nothing for [null], converts the other elements in turn and puts commas
    between.  An object
    goes through [Object.prototype.toString], unless it has an own property
    [toString]: what [JSON.parse] put there is no function, [valueOf] gives no
    primitive either (its own one is no function, the inherited one returns
    the object), and the conversion throws a TypeError. *)
Fixpoint join {A : Type} (f : A -> Result string) (xs : list A) : Result string :=
  match xs with
  | [] => Ok ""
  | x :: xs' =>
      match f x with
      | Throw e => Throw e
      | Ok first =>
          match xs' with
          | [] => Ok first
          | _ :: _ =>
              match join f xs' with
              | Throw e => Throw e
              | Ok rest => Ok (first ++ "," ++ rest)
              end
          end
      end
  end.

Fixpoint ToString (j : json) : Result string :=
  match j with
  | JNull => Ok "null"
  | JBool b => Ok (if b then "true" else "false")
  | JNum n => Ok (pretty n)
  | JStr s => Ok s
  | JObj fields => if hasOwn "toString" fields then Throw TypeError else Ok "[object Object]"
  | JArr xs => join (fun x => match x with JNull => Ok "" | _ => ToString x end) xs
  end.

(** The values whose conversion throws: an object with an own property
    [toString], and an array that holds such a value. *)
Fixpoint unprintable (j : json) : bool :=
  match j with
  | JObj fields => hasOwn "toString" fields
  | JArr xs => existsb unprintable xs
  | JNull | JBool _ | JNum _ | JStr _ => false
  end.

(** [img.key] for a key that is neither an array index nor [length]: only an
    object can have it ([None] is [undefined]). *)
Definition getProp (key : string) (img : json) : option json :=
  match img with
  | JObj fields => getField key fields
  | _ => None
  end.

Definition indexed (xs : list json) : list (string * json) :=
  imap (fun (i : nat) x => (pretty i, x)) xs.

Fixpoint chars (s : string) : list json :=
  match s with
  | EmptyString => []
  | String c s' => JStr (String c EmptyString) :: chars s'
  end.

(** The own enumerable properties the spread [...img] copies. *)
Definition ownProperties (img : json) : list (string * json) :=
  match img with
  | JObj fields => fields
  | JArr xs => indexed xs
  | JStr s => indexed (chars s)
  | JNull | JBool _ | JNum _ => []
  end.

Fixpoint mapR {A B : Type} (f : A -> Result B) (l : list A) : Result (list B) :=
  match l with
  | [] => Ok []
  | x :: l' =>
      match f x with
      | Throw e => Throw e
      | Ok y => match mapR f l' with Throw e => Throw e | Ok ys => Ok (y :: ys) end
      end
  end.

Section Loader.

(** [Date.parse], the engine's. *)
Variable Date_parse : string -> option Z.

(** [new Date(value)]: the time value of the date, [None] for NaN.  An
    array or an object is converted to a primitive first, which can throw. *)
Definition newDate (value : option json) : Result (option Z) :=
  match value with
  | None => Ok None
  | Some JNull => Ok (Some 0)
  | Some (JBool b) => Ok (Some (if b then 1 else 0))
  | Some (JNum n) => Ok (Date.timeClip n)
  | Some (JStr s) => Ok (t ← Date_parse s; Date.timeClip t)
  | Some j =>
      match ToString j with
      | Throw e => Throw e
      | Ok s => Ok (t ← Date_parse s; Date.timeClip t)
      end
  end.

(** The callback of [.map]: [img => ({...img, createdAt: new Date(img.createdAt)})].
    Reading a property of [null] throws, and so does [new Date] of a value
    that has no primitive. *)
Definition revive (img : json) : Result RawImage :=
  match img with
  | JNull => Throw TypeError
  | _ =>
      match newDate (getProp "createdAt" img) with
      | Throw e => Throw e
      | Ok time =>
          Ok (setField "createdAt" (DateObj time)
                (prod_map Datatypes.id Json <$> ownProperties img))
      end
  end.

(** [JSON.parse(savedImages).map(...)]: only an array has [map]. *)
Definition parseImages (savedImages : Text) : Result (list RawImage) :=
  match JSON_parse savedImages with
  | Throw e => Throw e
  | Ok (JArr xs) => mapR revive xs
  | Ok _ => Throw TypeError
  end.

End Loader.

(** The stored values the callback of [.map] gets through: any but [null],
    unless what it holds under [createdAt] has no primitive. *)
Definition revivable (img : json) : bool :=
  match img with
  | JNull => false
  | _ =>
      match getProp "createdAt" img with
      | Some value => negb (unprintable value)
      | None => true
      end
  end.

(** ** Gallery images *)

(** The interface [GalleryImage].  [type] is the string the union of literals
    is at run time; an optional property that is absent is [None]; [createdAt]
    is the time value of the date, [None] when it is an Invalid Date, which
    [loadImages] makes of a stored value that is no date. *)
Record GalleryImage : Type := mkGalleryImage {
  id : string;
  url : string;
  prompt : string;
  type : string;
  size : option string;
  quality : option string;
  style : option string;
  scale : option string;
  mode : option string;
  filename : option string;
  createdAt : option Z;
  isFavorite : bool
}.

(** The closed set of the [type] union. *)
Inductive ImageType : Type :=
  Generated | Unblurred | Upscaled | BackgroundRemoved | Batch.

Definition ImageType_name (t : ImageType) : string :=
  match t with
  | Generated => "generated"
  | Unblurred => "unblurred"
  | Upscaled => "upscaled"
  | BackgroundRemoved => "background-removed"
  | Batch => "batch"
  end.

Definition recognizedType (s : string) : bool :=
  existsb (fun t => String.eqb s (ImageType_name t))
    [Generated; Unblurred; Upscaled; BackgroundRemoved; Batch].

Definition getTypeLabel (s : string) : string :=
  if String.eqb s "generated" then "Generated"
  else if String.eqb s "unblurred" then "Unblurred"
  else if String.eqb s "upscaled" then "Upscaled"
  else if String.eqb s "background-removed" then "Background Removed"
  else if String.eqb s "batch" then "Batch"
  else "Unknown".

Definition optionalField {V : Type} (key : string) (f : string -> V) (o : option string)
  : list (string * V) :=
  match o with
  | Some s => [(key, f s)]
  | None => []
  end.

(** The object a [GalleryImage] is in memory, its keys in the order of the
    interface. *)
Definition rawOf (img : GalleryImage) : RawImage :=
  ([("id", Json (JStr (id img))); ("url", Json (JStr (url img)));
   ("prompt", Json (JStr (prompt img))); ("type", Json (JStr (type img)))]
  ++ optionalField "size" (fun s => Json (JStr s)) (size img)
  ++ optionalField "quality" (fun s => Json (JStr s)) (quality img)
  ++ optionalField "style" (fun s => Json (JStr s)) (style img)
  ++ optionalField "scale" (fun s => Json (JStr s)) (scale img)
  ++ optionalField "mode" (fun s => Json (JStr s)) (mode img)
  ++ optionalField "filename" (fun s => Json (JStr s)) (filename img)
  ++ [("createdAt", DateObj (createdAt img));
      ("isFavorite", Json (JBool (isFavorite img)))])%list.

(** [Date.prototype.toJSON]: the ISO text of the date, [null] for an Invalid
    Date. *)
Definition Date_toJSON (time : option Z) : json :=
  match time with
  | Some t => JStr (Date.toISOString t)
  | None => JNull
  end.

(** What [JSON.stringify] writes for it: the date as [toJSON] gives it. *)
Definition toJSON (img : GalleryImage) : json :=
  JObj ([("id", JStr (id img)); ("url", JStr (url img));
         ("prompt", JStr (prompt img)); ("type", JStr (type img))]
        ++ optionalField "size" JStr (size img)
        ++ optionalField "quality" JStr (quality img)
        ++ optionalField "style" JStr (style img)
        ++ optionalField "scale" JStr (scale img)
        ++ optionalField "mode" JStr (mode img)
        ++ optionalField "filename" JStr (filename img)
        ++ [("createdAt", Date_toJSON (createdAt img));
            ("isFavorite", JBool (isFavorite img))])%list.

Definition JSON_stringify (images : list GalleryImage) : Text :=
  JsonText (JArr (toJSON <$> images)).

(** Reading a loaded object as a [GalleryImage] (the cast of [img: any]): it
    succeeds on the objects [rawOf] makes and on no other, so that the record
    stands for the object exactly. *)
Definition takeString (key : string) (o : RawImage) : option (string * RawImage) :=
  match o with
  | (k, Json (JStr s)) :: rest => if String.eqb k key then Some (s, rest) else None
  | _ => None
  end.

Definition takeOptional (key : string) (o : RawImage) : option string * RawImage :=
  match takeString key o with
  | Some (s, rest) => (Some s, rest)
  | None => (None, o)
  end.

Definition asGalleryImage (o : RawImage) : option GalleryImage :=
  '(id, o) ← takeString "id" o;
  '(url, o) ← takeString "url" o;
  '(prompt, o) ← takeString "prompt" o;
  '(type, o) ← takeString "type" o;
  let '(size, o) := takeOptional "size" o in
  let '(quality, o) := takeOptional "quality" o in
  let '(style, o) := takeOptional "style" o in
  let '(scale, o) := takeOptional "scale" o in
  let '(mode, o) := takeOptional "mode" o in
  let '(filename, o) := takeOptional "filename" o in
  match o with
  | [(k1, DateObj createdAt); (k2, Json (JBool isFavorite))] =>
      if String.eqb k1 "createdAt" && String.eqb k2 "isFavorite"
      then Some (mkGalleryImage id url prompt type size quality style scale mode
                   filename createdAt isFavorite)
      else None
  | _ => None
  end.

Fixpoint asGalleryImages (parsedImages : list RawImage) : option (list GalleryImage) :=
  match parsedImages with
  | [] => Some []
  | o :: rest =>
      img ← asGalleryImage o; imgs ← asGalleryImages rest; Some (img :: imgs)
  end.

(** ** The browser around the component *)

(** [localStorage]: the stored items, and the browser's say on whether a
    write is let through (quota, storage switched off). *)
Record Storage : Type := mkStorage {
  items : gmap string Text;
  accepts : string -> Text -> bool
}.

(** What the component does to the outside, in the order it does it. *)
Inductive Effect : Type :=
  | GetItem (key : string)
  | SetItem (key : string) (value : Text)
  | Toast (title description : string)
  | ConsoleError (message : string) (e : Error).

(** The [useState] cells of [Gallery] the operations read or write, as the
    render a handler belongs to sees them, the browser's [localStorage], and
    the effects so far (latest last). *)
Record State : Type := mkState {
  images : list GalleryImage;
  filteredImages : list GalleryImage;
  searchQuery : string;
  filterType : string;
  sortBy : string;
  isLoading : bool;
  localStorage : Storage;
  effects : list Effect
}.

Definition initialState (store : Storage) : State :=
  mkState [] [] "" "all" "newest" true store [].

(** ** A state and exception monad for the handlers *)

Definition M (A : Type) : Type := State -> State * Result A.

Global Instance M_ret : MRet M := fun A (a : A) st => (st, Ok a).

Global Instance M_bind : MBind M := fun A B (k : A -> M B) (m : M A) st =>
  match m st with
  | (st', Ok a) => k a st'
  | (st', Throw e) => (st', Throw e)
  end.

Definition throw {A : Type} (e : Error) : M A := fun st => (st, Throw e).

Definition liftR {A : Type} (r : Result A) : M A := fun st => (st, r).

Definition gets {A : Type} (f : State -> A) : M A := fun st => (st, Ok (f st)).

Definition perform (e : Effect) : M unit := fun st =>
  (mkState (images st) (filteredImages st) (searchQuery st) (filterType st)
     (sortBy st) (isLoading st) (localStorage st) (effects st ++ [e])%list, Ok tt).

Definition setImages (value : list GalleryImage) : M unit := fun st =>
  (mkState value (filteredImages st) (searchQuery st) (filterType st)
     (sortBy st) (isLoading st) (localStorage st) (effects st), Ok tt).

Definition setFilteredImages (value : list GalleryImage) : M unit := fun st =>
  (mkState (images st) value (searchQuery st) (filterType st)
     (sortBy st) (isLoading st) (localStorage st) (effects st), Ok tt).

Definition setIsLoading (value : bool) : M unit := fun st =>
  (mkState (images st) (filteredImages st) (searchQuery st) (filterType st)
     (sortBy st) value (localStorage st) (effects st), Ok tt).

Definition putItems (value : gmap string Text) : M unit := fun st =>
  (mkState (images st) (filteredImages st) (searchQuery st) (filterType st)
     (sortBy st) (isLoading st)
     (mkStorage value (accepts (localStorage st))) (effects st), Ok tt).

(** [localStorage.getItem(key)]: [None] is [null]. *)
Definition getItem (key : string) : M (option Text) :=
  perform (GetItem key);;
  gets (fun st => items (localStorage st) !! key).

(** [localStorage.setItem(key, value)]: the item is replaced, or the browser
    refuses the write and the call throws. *)
Definition setItem (key : string) (value : Text) : M unit :=
  perform (SetItem key value);;
  store ← gets localStorage;
  if accepts store key value
  then putItems (<[key := value]> (items store))
  else throw QuotaExceededError.

Definition toast (title description : string) : M unit :=
  perform (Toast title description).

(** [try { body } catch (error) { handler(error) }] *)
Definition tryCatch {A : Type} (body : M A) (handler : Error -> M A) : M A := fun st =>
  match body st with
  | (st', Ok a) => (st', Ok a)
  | (st', Throw e) => handler e st'
  end.

(** [try { body } finally { final }] *)
Definition tryFinally {A : Type} (body : M A) (final : M unit) : M A := fun st =>
  match body st with
  | (st', r) =>
      match final st' with
      | (st'', Ok _) => (st'', r)
      | (st'', Throw e) => (st'', Throw e)
      end
  end.

(** ** [Array.prototype.sort]

    The sort of an engine is stable and puts [a] after [b] when
    [compareFn(a, b) > 0]; a comparator that returns NaN is read as returning
    +0.  For a comparator that is consistent, as the three of the gallery are
    on valid dates, that fixes the result; insertion from the right computes
    it.  With an Invalid Date in the collection the comparator of the gallery
    is not consistent and ECMAScript leaves the order to the engine: on the
    arrays of three records the examples below run on, the insertion gives
    what the binary insertion of V8 gives. *)

Section ArraySort.

Context {A : Type} (compareFn : A -> A -> Z).

Fixpoint sortInsert (a : A) (sorted : list A) : list A :=
  match sorted with
  | [] => [a]
  | b :: rest => if 0 <? compareFn a b then b :: sortInsert a rest else a :: sorted
  end.

Definition Array_sort (l : list A) : list A := foldr sortInsert [] l.

(** [x] and [y] tie: either may stand first. *)
Definition ties (x y : A) : bool := (compareFn x y <=? 0) && (compareFn y x <=? 0).

End ArraySort.

(** What [sort] reads off the number a comparator returns: NaN counts as +0. *)
Definition sortCompare {A : Type} (compareFn : A -> A -> option Z) (a b : A) : Z :=
  default 0 (compareFn a b).

(** ** The operations of the gallery *)

Definition storageKey : string := "gallery-images".

(** The search test of the filter:
    [img.prompt.toLowerCase().includes(q) || img.filename?.toLowerCase().includes(q)]
    with [q = searchQuery.toLowerCase()]; without a filename the right operand
    is [undefined], which [filter] reads as false. *)
Definition matchesSearch (searchQuery : string) (img : GalleryImage) : bool :=
  Str.includes (Str.toLowerCase (prompt img)) (Str.toLowerCase searchQuery) ||
  match filename img with
  | Some name => Str.includes (Str.toLowerCase name) (Str.toLowerCase searchQuery)
  | None => false
  end.

(** The comparator handed to [sort]: the number it returns, [None] for NaN
    ([getTime] of an Invalid Date is NaN, and so is a difference with it). *)
Definition compareImages (sortBy : string) (a b : GalleryImage) : option Z :=
  if String.eqb sortBy "newest" then Date.minus (createdAt b) (createdAt a)
  else if String.eqb sortBy "oldest" then Date.minus (createdAt a) (createdAt b)
  else if String.eqb sortBy "favorites" then
    if isFavorite a && negb (isFavorite b) then Some (-1)
    else if negb (isFavorite a) && isFavorite b then Some 1
    else Date.minus (createdAt b) (createdAt a)
  else Some 0.

(** The list [filterAndSortImages] hands to [setFilteredImages].  It starts
    from a copy, [[...images]], so the sort in place leaves [images] alone. *)
Definition filtered (images : list GalleryImage) (searchQuery filterType sortBy : string)
  : list GalleryImage :=
  let filtered := images in
  let filtered :=
    if Str.truthy (Str.trim searchQuery)
    then List.filter (matchesSearch searchQuery) filtered
    else filtered in
  let filtered :=
    if negb (String.eqb filterType "all")
    then List.filter (fun img => String.eqb (type img) filterType) filtered
    else filtered in
  Array_sort (sortCompare (compareImages sortBy)) filtered.

Definition filterAndSortImages : M unit :=
  st ← gets Datatypes.id;
  setFilteredImages (filtered (images st) (searchQuery st) (filterType st) (sortBy st)).

Definition saveImages (updatedImages : list GalleryImage) : M unit :=
  setItem storageKey (JSON_stringify updatedImages);;
  setImages updatedImages.

Definition flipFavorite (img : GalleryImage) : GalleryImage :=
  mkGalleryImage (id img) (url img) (prompt img) (type img) (size img) (quality img)
    (style img) (scale img) (mode img) (filename img) (createdAt img)
    (negb (isFavorite img)).

(** [updatedImages] of [toggleFavorite]. *)
Definition toggledImages (imageId : string) (images : list GalleryImage)
  : list GalleryImage :=
  (fun img => if String.eqb (id img) imageId then flipFavorite img else img) <$> images.

Definition toggleFavorite (imageId : string) : M unit :=
  images ← gets images;
  saveImages (toggledImages imageId images);;
  toast "Favorite updated" "Image favorite status has been updated.".

(** [updatedImages] of [deleteImage]. *)
Definition remainingImages (imageId : string) (images : list GalleryImage)
  : list GalleryImage :=
  List.filter (fun img => negb (String.eqb (id img) imageId)) images.

Definition deleteImage (imageId : string) : M unit :=
  images ← gets images;
  saveImages (remainingImages imageId images);;
  toast "Image deleted" "Image has been removed from your gallery.".

(** ** Loading *)

Section Loading.

Variable Date_parse : string -> option Z.

(** The [try] block up to the argument of [setImages]: [None] when nothing
    (or the empty text) is stored. *)
Definition readImages : M (option (list RawImage)) :=
  savedImages ← getItem storageKey;
  match savedImages with
  | Some text =>
      if Text_truthy text
      then parsedImages ← liftR (parseImages Date_parse text); mret (Some parsedImages)
      else mret None
  | None => mret None
  end.

(** How [loadImages] ends.  [setImages] takes what [.map] returned under the
    type [any]: a collection of [GalleryImage] is the new state; any other is
    handed over as it is, no element dropped, and lies outside [State].
    [setImages] and [setIsLoading] write different cells, so the first is
    applied where the type of its argument is settled. *)
Inductive Loaded : Type :=
  | Typed (st : State)
  | Untyped (parsedImages : list RawImage) (st : State).

Definition loadImages (st : State) : Loaded :=
  let run : M (option (list RawImage)) :=
    setIsLoading true;;
    tryFinally
      (tryCatch readImages
         (fun error => perform (ConsoleError "Error loading images:" error);; mret None))
      (setIsLoading false) in
  match run st with
  | (st', Ok (Some parsedImages)) =>
      match asGalleryImages parsedImages with
      | Some images => Typed (fst (setImages images st'))
      | None => Untyped parsedImages st'
      end
  | (st', _) => Typed st'
  end.

End Loading.

(** The two mutations of the collection. *)
Inductive Mutation : Type :=
  | ToggleFavorite (imageId : string)
  | DeleteImage (imageId : string).

Definition mutate (m : Mutation) : M unit :=
  match m with
  | ToggleFavorite imageId => toggleFavorite imageId
  | DeleteImage imageId => deleteImage imageId
  end.

(** [updatedImages] of a mutation. *)
Definition updatedImages (m : Mutation) (images : list GalleryImage) : list GalleryImage :=
  match m with
  | ToggleFavorite imageId => toggledImages imageId images
  | DeleteImage imageId => remainingImages imageId images
  end.

(** The toast a mutation ends with. *)
Definition toastOf (m : Mutation) : Effect :=
  match m with
  | ToggleFavorite _ => Toast "Favorite updated" "Image favorite status has been updated."
  | DeleteImage _ => Toast "Image deleted" "Image has been removed from your gallery."
  end.

(** The writes among the effects: key and text of each [setItem]. *)
Definition writes (effects : list Effect) : list (string * Text) :=
  omap (fun e => match e with SetItem key value => Some (key, value) | _ => None end)
    effects.


(** The records [filterAndSortImages] keeps, before it sorts them. *)
Definition selected (images : list GalleryImage) (searchQuery filterType : string)
  : list GalleryImage :=
  let kept :=
    if Str.truthy (Str.trim searchQuery)
    then List.filter (matchesSearch searchQuery) images
    else images in
  if negb (String.eqb filterType "all")
  then List.filter (fun img => String.eqb (type img) filterType) kept
  else kept.

(** Two records that agree on every field but, possibly, [isFavorite]. *)
Definition sameButFavorite (img img' : GalleryImage) : Prop :=
  id img' = id img /\ url img' = url img /\ prompt img' = prompt img /\
  type img' = type img /\ size img' = size img /\ quality img' = quality img /\
  style img' = style img /\ scale img' = scale img /\ mode img' = mode img /\
  filename img' = filename img /\ createdAt img' = createdAt img.

(** ** A small gallery to run the operations on *)

Definition cat : GalleryImage :=
  mkGalleryImage "1" "https://img.example/1.png" "a cat" "generated"
    None None None None None None (Some 1700000000000) false.

Definition dog : GalleryImage :=
  mkGalleryImage "2" "https://img.example/2.png" "a dog" "upscaled"
    None None None None None (Some "Dog-4x.png") (Some 1700000600000) true.

(** A browser that lets every write through. *)
Definition openStorage (items : gmap string Text) : Storage :=
  mkStorage items (fun _ _ => true).

(** A browser whose quota is used up. *)
Definition fullStorage (items : gmap string Text) : Storage :=
  mkStorage items (fun _ _ => false).

Definition catAndDog : State :=
  mkState [cat; dog] [] "" "all" "newest" false
    (openStorage {[ storageKey := JSON_stringify [cat; dog] ]}) [].

(** A record whose [type] is none of the five. *)
Definition hologram : GalleryImage :=
  mkGalleryImage "3" "https://img.example/3.png" "a hologram" "hologram"
    None None None None None None (Some 1700001200000) false.

(** A stored object with no [url], [prompt] or [isFavorite]. *)
Definition fragment : json :=
  JObj [("id", JStr "4"); ("type", JStr "generated");
        ("createdAt", JStr "2023-11-14T22:13:20.000Z")].

(** The state of a gallery that has not loaded yet, over a browser that holds
    the array of [docs] under the gallery's key. *)
Definition storedWith (docs : list json) : State :=
  initialState (openStorage {[ storageKey := JsonText (JArr docs) ]}).

(** ** More string methods

    The methods the other tools call on strings: [slice(0, n)] and the three
    global replacements, each over code units as the regular expressions of
    the source (which carry no [u] flag) are. *)

Module Js.

(** [s.slice(0, n)] *)
Fixpoint sliceFromStart (n : nat) (s : string) : string :=
  match n, s with
  | S n', String c s' => String c (sliceFromStart n' s')
  | _, _ => EmptyString
  end.

(** The class [[a-zA-Z0-9]]. *)
Definition isAlphanumeric (c : ascii) : bool :=
  let n := Str.code c in
  ((48 <=? n) && (n <=? 57)) || ((65 <=? n) && (n <=? 90)) || ((97 <=? n) && (n <=? 122)).

(** [s.replace(/[^a-zA-Z0-9]/g, '-')] *)
Fixpoint dashOthers (s : string) : string :=
  match s with
  | EmptyString => EmptyString
  | String c s' => String (if isAlphanumeric c then c else "-"%char) (dashOthers s')
  end.

(** [s.replace(/\s+/g, '-')]: every maximal run of white space becomes one
    dash; [inRun] says that the character before was white space. *)
Fixpoint dashRuns (inRun : bool) (s : string) : string :=
  match s with
  | EmptyString => EmptyString
  | String c s' =>
      if Str.isWhiteSpace c
      then (if inRun then dashRuns true s' else String "-" (dashRuns true s'))
      else String c (dashRuns false s')
  end.

Definition dashWhiteSpace (s : string) : string := dashRuns false s.

Definition isComma (c : ascii) : bool := Ascii.eqb c ","%char.

(** [s.replace(/,\s*,/g, ',')], read from the left.  [pending] is [Some ws]
    after a comma that may open a match, followed so far by the white space
    [ws]: a second comma closes the match and the whole of it is written as
    one comma; any other character (or the end) means no match begins at that
    comma, and what was held back is written as it is. *)
Fixpoint collapse (pending : option string) (s : string) : string :=
  match s with
  | EmptyString =>
      match pending with
      | None => EmptyString
      | Some ws => String "," ws
      end
  | String c s' =>
      match pending with
      | None => if isComma c then collapse (Some EmptyString) s' else String c (collapse None s')
      | Some ws =>
          if isComma c then String "," (collapse None s')
          else if Str.isWhiteSpace c then collapse (Some (ws ++ String c EmptyString)) s'
          else String "," (ws ++ String c (collapse None s'))
      end
  end.

Definition collapseCommas (s : string) : string := collapse None s.

End Js.

(** ** The batch generator *)

Module BatchImage.

Record t : Type := mk {
  id : string;
  url : string;
  prompt : string;
  variation : nat;
  createdAt : Z
}.

End BatchImage.

Module BatchJob.

Inductive Status : Type := generating | completed | failed.

Record t : Type := mk {
  id : string;
  basePrompt : string;
  variations : list string;
  images : list BatchImage.t;
  size : string;
  quality : string;
  style : string;
  createdAt : Z;
  status : Status
}.

(** [{ ...job, images: value }] *)
Definition withImages (value : list BatchImage.t) (job : t) : t :=
  mk (id job) (basePrompt job) (variations job) value (size job) (quality job)
    (style job) (createdAt job) (status job).

(** [{ ...job, status: value }] *)
Definition withStatus (value : Status) (job : t) : t :=
  mk (id job) (basePrompt job) (variations job) (images job) (size job) (quality job)
    (style job) (createdAt job) value.

End BatchJob.

Module BatchGenerator.

(** A place of a JavaScript array of strings: empty (a hole), holding
    [undefined], or holding a string.  The component starts from [['']];
    holes come from an assignment past the end, and a spread turns them into
    [undefined]. *)
Inductive Slot : Type :=
  | Hole
  | Undefined
  | Elem (s : string).

(** [[...a]] *)
Definition spread (a : list Slot) : list Slot :=
  (fun slot => match slot with Hole => Undefined | _ => slot end) <$> a.

(** The request handed to [blink.ai.generateImage]. *)
Record ImageRequest : Type := mkRequest {
  prompt : string;
  requestSize : string;
  requestQuality : string;
  requestStyle : string;
  n : nat
}.

(** How the service answers: the promise is rejected, or resolves with the
    urls of [data]. *)
Inductive Response : Type :=
  | Rejects (reason : string)
  | Resolves (data : list string).

(** What a [catch] receives. *)
Inductive Caught : Type :=
  | Reason (reason : string)
  | Thrown (e : Error).

(** The value of the [progress] cell, as the expression that was stored:
    a literal, or [((i + 1) / totalImages) * 100]. *)
Inductive Progress : Type :=
  | Percent (value : Z)
  | Share (done total : nat).

Definition Blob : Type := string.

Inductive Effect : Type :=
  | Toast (title description : string) (destructive : bool)
  | ConsoleError (message : string) (error : Caught)
  | GenerateImage (request : ImageRequest)
  | Fetch (url : string)
  | Download (blob : Blob) (name : string).

(** The [useState] cells of [BatchGenerator], the effects so far (latest
    last) and how often the clock has been read. *)
Record State : Type := mkState {
  basePrompt : string;
  variations : list Slot;
  size : string;
  quality : string;
  style : string;
  isGenerating : bool;
  progress : Progress;
  batchJobs : list BatchJob.t;
  effects : list Effect;
  clockReads : nat
}.

Definition initialState : State :=
  mkState "" [Elem ""] "1024x1024" "high" "natural" false (Percent 0) [] [] 0.

Definition setVariations (value : list Slot) (st : State) : State :=
  mkState (basePrompt st) value (size st) (quality st) (style st) (isGenerating st)
    (progress st) (batchJobs st) (effects st) (clockReads st).

Definition setIsGenerating (value : bool) (st : State) : State :=
  mkState (basePrompt st) (variations st) (size st) (quality st) (style st) value
    (progress st) (batchJobs st) (effects st) (clockReads st).

Definition setProgress (value : Progress) (st : State) : State :=
  mkState (basePrompt st) (variations st) (size st) (quality st) (style st)
    (isGenerating st) value (batchJobs st) (effects st) (clockReads st).

(** [setBatchJobs(prev => f(prev))] *)
Definition setBatchJobs (f : list BatchJob.t -> list BatchJob.t) (st : State) : State :=
  mkState (basePrompt st) (variations st) (size st) (quality st) (style st)
    (isGenerating st) (progress st) (f (batchJobs st)) (effects st) (clockReads st).

Definition perform (e : Effect) (st : State) : State :=
  mkState (basePrompt st) (variations st) (size st) (quality st) (style st)
    (isGenerating st) (progress st) (batchJobs st) (effects st ++ [e])%list
    (clockReads st).

Definition tick (st : State) : State :=
  mkState (basePrompt st) (variations st) (size st) (quality st) (style st)
    (isGenerating st) (progress st) (batchJobs st) (effects st) (S (clockReads st)).

(** *** Editing the variations *)

Definition addVariation (st : State) : State :=
  if (length (variations st) <? 10)%nat
  then setVariations (spread (variations st) ++ [Elem ""])%list st
  else st.

(** [variations.filter((_, i) => i !== index)]: [filter] passes over the
    holes and keeps, of the other places, those whose index is not [index]. *)
Definition withoutIndex (index : Z) (a : list Slot) : list Slot :=
  omap (fun p : nat * Slot =>
          match snd p with
          | Hole => None
          | slot => if Z.of_nat (fst p) =? index then None else Some slot
          end)
    (imap pair a).

Definition removeVariation (index : Z) (st : State) : State :=
  if (1 <? length (variations st))%nat
  then setVariations (withoutIndex index (variations st)) st
  else st.

(** [newVariations[index] = value] on the copy: a place of the array is
    replaced; an index past the end lengthens the array, the places between
    left empty; an index that is no array index (negative, or beyond
    2^32 - 2) adds a property and leaves the elements alone. *)
Definition assign (index : Z) (value : string) (a : list Slot) : list Slot :=
  if (index <? 0) || (4294967294 <? index) then a
  else if index <? Z.of_nat (length a) then <[Z.to_nat index := Elem value]> a
  else (a ++ replicate (Z.to_nat index - length a) Hole ++ [Elem value])%list.

Definition updateVariation (index : Z) (value : string) (st : State) : State :=
  setVariations (assign index value (spread (variations st))) st.

(** [variations.filter(v => v.trim())]: holes are passed over, [undefined]
    has no [trim], and a string is kept when what is left of it after
    trimming is not empty. *)
Fixpoint validVariations (a : list Slot) : Result (list string) :=
  match a with
  | [] => Ok []
  | Hole :: rest => validVariations rest
  | Undefined :: _ => Throw TypeError
  | Elem v :: rest =>
      match validVariations rest with
      | Throw e => Throw e
      | Ok kept => Ok (if Str.truthy (Str.trim v) then v :: kept else kept)
      end
  end.


(** *** Generating a batch *)

(** [`${basePrompt}, ${variation}`.trim().replace(/,\s*,/g, ',')] *)
Definition fullPrompt (basePrompt variation : string) : string :=
  Js.collapseCommas (Str.trim (basePrompt ++ ", " ++ variation)).

(** [job.id === jobId ? f(job) : job], mapped over the jobs. *)
Definition updateJob (jobId : string) (f : BatchJob.t -> BatchJob.t)
    (jobs : list BatchJob.t) : list BatchJob.t :=
  (fun job => if String.eqb (BatchJob.id job) jobId then f job else job) <$> jobs.

Definition requests (effects : list Effect) : list ImageRequest :=
  omap (fun e => match e with GenerateImage r => Some r | _ => None end) effects.

Section Service.

(** The clock: [now k] is what the [k]-th reading, by [Date.now()] or
    [new Date()], returns. *)
Variable now : nat -> Z.

(** The image service: [generateImage k request] is its answer to the
    [k]-th request of the page. *)
Variable generateImage : nat -> ImageRequest -> Response.

(** One turn of the [for] loop, for the variation at index [i]: the state and
    [generatedImages] before and after.  A rejected request, or an answer
    with no image in it, is caught, logged and passed over. *)
Definition generateVariation (jobId : string) (totalImages : nat) (i : nat)
    (variation : string) (before : State * list BatchImage.t)
  : State * list BatchImage.t :=
  let '(st, generatedImages) := before in
  let fullPrompt := fullPrompt (basePrompt st) variation in
  let request := mkRequest fullPrompt (size st) (quality st) (style st) 1 in
  let answer := generateImage (length (requests (effects st))) request in
  let st := perform (GenerateImage request) st in
  let message := "Error generating variation " ++ pretty (i + 1)%nat ++ ":" in
  match answer with
  | Resolves (first :: _) =>
      let newImage :=
        BatchImage.mk (jobId ++ "-" ++ pretty i) first fullPrompt (i + 1)
          (now (clockReads st)) in
      let st := tick st in
      let generatedImages := (generatedImages ++ [newImage])%list in
      let st := setProgress (Share (i + 1) totalImages) st in
      (setBatchJobs (updateJob jobId (BatchJob.withImages generatedImages)) st,
       generatedImages)
  | Resolves [] => (perform (ConsoleError message (Thrown TypeError)) st, generatedImages)
  | Rejects reason => (perform (ConsoleError message (Reason reason)) st, generatedImages)
  end.

(** The [for] loop from index [i] on. *)
Fixpoint generateVariations (jobId : string) (totalImages : nat) (i : nat)
    (rest : list string) (before : State * list BatchImage.t)
  : State * list BatchImage.t :=
  match rest with
  | [] => before
  | variation :: rest' =>
      generateVariations jobId totalImages (S i) rest'
        (generateVariation jobId totalImages i variation before)
  end.

(** [generateBatch].  Nothing between the outer [try] and its [finally]
    throws but the requests, which the inner [try] catches, so the outer
    [catch], which would mark the job [failed], has nothing to catch.  The
    handler is taken to run to its end before another one starts (the button
    that starts it is disabled while [isGenerating]). *)
Definition generateBatch (st : State) : Result State :=
  match validVariations (variations st) with
  | Throw e => Throw e
  | Ok validVariations =>
      if negb (Str.truthy (Str.trim (basePrompt st))) then
        Ok (perform (Toast "Base prompt required"
                       "Please enter a base prompt for your batch generation." true) st)
      else if (length validVariations =? 0)%nat then
        Ok (perform (Toast "At least one variation required"
                       "Please add at least one variation to generate." true) st)
      else
        let st := setProgress (Percent 0) (setIsGenerating true st) in
        let jobId := "batch-" ++ pretty (now (clockReads st)) in
        let st := tick st in
        let newJob :=
          BatchJob.mk jobId (basePrompt st) validVariations [] (size st) (quality st)
            (style st) (now (clockReads st)) BatchJob.generating in
        let st := tick st in
        let st := setBatchJobs (fun prev => newJob :: prev) st in
        let '(st, generatedImages) :=
          generateVariations jobId (length validVariations) 0 validVariations (st, []) in
        let st := setBatchJobs (updateJob jobId (BatchJob.withStatus BatchJob.completed)) st in
        let st :=
          perform (Toast "Batch generation completed!"
                     ("Generated " ++ pretty (length generatedImages) ++ " images from "
                      ++ pretty (length validVariations) ++ " variations.") false) st in
        Ok (setProgress (Percent 0) (setIsGenerating false st))
  end.

End Service.

(** *** Downloading *)

Section Network.

(** [fetch k url] is the body the [k]-th [fetch] of the page ends with, or
    [None] when it (or reading its body) fails. *)
Variable fetch : nat -> string -> option Blob.

Definition fetches (effects : list Effect) : nat :=
  length (List.filter (fun e => match e with Fetch _ => true | _ => false end) effects).

(** The lines from [fetch] to [removeChild]: the body is fetched and handed
    to the browser as a download of the given name.  [None] when the fetch
    fails, with the state the [catch] starts from. *)
Definition save (url name : string) (st : State) : State * bool :=
  let body := fetch (fetches (effects st)) url in
  let st := perform (Fetch url) st in
  match body with
  | Some blob => (perform (Download blob name) st, true)
  | None => (st, false)
  end.

Definition singleName (image : BatchImage.t) : string :=
  "variation-" ++ pretty (BatchImage.variation image) ++ "-"
  ++ Js.dashOthers (Js.sliceFromStart 30 (BatchImage.prompt image)) ++ ".png".

Definition downloadSingle (image : BatchImage.t) (st : State) : State :=
  match save (BatchImage.url image) (singleName image) st with
  | (st, true) => perform (Toast "Download started" "Your image is being downloaded." false) st
  | (st, false) =>
      perform (Toast "Download failed" "Failed to download image. Please try again." true) st
  end.

Definition batchName (job : BatchJob.t) (image : BatchImage.t) : string :=
  "batch-" ++ BatchJob.id job ++ "-variation-" ++ pretty (BatchImage.variation image)
  ++ ".png".

(** The [for ... of] loop of [downloadAll]: it stops at the first image that
    cannot be fetched. *)
Fixpoint saveAll (job : BatchJob.t) (images : list BatchImage.t) (st : State)
  : State * bool :=
  match images with
  | [] => (st, true)
  | image :: rest =>
      match save (BatchImage.url image) (batchName job image) st with
      | (st, true) => saveAll job rest st
      | (st, false) => (st, false)
      end
  end.

Definition downloadAll (job : BatchJob.t) (st : State) : State :=
  match saveAll job (BatchJob.images job) st with
  | (st, true) =>
      perform (Toast "Batch download started"
                 ("Downloading " ++ pretty (length (BatchJob.images job))
                  ++ " images from this batch.") false) st
  | (st, false) =>
      perform (Toast "Download failed"
                 "Failed to download batch images. Please try again." true) st
  end.

End Network.

End BatchGenerator.

(** ** Choosing a file

    [handleFileSelect] and [handleDrop] are written out three times, word
    for word, in [UnblurTool], [BackgroundRemover] and [UpscalerTool]. *)

Module FilePicker.

(** What the handlers read of a [File]; [size] is in bytes. *)
Record File : Type := mkFile {
  name : string;
  type : string;
  size : N
}.

Inductive Effect : Type :=
  | Toast (title description : string) (destructive : bool)
  | PreventDefault.

(** The cells [selectedFile] and [previewUrl], the effects so far and the
    number of object URLs made. *)
Record State : Type := mkState {
  selectedFile : option File;
  previewUrl : string;
  effects : list Effect;
  objectURLs : nat
}.

Definition perform (e : Effect) (st : State) : State :=
  mkState (selectedFile st) (previewUrl st) (effects st ++ [e])%list (objectURLs st).

(** The limit [10 * 1024 * 1024]. *)
Definition sizeLimit : N := 10 * 1024 * 1024.

Section Browser.

(** [URL.createObjectURL]: the URL its [k]-th call returns for a file. *)
Variable createObjectURL : nat -> File -> string.

(** [setSelectedFile(file)] and [setPreviewUrl(URL.createObjectURL(file))] *)
Definition select (file : File) (st : State) : State :=
  mkState (Some file) (createObjectURL (objectURLs st) file) (effects st)
    (S (objectURLs st)).

(** [handleFileSelect]: [files] is [event.target.files], [None] when it is
    [null]. *)
Definition handleFileSelect (files : option (list File)) (st : State) : State :=
  match files ≫= head with
  | None => st
  | Some file =>
      if negb (Str.startsWith (type file) "image/") then
        perform (Toast "Invalid file type"
                   "Please select an image file (PNG, JPG, JPEG, WebP)." true) st
      else if (sizeLimit <? size file)%N then
        perform (Toast "File too large"
                   "Please select an image smaller than 10MB." true) st
      else select file st
  end.

(** [handleDrop]: [files] is [event.dataTransfer.files]. *)
Definition handleDrop (files : list File) (st : State) : State :=
  let st := perform PreventDefault st in
  match head files with
  | Some file => if Str.startsWith (type file) "image/" then select file st else st
  | None => st
  end.

End Browser.

End FilePicker.

(** ** The name of a download of the background remover *)

Module BackgroundRemover.

(** The [type] argument of [handleDownload]. *)
Inductive Kind : Type := original | processed.

(** A value turned into text by a template literal; [None] is [undefined]. *)
Definition interpolate (value : option string) : string :=
  match value with
  | Some s => s
  | None => "undefined"
  end.

(** The value of [a.download]:
    [type === 'processed' ? `${mode?.toLowerCase().replace(/\s+/g, '-')}-${filename}` : `original-${filename}`] *)
Definition downloadName (filename : string) (type : Kind) (mode : option string) : string :=
  match type with
  | processed =>
      interpolate ((fun m => Js.dashWhiteSpace (Str.toLowerCase m)) <$> mode)
      ++ "-" ++ filename
  | original => "original-" ++ filename
  end.

End BackgroundRemover.

(** ** The name of a download of the image generator *)

Module ImageGenerator.

(** The value of [a.download] in [handleDownload]:
    [`ai-generated-${prompt.slice(0, 30).replace(/[^a-zA-Z0-9]/g, '-')}.png`] *)
Definition downloadName (prompt : string) : string :=
  "ai-generated-" ++ Js.dashOthers (Js.sliceFromStart 30 prompt) ++ ".png".

End ImageGenerator.

(** ** Predicates the statements below are written with *)

(** Every character of a string passes a test. *)
Fixpoint everyChar (p : ascii -> bool) (s : string) : bool :=
  match s with
  | EmptyString => true
  | String c s' => p c && everyChar p s'
  end.

(** The characters of a string that pass a test, in order. *)
Fixpoint keepChars (p : ascii -> bool) (s : string) : string :=
  match s with
  | EmptyString => EmptyString
  | String c s' => if p c then String c (keepChars p s') else keepChars p s'
  end.

(** Neither a comma nor white space. *)
Definition isWordChar (c : ascii) : bool :=
  negb (Js.isComma c) && negb (Str.isWhiteSpace c).

(** A character of a file name that needs no escaping: a letter, a digit, a
    dash or a dot. *)
Definition isSafeChar (c : ascii) : bool :=
  Js.isAlphanumeric c || Ascii.eqb c "-"%char || Ascii.eqb c "."%char.

(** The variations as the form keeps them: one to ten places, each holding a
    string. *)
Definition wellFormed (a : list BatchGenerator.Slot) : Prop :=
  Forall (fun slot => exists v, slot = BatchGenerator.Elem v) a /\
  (1 <= length a <= 10)%nat.

(** The downloads among the effects: the name of each. *)
Definition downloadNames (effects : list BatchGenerator.Effect) : list string :=
  omap (fun e => match e with BatchGenerator.Download _ name => Some name | _ => None end)
    effects.

(** The request [generateBatch] sends for a variation. *)
Definition requestFor (st : BatchGenerator.State) (variation : string)
  : BatchGenerator.ImageRequest :=
  BatchGenerator.mkRequest
    (BatchGenerator.fullPrompt (BatchGenerator.basePrompt st) variation)
    (BatchGenerator.size st) (BatchGenerator.quality st) (BatchGenerator.style st) 1.

(** The url [data[0].url] reads off an answer, when the answer has one. *)
Definition firstUrl (answer : BatchGenerator.Response) : option string :=
  match answer with
  | BatchGenerator.Resolves (first :: _) => Some first
  | _ => None
  end.

(** The images a batch ends with, told variation by variation: the variation
    at index [i], asked for by the [k]-th request when the clock has been read
    [r] times, gives an image when the answer has a url and nothing
    otherwise. *)
Fixpoint expectedImages (now : nat -> Z)
    (generateImage : nat -> BatchGenerator.ImageRequest -> BatchGenerator.Response)
    (st : BatchGenerator.State) (jobId : string) (i k r : nat) (rest : list string)
  : list BatchImage.t :=
  match rest with
  | [] => []
  | variation :: rest' =>
      match firstUrl (generateImage k (requestFor st variation)) with
      | Some first =>
          BatchImage.mk (jobId ++ "-" ++ pretty i) first
            (BatchGenerator.fullPrompt (BatchGenerator.basePrompt st) variation)
            (i + 1) (now r)
          :: expectedImages now generateImage st jobId (S i) (S k) (S r) rest'
      | None => expectedImages now generateImage st jobId (S i) (S k) r rest'
      end
  end.

(** The variations [generateBatch] keeps of a form of strings. *)
Definition nonBlank (vs : list string) : list string :=
  List.filter (fun v => Str.truthy (Str.trim v)) vs.

(** *** A form, a clock and a service to run the batch generator on *)

Definition redAndBlue : BatchGenerator.State :=
  BatchGenerator.mkState "a cat" [BatchGenerator.Elem "red"; BatchGenerator.Elem "  ";
                                  BatchGenerator.Elem "blue"]
    "1024x1024" "high" "natural" false (BatchGenerator.Percent 0) [] [] 0.

Definition exampleClock (k : nat) : Z := 1700000000000 + Z.of_nat k.

(** A service that answers the first request and rejects the others. *)
Definition firstOnly (k : nat) (request : BatchGenerator.ImageRequest)
  : BatchGenerator.Response :=
  match k with
  | O => BatchGenerator.Resolves ["https://img.example/red.png"]
  | S _ => BatchGenerator.Rejects "busy"
  end.

(** A service that is down. *)
Definition down (k : nat) (request : BatchGenerator.ImageRequest)
  : BatchGenerator.Response :=
  BatchGenerator.Rejects "down".

(** *** What the file handlers are asked to keep *)

(** A file the picker is meant to take: an image of at most ten megabytes. *)
Definition acceptable (file : FilePicker.File) : bool :=
  Str.startsWith (FilePicker.type file) "image/" &&
  (FilePicker.size file <=? 10485760)%N.

(** The toasts among the effects of a file handler. *)
Definition pickerToasts (effects : list FilePicker.Effect) : list FilePicker.Effect :=
  List.filter (fun e => match e with FilePicker.Toast _ _ _ => true | _ => false end) effects.

Definition notWhiteSpace (c : ascii) : bool := negb (Str.isWhiteSpace c).

(** *** Files and a browser to run the file handlers on *)

Definition blobUrl (k : nat) (file : FilePicker.File) : string :=
  "blob:" ++ pretty k.

Definition photo : FilePicker.File := FilePicker.mkFile "photo.png" "image/png" 2048.

Definition scan : FilePicker.File := FilePicker.mkFile "scan.png" "image/png" 20000000.

Definition emptyPicker : FilePicker.State := FilePicker.mkState None "" [] 0.

(** ** The search beyond Latin-1

    The search test once more, over UTF-16 code units as numbers, for the
    texts the type [string] leaves out.  [toLowerCase] is the engine's on the
    code units below 256 and on the Greek letters U+0391 to U+03A9 and U+03B1
    to U+03C9, which is as far as this model of it goes; the other methods
    are the engine's on every text. *)

Module Utf16.

Local Open Scope N_scope.

Definition Text : Type := list N.

(** The text of a string of code units below 256. *)
Fixpoint ofString (s : string) : Text :=
  match s with
  | EmptyString => []
  | String c s' => N_of_ascii c :: ofString s'
  end.

Definition inRange (lo hi u : N) : bool := (lo <=? u) && (u <=? hi).

Definition isGreekLetter (u : N) : bool :=
  (inRange 0x391 0x3A9 u && negb (u =? 0x3A2)) || inRange 0x3B1 0x3C9 u.

(** The code units [toLowerCase] is modelled on. *)
Definition covered (u : N) : bool := (u <? 256) || isGreekLetter u.

(** The property Cased of Unicode, on the covered code units. *)
Definition isCased (u : N) : bool :=
  inRange 0x41 0x5A u || inRange 0x61 0x7A u ||
  (u =? 0xAA) || (u =? 0xB5) || (u =? 0xBA) ||
  inRange 0xC0 0xD6 u || inRange 0xD8 0xF6 u || inRange 0xF8 0xFF u ||
  isGreekLetter u.

(** The property Case_Ignorable of Unicode, on the covered code units: the
    apostrophe, the full stop, the colon, the circumflex, the grave accent,
    the diaeresis, the soft hyphen, the macron, the acute accent, the middle
    dot and the cedilla. *)
Definition isCaseIgnorable (u : N) : bool :=
  existsb (N.eqb u) [0x27; 0x2E; 0x3A; 0x5E; 0x60; 0xA8; 0xAD; 0xAF; 0xB4; 0xB7; 0xB8].

(** The lower case of a code unit taken by itself: the capital letters, of
    Latin-1 and of Greek, move 32 places up. *)
Definition lowerUnit (u : N) : N :=
  if inRange 0x41 0x5A u || (inRange 0xC0 0xDE u && negb (u =? 0xD7)) ||
     (inRange 0x391 0x3A9 u && negb (u =? 0x3A2))
  then u + 32
  else u.

(** A cased letter comes first, once the case-ignorable code units are
    passed over. *)
Fixpoint casedFirst (units : Text) : bool :=
  match units with
  | [] => false
  | u :: rest => if isCaseIgnorable u then casedFirst rest else isCased u
  end.

(** The condition Final_Sigma of Unicode, for a capital sigma with [before]
    it (nearest first) and [after] it: a cased letter stands before it and
    none after it, case-ignorable code units aside. *)
Definition finalSigma (before after : Text) : bool :=
  casedFirst before && negb (casedFirst after).

(** [String.prototype.toLowerCase]: every code unit by itself, but the
    capital sigma U+03A3, which becomes the final sigma U+03C2 where
    Final_Sigma holds and the small sigma U+03C3 elsewhere. *)
Fixpoint lowerFrom (before s : Text) : Text :=
  match s with
  | [] => []
  | u :: rest =>
      (if u =? 0x3A3 then (if finalSigma before rest then 0x3C2 else 0x3C3)
       else lowerUnit u) :: lowerFrom (u :: before) rest
  end.

Definition toLowerCase (s : Text) : Text := lowerFrom [] s.

(** White space and line terminators. *)
Definition isWhiteSpace (u : N) : bool :=
  inRange 9 13 u || (u =? 0x20) || (u =? 0xA0) || (u =? 0x1680) ||
  inRange 0x2000 0x200A u || (u =? 0x2028) || (u =? 0x2029) || (u =? 0x202F) ||
  (u =? 0x205F) || (u =? 0x3000) || (u =? 0xFEFF).

Fixpoint trimStart (s : Text) : Text :=
  match s with
  | [] => []
  | u :: s' => if isWhiteSpace u then trimStart s' else s
  end.

Fixpoint trimEnd (s : Text) : Text :=
  match s with
  | [] => []
  | u :: s' =>
      match trimEnd s' with
      | [] => if isWhiteSpace u then [] else [u]
      | t => u :: t
      end
  end.

Definition trim (s : Text) : Text := trimEnd (trimStart s).

Definition truthy (s : Text) : bool :=
  match s with [] => false | _ :: _ => true end.

Fixpoint startsWith (s search : Text) {struct search} : bool :=
  match search, s with
  | [], _ => true
  | _ :: _, [] => false
  | a :: search', b :: s' => if a =? b then startsWith s' search' else false
  end.

Fixpoint includes (s search : Text) : bool :=
  startsWith s search ||
  match s with
  | [] => false
  | _ :: s' => includes s' search
  end.

(** What the search reads of a record. *)
Record Searchable : Type := mkSearchable {
  prompt : Text;
  filename : option Text
}.

Definition matchesSearch (searchQuery : Text) (img : Searchable) : bool :=
  includes (toLowerCase (prompt img)) (toLowerCase searchQuery) ||
  match filename img with
  | Some name => includes (toLowerCase name) (toLowerCase searchQuery)
  | None => false
  end.

(** The search filter of [filterAndSortImages]. *)
Definition search (searchQuery : Text) (images : list Searchable) : list Searchable :=
  if truthy (trim searchQuery)
  then List.filter (matchesSearch searchQuery) images
  else images.

End Utf16.

(** What the search reads of a [GalleryImage]. *)
Definition searchable (img : GalleryImage) : Utf16.Searchable :=
  Utf16.mkSearchable (Utf16.ofString (prompt img)) (Utf16.ofString <$> filename img).



(** *** Records with valid dates *)

(** A record whose [createdAt] is a valid date. *)
Definition dated (img : GalleryImage) : Prop := is_Some (createdAt img).

(** The time value of a record with a valid date. *)
Definition timeOf (img : GalleryImage) : Z := default 0 (createdAt img).

(** What the comparator returns on two records with valid dates. *)
Definition compareDated (sortBy : string) (a b : GalleryImage) : Z :=
  if String.eqb sortBy "newest" then timeOf b - timeOf a
  else if String.eqb sortBy "oldest" then timeOf a - timeOf b
  else if String.eqb sortBy "favorites" then
    if isFavorite a && negb (isFavorite b) then -1
    else if negb (isFavorite a) && isFavorite b then 1
    else timeOf b - timeOf a
  else 0.

(** Of two records with valid dates, the first is not the older. *)
Definition notOlder (a b : GalleryImage) : Prop :=
  exists ta tb, createdAt a = Some ta /\ createdAt b = Some tb /\ tb <= ta.

(** *** A gallery with an Invalid Date *)


Definition early : GalleryImage :=
  mkGalleryImage "a" "https://img.example/a.png" "dawn" "generated"
    None None None None None None (Some 1000) false.

(** A record whose date is an Invalid Date. *)
Definition undated : GalleryImage :=
  mkGalleryImage "b" "https://img.example/b.png" "noon" "generated"
    None None None None None None None false.

Definition late : GalleryImage :=
  mkGalleryImage "c" "https://img.example/c.png" "dusk" "generated"
    None None None None None None (Some 3000) false.


(** A stored record whose [createdAt] has no primitive. *)
Definition sealed : json :=
  JObj [("id", JStr "6"); ("createdAt", JObj [("toString", JNum 0)])].

(** The two tests of the query as one: the search test when the search text
    is not blank, the type test when the type filter is not [all]. *)
Definition passes (searchQuery filterType : string) (img : GalleryImage) : bool :=
  (negb (Str.truthy (Str.trim searchQuery)) || matchesSearch searchQuery img) &&
  (String.eqb filterType "all" || String.eqb (type img) filterType).

(** How many records of a collection have a given id. *)
Definition countId (imageId : string) (images : list GalleryImage) : nat :=
  length (List.filter (fun img => String.eqb (id img) imageId) images).

(** ** Worked examples of the date functions *)

Example toISOString_epoch : Date.toISOString 0 = "1970-01-01T00:00:00.000Z".
Proof. reflexivity. Qed.

Example toISOString_2023 : Date.toISOString 1700000000000 = "2023-11-14T22:13:20.000Z".
Proof. vm_compute. reflexivity. Qed.

Example toISOString_before_epoch : Date.toISOString (-1) = "1969-12-31T23:59:59.999Z".
Proof. vm_compute. reflexivity. Qed.

Example parseISO_2023 : Date.parseISO "2023-11-14T22:13:20.000Z" = Some 1700000000000.
Proof. vm_compute. reflexivity. Qed.

Example parseISO_leap_day : Date.parseISO "2024-02-29T12:00:00.000Z" = Some 1709208000000.
Proof. vm_compute. reflexivity. Qed.

Example parseISO_rejects : Date.parseISO "yesterday" = None.
Proof. reflexivity. Qed.

(** ** Facts about [Array.prototype.sort] *)

Section ArraySortFacts.

Context {A : Type} (compareFn : A -> A -> Z).

Lemma sortInsert_Permutation (a : A) (l : list A) :
  sortInsert compareFn a l ≡ₚ a :: l.
Proof.
  induction l as [|b l IH]; simpl; [done|].
  destruct (0 <? compareFn a b); [|done].
  rewrite IH. apply Permutation_swap.
Qed.

Lemma Array_sort_Permutation (l : list A) : Array_sort compareFn l ≡ₚ l.
Proof.
  induction l as [|a l IH]; simpl; [done|].
  rewrite sortInsert_Permutation. by rewrite IH.
Qed.

Lemma Array_sort_elem_of (a : A) (l : list A) : a ∈ Array_sort compareFn l ↔ a ∈ l.
Proof. by rewrite Array_sort_Permutation. Qed.

(** A consistent comparator: of two elements one may stand first, and
    standing first is transitive. *)
Hypothesis compare_total : forall a b, 0 < compareFn a b -> compareFn b a <= 0.
Hypothesis compare_trans :
  forall a b c, compareFn a b <= 0 -> compareFn b c <= 0 -> compareFn a c <= 0.

Lemma sortInsert_sorted (a : A) (l : list A) :
  StronglySorted (fun x y => compareFn x y <= 0) l ->
  StronglySorted (fun x y => compareFn x y <= 0) (sortInsert compareFn a l).
Proof.
  induction 1 as [|b l Hl IH Hb]; simpl.
  - repeat constructor.
  - destruct (Z.ltb_spec 0 (compareFn a b)) as [Hab|Hab].
    + constructor; [done|].
      rewrite (sortInsert_Permutation a l). constructor; [by apply compare_total|done].
    + constructor; [by constructor|].
      constructor; [done|].
      eapply Forall_impl; [exact Hb|]. intros c Hc. by eapply compare_trans.
Qed.

Lemma Array_sort_sorted (l : list A) :
  StronglySorted (fun x y => compareFn x y <= 0) (Array_sort compareFn l).
Proof.
  induction l as [|a l IH]; simpl; [constructor|]. by apply sortInsert_sorted.
Qed.

(** The sort is stable: the elements that tie with a given one keep their
    order. *)
Lemma sortInsert_stable (x a : A) (l : list A) :
  List.filter (ties compareFn x) (sortInsert compareFn a l) =
  List.filter (ties compareFn x) (a :: l).
Proof.
  induction l as [|b l IH]; [done|]. cbn [sortInsert].
  destruct (Z.ltb_spec 0 (compareFn a b)) as [Hab|Hab]; [|done].
  cbn [List.filter] in *. rewrite IH.
  destruct (ties compareFn x a) eqn:Ha, (ties compareFn x b) eqn:Hb; try done.
  unfold ties in Ha, Hb. rewrite andb_true_iff, !Z.leb_le in Ha, Hb.
  pose proof (compare_trans a x b). lia.
Qed.

Lemma Array_sort_stable (x : A) (l : list A) :
  List.filter (ties compareFn x) (Array_sort compareFn l) =
  List.filter (ties compareFn x) l.
Proof.
  induction l as [|a l IH]; [done|]. cbn [Array_sort foldr].
  rewrite sortInsert_stable. cbn [List.filter]. fold (Array_sort compareFn l).
  by rewrite IH.
Qed.

End ArraySortFacts.

(** The sort looks at the comparator on the elements of the array only. *)
Lemma sortInsert_ext {A : Type} (f g : A -> A -> Z) (a : A) (l : list A) :
  (forall b, b ∈ l -> f a b = g a b) -> sortInsert f a l = sortInsert g a l.
Proof.
  induction l as [|b l IH]; intros Hfg; simpl; [done|].
  rewrite (Hfg b) by constructor.
  destruct (0 <? g a b); [|done]. f_equal. apply IH.
  intros c Hc. apply Hfg. by constructor.
Qed.

Lemma Array_sort_ext {A : Type} (f g : A -> A -> Z) (l : list A) :
  (forall a b, a ∈ l -> b ∈ l -> f a b = g a b) -> Array_sort f l = Array_sort g l.
Proof.
  induction l as [|a l IH]; intros Hfg; simpl; [done|].
  fold (Array_sort f l). fold (Array_sort g l).
  rewrite IH by (intros x y Hx Hy; apply Hfg; by constructor).
  apply sortInsert_ext. intros b Hb. apply Array_sort_elem_of in Hb.
  apply Hfg; by constructor.
Qed.

Lemma StronglySorted_lookup {A : Type} (R : relation A) (l : list A) (i j : nat) (a b : A) :
  StronglySorted R l -> (i < j)%nat -> l !! i = Some a -> l !! j = Some b -> R a b.
Proof.
  intros Hl. revert i j. induction Hl as [|x l Hl IH Hx]; intros i j Hij Hi Hj.
  - by rewrite lookup_nil in Hi.
  - destruct j as [|j]; [lia|]. destruct i as [|i]; simpl in *.
    + simplify_eq. rewrite Forall_forall in Hx. apply Hx.
      by eapply list_elem_of_lookup_2.
    + eapply (IH i j); [lia|done..].
Qed.

(** ** Facts about the string methods *)

Lemma append_String (c : ascii) (a b : string) : String c a ++ b = String c (a ++ b).
Proof. reflexivity. Qed.






(** ** What the handlers compute *)

Lemma saveImages_accepted (l : list GalleryImage) (st : State) :
  accepts (localStorage st) storageKey (JSON_stringify l) = true ->
  saveImages l st =
    (mkState l (filteredImages st) (searchQuery st) (filterType st) (sortBy st)
       (isLoading st)
       (mkStorage (<[storageKey := JSON_stringify l]> (items (localStorage st)))
          (accepts (localStorage st)))
       (effects st ++ [SetItem storageKey (JSON_stringify l)])%list, Ok tt).
Proof.
  intros Hacc. unfold saveImages, setItem, mbind, M_bind, perform, gets; simpl.
  by rewrite Hacc.
Qed.

Lemma saveImages_refused (l : list GalleryImage) (st : State) :
  accepts (localStorage st) storageKey (JSON_stringify l) = false ->
  saveImages l st =
    (mkState (images st) (filteredImages st) (searchQuery st) (filterType st)
       (sortBy st) (isLoading st) (localStorage st)
       (effects st ++ [SetItem storageKey (JSON_stringify l)])%list,
     Throw QuotaExceededError).
Proof.
  intros Hacc. unfold saveImages, setItem, mbind, M_bind, perform, gets; simpl.
  by rewrite Hacc.
Qed.

Lemma mutate_accepted (m : Mutation) (st : State) :
  accepts (localStorage st) storageKey
    (JSON_stringify (updatedImages m (images st))) = true ->
  mutate m st =
    (mkState (updatedImages m (images st)) (filteredImages st) (searchQuery st)
       (filterType st) (sortBy st) (isLoading st)
       (mkStorage
          (<[storageKey := JSON_stringify (updatedImages m (images st))]>
             (items (localStorage st)))
          (accepts (localStorage st)))
       (effects st ++ [SetItem storageKey (JSON_stringify (updatedImages m (images st)));
                       toastOf m])%list, Ok tt).
Proof.
  intros Hacc. destruct m as [imageId|imageId]; simpl in *;
    unfold toggleFavorite, deleteImage, mbind, M_bind, gets at 1; simpl;
    rewrite (saveImages_accepted _ st Hacc); unfold toast, perform; simpl;
    by rewrite <- app_assoc.
Qed.

Lemma mutate_refused (m : Mutation) (st : State) :
  accepts (localStorage st) storageKey
    (JSON_stringify (updatedImages m (images st))) = false ->
  mutate m st =
    (mkState (images st) (filteredImages st) (searchQuery st) (filterType st)
       (sortBy st) (isLoading st) (localStorage st)
       (effects st ++ [SetItem storageKey (JSON_stringify (updatedImages m (images st)))])%list,
     Throw QuotaExceededError).
Proof.
  intros Hacc. destruct m as [imageId|imageId]; simpl in *;
    unfold toggleFavorite, deleteImage, mbind, M_bind, gets at 1; simpl;
    by rewrite (saveImages_refused _ st Hacc).
Qed.

Lemma filter_elem_of {A : Type} (f : A -> bool) (l : list A) (x : A) :
  x ∈ List.filter f l <-> x ∈ l /\ f x = true.
Proof. by rewrite !list_elem_of_In, filter_In. Qed.

Lemma filter_all {A : Type} (f : A -> bool) (l : list A) :
  (forall x, x ∈ l -> f x = true) -> List.filter f l = l.
Proof.
  induction l as [|a l IH]; intros Hall; simpl; [done|].
  rewrite (Hall a) by constructor. f_equal. apply IH. intros x Hx. apply Hall. by constructor.
Qed.

Lemma filter_idempotent {A : Type} (f : A -> bool) (l : list A) :
  List.filter f (List.filter f l) = List.filter f l.
Proof.
  apply filter_all. intros x Hx. by apply filter_elem_of in Hx as [_ Hx].
Qed.

Lemma filtered_selected (images : list GalleryImage) (searchQuery filterType sortBy : string) :
  filtered images searchQuery filterType sortBy =
  Array_sort (sortCompare (compareImages sortBy)) (selected images searchQuery filterType).
Proof. unfold filtered, selected. by destruct (Str.truthy _), (negb _). Qed.

Lemma writes_app (l k : list Effect) : writes (l ++ k)%list = (writes l ++ writes k)%list.
Proof. apply omap_app. Qed.

Lemma toggledImages_lookup (imageId : string) (images : list GalleryImage) (i : nat) :
  toggledImages imageId images !! i =
  (fun img => if String.eqb (id img) imageId then flipFavorite img else img) <$> images !! i.
Proof. apply list_lookup_fmap. Qed.

Lemma toggledImages_absent (imageId : string) (images : list GalleryImage) :
  (forall img, img ∈ images -> id img <> imageId) -> toggledImages imageId images = images.
Proof.
  intros Habsent. unfold toggledImages.
  induction images as [|img images IH]; csimpl; [done|].
  destruct (String.eqb_spec (id img) imageId) as [Heq|_].
  - destruct (Habsent img); [by constructor|done].
  - f_equal. apply IH. intros x Hx. apply Habsent. by constructor.
Qed.

(** ** The claims *)

(** C1, as amended.  [toggleFavorite] has no NotFound failure: whenever the
    browser accepts the write it returns normally, for every id.  Each record
    whose [id] is the given one has [isFavorite] flipped, at its place; the
    full updated collection is what [localStorage] holds under the gallery's
    key when it returns, written by one [setItem]; and when no record has
    that id the collection is the one it was. *)
Theorem toggleFavorite_flips_and_persists (imageId : string) (st : State) :
  accepts (localStorage st) storageKey
    (JSON_stringify (toggledImages imageId (images st))) = true ->
  exists st',
    toggleFavorite imageId st = (st', Ok tt) /\
    items (localStorage st') !! storageKey = Some (JSON_stringify (images st')) /\
    writes (effects st') =
      (writes (effects st) ++ [(storageKey, JSON_stringify (images st'))])%list /\
    (forall i img, images st !! i = Some img ->
       images st' !! i =
         Some (if String.eqb (id img) imageId then flipFavorite img else img)) /\
    ((forall img, img ∈ images st -> id img <> imageId) -> images st' = images st).
Proof.
  intros Hacc. eexists. split; [exact (mutate_accepted (ToggleFavorite imageId) st Hacc)|].
  simpl. repeat split.
  - apply lookup_insert_eq.
  - by rewrite writes_app.
  - intros i img Hi. by rewrite toggledImages_lookup, Hi.
  - apply toggledImages_absent.
Qed.

Lemma toggleFavorite_flips_and_persists_witness :
  exists st',
    toggleFavorite "2" catAndDog = (st', Ok tt) /\
    images st' !! 1%nat = Some (flipFavorite dog) /\
    items (localStorage st') !! storageKey = Some (JSON_stringify (images st')).
Proof.
  destruct (toggleFavorite_flips_and_persists "2" catAndDog) as (st' & Hrun & Hitem & _ & Hflip & _);
    [reflexivity|].
  exists st'. split; [exact Hrun|]. split; [|exact Hitem].
  exact (Hflip 1%nat dog eq_refl).
Defined.

(** C1 as stated fails: toggling an id no record has returns normally, with
    the collection as it was, one more write and the toast of a success. *)
Lemma toggleFavorite_absent_id_returns :
  existsb (fun img => String.eqb (id img) "3") (images catAndDog) = false /\
  snd (toggleFavorite "3" catAndDog) = Ok tt /\
  images (fst (toggleFavorite "3" catAndDog)) = images catAndDog /\
  effects (fst (toggleFavorite "3" catAndDog)) =
    [SetItem storageKey (JSON_stringify (images catAndDog));
     Toast "Favorite updated" "Image favorite status has been updated."].
Proof. repeat split. Qed.

(** C3.  A mutation, [toggleFavorite] or [deleteImage], calls [setItem] once,
    with the gallery's key and the text of the whole updated collection.  It
    returns normally exactly when the browser accepts that write, and then the
    stored text is the serialization of the collection in memory; when the
    write is refused the call throws with the collection in memory and the
    stored items as they were: the write comes before the change in memory. *)
Theorem mutation_writes_through (m : Mutation) (st : State) :
  writes (effects (fst (mutate m st))) =
    (writes (effects st) ++
       [(storageKey, JSON_stringify (updatedImages m (images st)))])%list /\
  match snd (mutate m st) with
  | Ok _ =>
      accepts (localStorage st) storageKey
        (JSON_stringify (updatedImages m (images st))) = true /\
      images (fst (mutate m st)) = updatedImages m (images st) /\
      items (localStorage (fst (mutate m st))) !! storageKey =
        Some (JSON_stringify (images (fst (mutate m st))))
  | Throw e =>
      accepts (localStorage st) storageKey
        (JSON_stringify (updatedImages m (images st))) = false /\
      e = QuotaExceededError /\
      images (fst (mutate m st)) = images st /\
      items (localStorage (fst (mutate m st))) = items (localStorage st)
  end.
Proof.
  destruct (accepts (localStorage st) storageKey
              (JSON_stringify (updatedImages m (images st)))) eqn:Hacc.
  - rewrite (mutate_accepted m st Hacc). simpl. split.
    + rewrite writes_app. by destruct m.
    + repeat split. apply lookup_insert_eq.
  - rewrite (mutate_refused m st Hacc). simpl. split; [|done].
    by rewrite writes_app.
Qed.

(** C4.  With a search text that is empty or blank and the type filter
    [all], whatever the sort key, the query returns a permutation of the
    collection; it writes [filteredImages] and nothing else: the collection,
    [localStorage] and the effects are the ones it found. *)
Theorem query_all_returns_permutation (st : State) :
  Str.trim (searchQuery st) = "" ->
  filterType st = "all" ->
  exists st',
    filterAndSortImages st = (st', Ok tt) /\
    filteredImages st' ≡ₚ images st /\
    images st' = images st /\
    localStorage st' = localStorage st /\
    effects st' = effects st.
Proof.
  intros Hblank Hall. eexists. split; [reflexivity|]. simpl.
  repeat split. rewrite filtered_selected, Array_sort_Permutation.
  unfold selected. by rewrite Hblank, Hall.
Qed.

Lemma query_all_returns_permutation_witness :
  exists st',
    filterAndSortImages catAndDog = (st', Ok tt) /\
    filteredImages st' ≡ₚ images catAndDog /\
    images st' = images catAndDog /\
    localStorage st' = localStorage catAndDog /\
    effects st' = effects catAndDog.
Proof. apply (query_all_returns_permutation catAndDog); reflexivity. Defined.

Example query_newest : filtered [cat; dog] "  " "all" "newest" = [dog; cat].
Proof. reflexivity. Qed.

Example query_oldest : filtered [cat; dog] "" "all" "oldest" = [cat; dog].
Proof. reflexivity. Qed.

Example query_favorites : filtered [cat; dog] "" "all" "favorites" = [dog; cat].
Proof. reflexivity. Qed.

Example query_cat : filtered [cat; dog] "CAT" "all" "newest" = [cat].
Proof. reflexivity. Qed.

Example query_after_delete :
  filtered (remainingImages "1" [cat; dog]) "" "all" "newest" = [dog].
Proof. reflexivity. Qed.

Example toggleFavorite_refused :
  toggleFavorite "1" (mkState [cat; dog] [] "" "all" "newest" false (fullStorage ∅) []) =
    (mkState [cat; dog] [] "" "all" "newest" false (fullStorage ∅)
       [SetItem storageKey (JSON_stringify [flipFavorite cat; dog])],
     Throw QuotaExceededError).
Proof. reflexivity. Qed.

Example query_filename : filtered [cat; dog] "4x" "upscaled" "newest" = [dog].
Proof. reflexivity. Qed.


Lemma selected_elem_of (images : list GalleryImage) (searchQuery filterType : string)
    (r : GalleryImage) :
  r ∈ selected images searchQuery filterType <->
  r ∈ images /\
  (Str.truthy (Str.trim searchQuery) = true -> matchesSearch searchQuery r = true) /\
  (filterType = "all" \/ type r = filterType).
Proof.
  unfold selected.
  destruct (String.eqb_spec filterType "all") as [->|Hne]; simpl;
    destruct (Str.truthy (Str.trim searchQuery));
    rewrite ?filter_elem_of, ?String.eqb_eq; naive_solver.
Qed.



(** *** The search on any text

    On strings of code units below 256 the search over UTF-16 code units is
    the search of the record type. *)

Lemma N_of_ascii_eqb (a b : ascii) : (N_of_ascii a =? N_of_ascii b)%N = Ascii.eqb a b.
Proof.
  destruct (Ascii.eqb_spec a b) as [->|Hne]; [apply N.eqb_refl|].
  apply N.eqb_neq. intros Heq. apply Hne.
  by rewrite <- (ascii_N_embedding a), <- (ascii_N_embedding b), Heq.
Qed.

Lemma lowerUnit_ascii (c : ascii) :
  Utf16.lowerUnit (N_of_ascii c) = N_of_ascii (Str.lowerChar c).
Proof. destruct c as [[] [] [] [] [] [] [] []]; reflexivity. Qed.

Lemma isWhiteSpace_ascii (c : ascii) :
  Utf16.isWhiteSpace (N_of_ascii c) = Str.isWhiteSpace c.
Proof. destruct c as [[] [] [] [] [] [] [] []]; reflexivity. Qed.

Lemma lowerFrom_ofString (before : Utf16.Text) (s : string) :
  Utf16.lowerFrom before (Utf16.ofString s) = Utf16.ofString (Str.toLowerCase s).
Proof.
  revert before. induction s as [|c s IH]; intros before; simpl; [done|].
  rewrite IH, lowerUnit_ascii.
  assert ((N_of_ascii c =? 0x3A3)%N = false) as ->; [|done].
  apply N.eqb_neq. pose proof (N_ascii_bounded c). lia.
Qed.

Lemma startsWith_ofString (s search : string) :
  Utf16.startsWith (Utf16.ofString s) (Utf16.ofString search) = Str.startsWith s search.
Proof.
  revert s. induction search as [|a search IH]; intros s; simpl; [done|].
  destruct s as [|b s]; simpl; [done|]. by rewrite N_of_ascii_eqb, IH.
Qed.

Lemma includes_ofString (s search : string) :
  Utf16.includes (Utf16.ofString s) (Utf16.ofString search) = Str.includes s search.
Proof.
  induction s as [|c s IH].
  - pose proof (startsWith_ofString "" search) as Hstart.
    cbn [Utf16.ofString Utf16.includes Str.includes] in *. by rewrite Hstart.
  - pose proof (startsWith_ofString (String c s) search) as Hstart.
    cbn [Utf16.ofString Utf16.includes Str.includes] in *. by rewrite Hstart, IH.
Qed.

Lemma trimStart_ofString (s : string) :
  Utf16.trimStart (Utf16.ofString s) = Utf16.ofString (Str.trimStart s).
Proof.
  induction s as [|c s IH]; simpl; [done|].
  rewrite isWhiteSpace_ascii. by destruct (Str.isWhiteSpace c).
Qed.

Lemma trimEnd_ofString (s : string) :
  Utf16.trimEnd (Utf16.ofString s) = Utf16.ofString (Str.trimEnd s).
Proof.
  induction s as [|c s IH]; simpl; [done|].
  rewrite IH, isWhiteSpace_ascii.
  destruct (Str.trimEnd s); simpl; [by destruct (Str.isWhiteSpace c)|done].
Qed.

Lemma truthy_trim_ofString (s : string) :
  Utf16.truthy (Utf16.trim (Utf16.ofString s)) = Str.truthy (Str.trim s).
Proof.
  unfold Utf16.trim, Str.trim. rewrite trimStart_ofString, trimEnd_ofString.
  by destruct (Str.trimEnd (Str.trimStart s)).
Qed.

Lemma matchesSearch_searchable (searchQuery : string) (img : GalleryImage) :
  Utf16.matchesSearch (Utf16.ofString searchQuery) (searchable img) =
  matchesSearch searchQuery img.
Proof.
  unfold Utf16.matchesSearch, matchesSearch, searchable, Utf16.toLowerCase. simpl.
  rewrite !lowerFrom_ofString, includes_ofString.
  destruct (filename img) as [name|]; simpl; [|done].
  by rewrite lowerFrom_ofString, includes_ofString.
Qed.

Lemma filter_fmap_compose {A B : Type} (f : A -> B) (p : B -> bool) (l : list A) :
  List.filter p (f <$> l) = f <$> List.filter (fun a => p (f a)) l.
Proof.
  induction l as [|a l IH]; csimpl; [done|]. destruct (p (f a)); csimpl; by rewrite IH.
Qed.

(** The search filter of the record type is the search over UTF-16 code
    units, on the records it can hold. *)
Lemma search_searchable (searchQuery : string) (images : list GalleryImage) :
  Utf16.search (Utf16.ofString searchQuery) (searchable <$> images) =
  searchable <$> (if Str.truthy (Str.trim searchQuery)
                  then List.filter (matchesSearch searchQuery) images
                  else images).
Proof.
  unfold Utf16.search. rewrite truthy_trim_ofString.
  destruct (Str.truthy (Str.trim searchQuery)); [|done].
  rewrite filter_fmap_compose. f_equal. apply filter_ext. intros img.
  apply matchesSearch_searchable.
Qed.

Example toLowerCase_sigma :
  Utf16.toLowerCase
    [0x3A3; 0x3A3; 0x20; 0x41; 0x3A3; 0x2E; 0x3A3; 0x61; 0x20; 0x41; 0x27; 0x3A3; 0x2E]%N =
  [0x3C3; 0x3C2; 0x20; 0x61; 0x3C3; 0x2E; 0x3C3; 0x61; 0x20; 0x61; 0x27; 0x3C2; 0x2E]%N.
Proof. reflexivity. Qed.


(** *** The order of the result on valid dates *)

Lemma sortCompare_dated (sortBy : string) (a b : GalleryImage) :
  dated a -> dated b ->
  sortCompare (compareImages sortBy) a b = compareDated sortBy a b.
Proof.
  unfold dated, sortCompare, compareImages, compareDated, timeOf.
  intros [ta ->] [tb ->]. simpl.
  destruct (String.eqb sortBy "newest"); [done|].
  destruct (String.eqb sortBy "oldest"); [done|].
  destruct (String.eqb sortBy "favorites"); [|done].
  by destruct (isFavorite a), (isFavorite b).
Qed.

Lemma selected_dated (images : list GalleryImage) (searchQuery filterType : string) :
  Forall dated images -> Forall dated (selected images searchQuery filterType).
Proof.
  rewrite !Forall_forall. intros Hdated img Himg. apply Hdated.
  by apply selected_elem_of in Himg as [Himg _].
Qed.

Lemma filtered_dated (images : list GalleryImage) (searchQuery filterType sortBy : string) :
  Forall dated images ->
  filtered images searchQuery filterType sortBy =
  Array_sort (compareDated sortBy) (selected images searchQuery filterType).
Proof.
  intros Hdated. rewrite filtered_selected. apply Array_sort_ext.
  pose proof (selected_dated images searchQuery filterType Hdated) as Hkept.
  rewrite Forall_forall in Hkept. intros a b Ha Hb. apply sortCompare_dated; auto.
Qed.

Lemma filtered_elem_dated (images : list GalleryImage)
    (searchQuery filterType sortBy : string) (i : nat) (a : GalleryImage) :
  Forall dated images ->
  filtered images searchQuery filterType sortBy !! i = Some a -> dated a.
Proof.
  intros Hdated Ha. apply list_elem_of_lookup_2 in Ha.
  rewrite filtered_selected, Array_sort_elem_of in Ha.
  pose proof (selected_dated images searchQuery filterType Hdated) as Hkept.
  rewrite Forall_forall in Hkept. by apply Hkept.
Qed.

Lemma timeOf_notOlder (a b : GalleryImage) :
  dated a -> dated b -> timeOf b <= timeOf a -> notOlder a b.
Proof.
  unfold dated, timeOf, notOlder. intros [ta Ha] [tb Hb]. rewrite Ha, Hb. simpl. eauto.
Qed.





Lemma StronglySorted_reverse {A : Type} (R : relation A) (l : list A) :
  StronglySorted R l -> StronglySorted (flip R) (reverse l).
Proof.
  induction 1 as [|x l Hl IH Hx]; [constructor|].
  rewrite reverse_cons. apply StronglySorted_app_2; [|done|repeat constructor].
  intros y ? Hy ->%list_elem_of_singleton. rewrite Forall_forall in Hx.
  apply Hx. by apply elem_of_reverse.
Qed.

Lemma StronglySorted_weaken {A : Type} (R R' : relation A) (l : list A) :
  (forall x y, R x y -> R' x y) -> StronglySorted R l -> StronglySorted R' l.
Proof.
  intros HR. induction 1 as [|x l Hl IH Hx]; constructor; [done|].
  eapply Forall_impl; [exact Hx|]. auto.
Qed.

Lemma NoDup_fmap_filter {A B : Type} (g : A -> B) (f : A -> bool) (l : list A) :
  NoDup (g <$> l) -> NoDup (g <$> List.filter f l).
Proof.
  induction l as [|a l IH]; csimpl; [done|].
  rewrite NoDup_cons. intros [Ha Hl]. destruct (f a); csimpl; [|by apply IH].
  apply NoDup_cons. split; [|by apply IH].
  intros (x & Hgx & Hx)%list_elem_of_fmap. apply Ha, list_elem_of_fmap.
  exists x. split; [done|]. by apply filter_elem_of in Hx as [Hx _].
Qed.

Lemma NoDup_fmap_inj_on {A B : Type} (g : A -> B) (l : list A) (x y : A) :
  NoDup (g <$> l) -> x ∈ l -> y ∈ l -> g x = g y -> x = y.
Proof.
  induction l as [|a l IH]; csimpl; [by intros _ ?%not_elem_of_nil|].
  rewrite NoDup_cons, !elem_of_cons. intros [Ha Hl] [->|Hx] [->|Hy] Hg; [done| | |by apply IH].
  - destruct Ha. rewrite Hg. by apply list_elem_of_fmap_2.
  - destruct Ha. rewrite <- Hg. by apply list_elem_of_fmap_2.
Qed.

Lemma selected_NoDup_createdAt (images : list GalleryImage) (searchQuery filterType : string) :
  NoDup (createdAt <$> images) ->
  NoDup (createdAt <$> selected images searchQuery filterType).
Proof.
  intros Hnd. unfold selected.
  destruct (negb _), (Str.truthy _); auto using NoDup_fmap_filter.
Qed.

Lemma sorted_newest (l : list GalleryImage) :
  StronglySorted (fun x y => timeOf y <= timeOf x)
    (Array_sort (compareDated "newest") l).
Proof.
  apply (StronglySorted_weaken (fun x y => compareDated "newest" x y <= 0)).
  - intros x y. change (compareDated "newest" x y) with (timeOf y - timeOf x). lia.
  - apply Array_sort_sorted.
    + intros x y. change (compareDated "newest" x y) with (timeOf y - timeOf x).
      change (compareDated "newest" y x) with (timeOf x - timeOf y). lia.
    + intros x y z. change (compareDated "newest" x y) with (timeOf y - timeOf x).
      change (compareDated "newest" y z) with (timeOf z - timeOf y).
      change (compareDated "newest" x z) with (timeOf z - timeOf x). lia.
Qed.

Lemma sorted_oldest (l : list GalleryImage) :
  StronglySorted (fun x y => timeOf x <= timeOf y)
    (Array_sort (compareDated "oldest") l).
Proof.
  apply (StronglySorted_weaken (fun x y => compareDated "oldest" x y <= 0)).
  - intros x y. change (compareDated "oldest" x y) with (timeOf x - timeOf y). lia.
  - apply Array_sort_sorted.
    + intros x y. change (compareDated "oldest" x y) with (timeOf x - timeOf y).
      change (compareDated "oldest" y x) with (timeOf y - timeOf x). lia.
    + intros x y z. change (compareDated "oldest" x y) with (timeOf x - timeOf y).
      change (compareDated "oldest" y z) with (timeOf y - timeOf z).
      change (compareDated "oldest" x z) with (timeOf x - timeOf z). lia.
Qed.

Lemma timeOf_inj (x y : GalleryImage) :
  dated x -> dated y -> timeOf x = timeOf y -> createdAt x = createdAt y.
Proof. unfold dated, timeOf. intros [tx ->] [ty ->]. simpl. congruence. Qed.

(** C7, as amended.  When the dates of the collection are all valid and
    pairwise distinct, the result of a query sorted by [newest], reversed, is
    the result of the same query sorted by [oldest]. *)
Theorem newest_reversed_is_oldest
    (images : list GalleryImage) (searchQuery filterType : string) :
  Forall dated images ->
  NoDup (createdAt <$> images) ->
  reverse (filtered images searchQuery filterType "newest") =
  filtered images searchQuery filterType "oldest".
Proof.
  intros Hdated Hdistinct. rewrite !filtered_dated by done.
  pose proof (selected_NoDup_createdAt images searchQuery filterType Hdistinct) as Hnd.
  pose proof (selected_dated images searchQuery filterType Hdated) as Hkept.
  rewrite Forall_forall in Hkept.
  set (kept := selected images searchQuery filterType) in *.
  apply (StronglySorted_unique_strong (fun x y => timeOf x <= timeOf y)).
  - intros x y Hx Hy Hxy Hyx.
    rewrite elem_of_reverse, Array_sort_elem_of in Hx. rewrite Array_sort_elem_of in Hy.
    apply (NoDup_fmap_inj_on createdAt kept); [done..|].
    apply timeOf_inj; [auto..|lia].
  - apply (StronglySorted_reverse (fun x y => timeOf y <= timeOf x)), sorted_newest.
  - apply sorted_oldest.
  - by rewrite reverse_Permutation, !Array_sort_Permutation.
Qed.

Lemma newest_reversed_is_oldest_witness :
  reverse (filtered [cat; dog] "" "all" "newest") = filtered [cat; dog] "" "all" "oldest".
Proof.
  apply (newest_reversed_is_oldest [cat; dog] "" "all").
  - repeat constructor; by eexists.
  - apply (bool_decide_unpack _). vm_compute. reflexivity.
Defined.

(** C7 as stated fails.  Three records with pairwise distinct [createdAt], one
    of them the Invalid Date the loader makes of a value that is no date: by
    [newest] and by [oldest] alike they stay as the collection has them, so
    the first result reversed is not the second. *)
Lemma newest_reversed_with_invalid_date :
  NoDup (createdAt <$> [early; undated; late]) /\
  filtered [early; undated; late] "" "all" "newest" = [early; undated; late] /\
  filtered [early; undated; late] "" "all" "oldest" = [early; undated; late] /\
  reverse (filtered [early; undated; late] "" "all" "newest") = [late; undated; early].
Proof.
  split; [apply (bool_decide_unpack _); vm_compute; reflexivity|].
  repeat split; vm_compute; reflexivity.
Qed.

Lemma flipFavorite_involutive (img : GalleryImage) : flipFavorite (flipFavorite img) = img.
Proof. destruct img as [? ? ? ? ? ? ? ? ? ? ? fav]. unfold flipFavorite; simpl. by rewrite negb_involutive. Qed.

Lemma toggledImages_involutive (imageId : string) (images : list GalleryImage) :
  toggledImages imageId (toggledImages imageId images) = images.
Proof.
  unfold toggledImages. rewrite <- list_fmap_compose.
  induction images as [|img images IH]; csimpl; [done|]. rewrite IH. f_equal.
  destruct (String.eqb_spec (id img) imageId) as [Heq|Hne]; simpl.
  - rewrite <- String.eqb_eq in Heq. by rewrite Heq, flipFavorite_involutive.
  - rewrite <- String.eqb_neq in Hne. by rewrite Hne.
Qed.

(** C8.  Two calls of [toggleFavorite] with one id in succession, both writes
    accepted, both return normally; after the first every record with that id
    has its [isFavorite] negated, and after the second the collection, and so
    the [isFavorite] of each of its records, is what it was at the start. *)
Theorem toggleFavorite_twice (imageId : string) (st : State) :
  accepts (localStorage st) storageKey
    (JSON_stringify (toggledImages imageId (images st))) = true ->
  accepts (localStorage st) storageKey (JSON_stringify (images st)) = true ->
  exists st1 st2,
    toggleFavorite imageId st = (st1, Ok tt) /\
    toggleFavorite imageId st1 = (st2, Ok tt) /\
    (forall i img, images st !! i = Some img -> id img = imageId ->
       isFavorite <$> images st1 !! i = Some (negb (isFavorite img))) /\
    images st2 = images st /\
    items (localStorage st2) !! storageKey = Some (JSON_stringify (images st)).
Proof.
  intros Hacc1 Hacc2. eexists. eexists.
  split; [exact (mutate_accepted (ToggleFavorite imageId) st Hacc1)|].
  split.
  { apply (mutate_accepted (ToggleFavorite imageId)). simpl.
    by rewrite toggledImages_involutive. }
  simpl. rewrite toggledImages_involutive. repeat split.
  - intros i img Hi Hid. rewrite toggledImages_lookup, Hi. simpl.
    rewrite <- String.eqb_eq in Hid. by rewrite Hid.
  - apply lookup_insert_eq.
Qed.

Lemma toggleFavorite_twice_witness :
  exists st1 st2,
    toggleFavorite "1" catAndDog = (st1, Ok tt) /\
    toggleFavorite "1" st1 = (st2, Ok tt) /\
    isFavorite <$> images st1 !! 0%nat = Some true /\
    images st2 = [cat; dog].
Proof.
  destruct (toggleFavorite_twice "1" catAndDog) as (st1 & st2 & H1 & H2 & Hflip & Hback & _);
    [reflexivity..|].
  exists st1, st2. repeat split; [exact H1|exact H2| |exact Hback].
  exact (Hflip 0%nat cat eq_refl eq_refl).
Defined.

Lemma remainingImages_elem_of (imageId : string) (images : list GalleryImage)
    (img : GalleryImage) :
  img ∈ remainingImages imageId images <-> img ∈ images /\ id img <> imageId.
Proof.
  unfold remainingImages. rewrite filter_elem_of, negb_true_iff, String.eqb_neq. done.
Qed.

Lemma remainingImages_sublist (imageId : string) (images : list GalleryImage) :
  remainingImages imageId images `sublist_of` images.
Proof.
  unfold remainingImages. induction images as [|img images IH]; simpl; [done|].
  destruct (negb _); by constructor.
Qed.

(** C9.  [deleteImage], its write accepted, returns normally whether or not
    a record has the id: the records left are those of the collection with
    another id, in their order, and a collection without that id is left as it
    is.  A second [deleteImage] of the same id returns normally too and
    changes neither the collection nor the stored items. *)
Theorem deleteImage_idempotent (imageId : string) (st : State) :
  accepts (localStorage st) storageKey
    (JSON_stringify (remainingImages imageId (images st))) = true ->
  exists st1 st2,
    deleteImage imageId st = (st1, Ok tt) /\
    deleteImage imageId st1 = (st2, Ok tt) /\
    (forall img, img ∈ images st1 <-> img ∈ images st /\ id img <> imageId) /\
    images st1 `sublist_of` images st /\
    ((forall img, img ∈ images st -> id img <> imageId) -> images st1 = images st) /\
    images st2 = images st1 /\
    items (localStorage st2) = items (localStorage st1).
Proof.
  intros Hacc.
  assert (remainingImages imageId (remainingImages imageId (images st)) =
          remainingImages imageId (images st)) as Hidem by apply filter_idempotent.
  eexists. eexists.
  split; [exact (mutate_accepted (DeleteImage imageId) st Hacc)|].
  split.
  { apply (mutate_accepted (DeleteImage imageId)). simpl. by rewrite Hidem. }
  simpl. rewrite Hidem.
  split; [intros img; apply remainingImages_elem_of|].
  split; [apply remainingImages_sublist|].
  split.
  { intros Habsent. apply filter_all. intros img Himg.
    apply negb_true_iff, String.eqb_neq. by apply Habsent. }
  split; [done|]. apply insert_insert_eq.
Qed.

Lemma deleteImage_idempotent_witness :
  exists st1 st2,
    deleteImage "1" catAndDog = (st1, Ok tt) /\
    deleteImage "1" st1 = (st2, Ok tt) /\
    images st1 = [dog] /\
    images st2 = [dog].
Proof.
  destruct (deleteImage_idempotent "1" catAndDog) as (st1 & st2 & H1 & H2 & _ & _ & _ & Hsame & _);
    [reflexivity|].
  exists st1, st2. split; [exact H1|]. split; [exact H2|].
  assert (images st1 = [dog]) as Hst1.
  { change (images (fst (st1, @Ok unit tt)) = [dog]). by rewrite <- H1. }
  split; [exact Hst1|]. by rewrite Hsame.
Defined.

(** C10.  [toggleFavorite], whether its write is accepted or refused, leaves
    the collection with its length; the record at each place keeps every
    field but [isFavorite], so the ids stay in their order, and a record with
    another id is left as it is.  The query cells of the state are the ones it
    found. *)
Theorem toggleFavorite_frame (imageId : string) (st : State) :
  length (images (fst (toggleFavorite imageId st))) = length (images st) /\
  (forall i img, images st !! i = Some img ->
     exists img', images (fst (toggleFavorite imageId st)) !! i = Some img' /\
       sameButFavorite img img' /\ (id img <> imageId -> img' = img)) /\
  filteredImages (fst (toggleFavorite imageId st)) = filteredImages st /\
  searchQuery (fst (toggleFavorite imageId st)) = searchQuery st /\
  filterType (fst (toggleFavorite imageId st)) = filterType st /\
  sortBy (fst (toggleFavorite imageId st)) = sortBy st.
Proof.
  destruct (accepts (localStorage st) storageKey
              (JSON_stringify (toggledImages imageId (images st)))) eqn:Hacc.
  - pose proof (mutate_accepted (ToggleFavorite imageId) st Hacc) as Hrun.
    simpl in Hrun. rewrite Hrun. simpl.
    split; [apply length_fmap|]. split; [|done].
    intros i img Hi. rewrite toggledImages_lookup, Hi. simpl. eexists. split; [done|].
    destruct (String.eqb_spec (id img) imageId) as [Heq|Hne].
    + split; [by repeat split|done].
    + split; [by repeat split|done].
  - pose proof (mutate_refused (ToggleFavorite imageId) st Hacc) as Hrun.
    simpl in Hrun. rewrite Hrun. simpl.
    split; [done|]. split; [|done].
    intros i img Hi. exists img. split; [done|]. split; [by repeat split|done].
Qed.

(** ** The loader *)

Lemma getField_setField_eq {V : Type} (key : string) (v : V) (fields : list (string * V)) :
  getField key (setField key v fields) = Some v.
Proof.
  unfold getField. induction fields as [|[k w] fields IH]; simpl.
  - by rewrite String.eqb_refl.
  - destruct (String.eqb k key) eqn:Hk; simpl; by rewrite Hk.
Qed.

Lemma getField_setField_ne {V : Type} (key key' : string) (v : V)
    (fields : list (string * V)) :
  key' <> key -> getField key' (setField key v fields) = getField key' fields.
Proof.
  intros Hne. unfold getField. induction fields as [|[k w] fields IH]; simpl.
  - apply String.eqb_neq in Hne. rewrite String.eqb_sym in Hne. by rewrite Hne.
  - destruct (String.eqb_spec k key) as [->|Hk]; simpl.
    + apply String.eqb_neq in Hne. rewrite String.eqb_sym in Hne. by rewrite Hne.
    + destruct (String.eqb k key'); [done|exact IH].
Qed.

Lemma getField_lifted (key : string) (fields : list (string * json)) :
  getField key (prod_map Datatypes.id Json <$> fields) = Json <$> getField key fields.
Proof.
  unfold getField. induction fields as [|[k w] fields IH]; csimpl; [done|].
  destruct (String.eqb k key); [done|exact IH].
Qed.

Lemma json_nested_ind (P : json -> Prop) :
  P JNull ->
  (forall b, P (JBool b)) ->
  (forall n, P (JNum n)) ->
  (forall s, P (JStr s)) ->
  (forall xs, Forall P xs -> P (JArr xs)) ->
  (forall fields, P (JObj fields)) ->
  forall j, P j.
Proof.
  intros Hnull Hbool Hnum Hstr Harr Hobj. fix IH 1.
  intros [|b|n|s|xs|fields];
    [exact Hnull|apply Hbool|apply Hnum|apply Hstr| |apply Hobj].
  apply Harr. induction xs as [|x xs IHxs]; constructor; [apply IH|exact IHxs].
Qed.

Lemma join_throws {A : Type} (f : A -> Result string) (g : A -> bool) (xs : list A) :
  Forall (fun x => if g x then f x = Throw TypeError else exists s, f x = Ok s) xs ->
  if existsb g xs then join f xs = Throw TypeError else exists s, join f xs = Ok s.
Proof.
  induction 1 as [|x xs Hx _ IH]; [simpl; eauto|].
  cbn [existsb join]. destruct (g x); cbn [orb]; [by rewrite Hx|].
  destruct Hx as [first ->].
  destruct (existsb g xs) eqn:Hany.
  - destruct xs as [|x' xs]; [done|]. by rewrite IH.
  - destruct IH as [rest Hrest]. destruct xs as [|x' xs]; [eauto|].
    rewrite Hrest. eauto.
Qed.

(** The conversion throws on the unprintable values and on no other, and what
    it throws is a TypeError. *)
Lemma ToString_unprintable (j : json) :
  if unprintable j then ToString j = Throw TypeError else exists s, ToString j = Ok s.
Proof.
  induction j as [|b|n|s|xs IH|fields] using json_nested_ind; simpl; eauto.
  - apply join_throws. eapply Forall_impl; [exact IH|].
    intros x Hx. destruct x; try exact Hx. simpl. eauto.
  - destruct (hasOwn "toString" fields); eauto.
Qed.

Section LoaderFacts.

Variable Date_parse : string -> option Z.

Lemma newDate_revivable (img : json) :
  revivable img = true -> exists time, newDate Date_parse (getProp "createdAt" img) = Ok time.
Proof.
  unfold revivable. intros Himg.
  destruct (getProp "createdAt" img) as [value|] eqn:Hvalue; [|by destruct img; eauto].
  assert (unprintable value = false) as Hvalue' by (destruct img, (unprintable value); done).
  pose proof (ToString_unprintable value) as Hprint. rewrite Hvalue' in Hprint.
  destruct Hprint as [s Hs]. destruct value; simpl in *; rewrite ?Hs; eauto.
Qed.

Lemma revive_revivable (img : json) (time : option Z) :
  revivable img = true ->
  newDate Date_parse (getProp "createdAt" img) = Ok time ->
  revive Date_parse img =
    Ok (setField "createdAt" (DateObj time)
          (prod_map Datatypes.id Json <$> ownProperties img)).
Proof. intros Himg Htime. unfold revive. rewrite Htime. by destruct img. Qed.

Lemma revive_throws (img : json) (e : Error) :
  revive Date_parse img = Throw e -> e = TypeError /\ revivable img = false.
Proof.
  unfold revive, revivable.
  destruct (getProp "createdAt" img) as [value|] eqn:Hvalue.
  - pose proof (ToString_unprintable value) as Hprint.
    destruct (unprintable value) eqn:Hun.
    + destruct img; try (by intros [= <-]);
        destruct value; simpl in *; try done; rewrite Hprint; by intros [= <-].
    + destruct Hprint as [s Hs].
      destruct img; try (by intros [= <-]);
        destruct value; simpl in *; rewrite ?Hs; done.
  - destruct img; simpl; try done; by intros [= <-].
Qed.

Lemma revive_not_revivable (img : json) :
  revivable img = false -> revive Date_parse img = Throw TypeError.
Proof.
  intros Himg. destruct (revive Date_parse img) as [o|e] eqn:Hrevive.
  - destruct (revivable img) eqn:Hr; [done|].
    unfold revive in Hrevive. destruct img; try done; unfold revivable in Hr; simpl in *.
    all: try (destruct (getField "createdAt" fields) as [value|]; [|done]).
    all: pose proof (ToString_unprintable value) as Hprint;
      destruct (unprintable value); [|done];
      destruct value; simpl in *; try done; by rewrite Hprint in Hrevive.
  - by apply revive_throws in Hrevive as [-> _].
Qed.

Lemma mapR_revive (xs : list json) :
  Forall (fun x => revivable x = true) xs ->
  exists parsedImages,
    mapR (revive Date_parse) xs = Ok parsedImages /\
    Forall2 (fun x o => revive Date_parse x = Ok o) xs parsedImages.
Proof.
  induction 1 as [|x xs Hx Hxs (parsed & Hparsed & Hall)]; simpl.
  - by exists [].
  - destruct (newDate_revivable x Hx) as [time Htime].
    rewrite (revive_revivable x time Hx Htime), Hparsed. eexists. split; [done|].
    constructor; [by apply revive_revivable|done].
Qed.

Lemma mapR_revive_throws (xs : list json) :
  Exists (fun x => revivable x = false) xs -> mapR (revive Date_parse) xs = Throw TypeError.
Proof.
  induction 1 as [x xs Hx|x xs _ IH]; simpl.
  - by rewrite (revive_not_revivable x Hx).
  - destruct (revive Date_parse x) as [o|e] eqn:Hx; [by rewrite IH|].
    by apply revive_throws in Hx as [-> _].
Qed.

(** What [loadImages] does with a stored text that is not empty. *)
Lemma loadImages_stored (st : State) (text : Text) :
  items (localStorage st) !! storageKey = Some text ->
  Text_truthy text = true ->
  loadImages Date_parse st =
    match parseImages Date_parse text with
    | Ok parsedImages =>
        match asGalleryImages parsedImages with
        | Some loaded =>
            Typed (mkState loaded (filteredImages st) (searchQuery st) (filterType st)
                     (sortBy st) false (localStorage st)
                     (effects st ++ [GetItem storageKey])%list)
        | None =>
            Untyped parsedImages
              (mkState (images st) (filteredImages st) (searchQuery st) (filterType st)
                 (sortBy st) false (localStorage st)
                 (effects st ++ [GetItem storageKey])%list)
        end
    | Throw e =>
        Typed (mkState (images st) (filteredImages st) (searchQuery st) (filterType st)
                 (sortBy st) false (localStorage st)
                 ((effects st ++ [GetItem storageKey]) ++
                  [ConsoleError "Error loading images:" e])%list)
    end.
Proof.
  intros Hstored Htruthy.
  unfold loadImages, readImages, tryFinally, tryCatch, getItem, liftR, setIsLoading,
    perform, gets, mbind, M_bind, mret, M_ret; simpl.
  rewrite Hstored, Htruthy.
  destruct (parseImages Date_parse text) as [parsedImages|e]; simpl; [|done].
  by destruct (asGalleryImages parsedImages).
Qed.

End LoaderFacts.

Lemma takeString_Some (key : string) (o rest : RawImage) (s : string) :
  takeString key o = Some (s, rest) -> o = (key, Json (JStr s)) :: rest.
Proof.
  destruct o as [|[k [[| | |s'| |]|]] o]; simpl; try done.
  destruct (String.eqb_spec k key) as [->|]; [|done]. by intros [= -> ->].
Qed.

Lemma takeOptional_spec (key : string) (o rest : RawImage) (v : option string) :
  takeOptional key o = (v, rest) ->
  o = (optionalField key (fun s => Json (JStr s)) v ++ rest)%list.
Proof.
  unfold takeOptional. destruct (takeString key o) as [[s o']|] eqn:Htake.
  - intros [= <- <-]. by apply takeString_Some.
  - by intros [= <- <-].
Qed.

Lemma asGalleryImage_rawOf (o : RawImage) (img : GalleryImage) :
  asGalleryImage o = Some img -> rawOf img = o.
Proof.
  unfold asGalleryImage.
  destruct (takeString "id" o) as [[f1 o1]|] eqn:H1; simpl; [|done].
  destruct (takeString "url" o1) as [[f2 o2]|] eqn:H2; simpl; [|done].
  destruct (takeString "prompt" o2) as [[f3 o3]|] eqn:H3; simpl; [|done].
  destruct (takeString "type" o3) as [[f4 o4]|] eqn:H4; simpl; [|done].
  destruct (takeOptional "size" o4) as [f5 o5] eqn:H5.
  destruct (takeOptional "quality" o5) as [f6 o6] eqn:H6.
  destruct (takeOptional "style" o6) as [f7 o7] eqn:H7.
  destruct (takeOptional "scale" o7) as [f8 o8] eqn:H8.
  destruct (takeOptional "mode" o8) as [f9 o9] eqn:H9.
  destruct (takeOptional "filename" o9) as [f10 o10] eqn:H10.
  apply takeString_Some in H1, H2, H3, H4.
  apply takeOptional_spec in H5, H6, H7, H8, H9, H10.
  destruct o10 as [|[k1 [?|t]] [|[k2 [[|b| | | |]|]] [|]]]; try done.
  destruct (String.eqb_spec k1 "createdAt") as [->|]; [|done].
  destruct (String.eqb_spec k2 "isFavorite") as [->|]; [|done].
  simpl. intros [= <-]. by subst.
Qed.

Lemma asGalleryImages_rawOf (parsedImages : list RawImage) (loaded : list GalleryImage) :
  asGalleryImages parsedImages = Some loaded -> rawOf <$> loaded = parsedImages.
Proof.
  revert loaded. induction parsedImages as [|o rest IH]; intros loaded; simpl.
  - by intros [= <-].
  - destruct (asGalleryImage o) as [img|] eqn:Ho; simpl; [|done].
    destruct (asGalleryImages rest) as [imgs|]; simpl; [|done].
    intros [= <-]. csimpl. by rewrite (asGalleryImage_rawOf o img Ho), (IH imgs).
Qed.

Lemma asGalleryImage_of_rawOf (img : GalleryImage) : asGalleryImage (rawOf img) = Some img.
Proof.
  destruct img as [? ? ? ? [?|] [?|] [?|] [?|] [?|] [?|] ? ?]; reflexivity.
Qed.

(** C2, as amended.  [loadImages] checks no record against the schema.  When
    the stored text is an array with no [null] element and no element whose
    [createdAt] has no primitive (an object with an own property [toString],
    or an array holding one, on which [new Date] throws), every element is
    kept at its place in what [setImages] receives: the object has the
    properties it was stored with, [type] whatever string it is and no
    property supplied for one that is missing, and only [createdAt] is
    replaced, by the date built from what was stored under it.  Nothing is
    dropped, so no record stops the others from being loaded. *)
Theorem loadImages_keeps_every_record
    (Date_parse : string -> option Z) (st : State) (xs : list json) :
  items (localStorage st) !! storageKey = Some (JsonText (JArr xs)) ->
  Forall (fun x => revivable x = true) xs ->
  exists parsedImages,
    ((exists st', loadImages Date_parse st = Typed st' /\
                  rawOf <$> images st' = parsedImages) \/
     (exists st', loadImages Date_parse st = Untyped parsedImages st')) /\
    length parsedImages = length xs /\
    forall i x, xs !! i = Some x ->
      exists o time, parsedImages !! i = Some o /\
        newDate Date_parse (getProp "createdAt" x) = Ok time /\
        getField "createdAt" o = Some (DateObj time) /\
        forall key, key <> "createdAt" ->
          getField key o = Json <$> getField key (ownProperties x).
Proof.
  intros Hstored Hxs.
  destruct (mapR_revive Date_parse xs Hxs) as (parsedImages & Hparsed & Hall).
  exists parsedImages. split; [|split].
  - rewrite (loadImages_stored Date_parse st _ Hstored eq_refl).
    unfold parseImages. simpl. rewrite Hparsed.
    destruct (asGalleryImages parsedImages) as [loaded|] eqn:Hcast.
    + left. eexists. split; [done|]. simpl. by apply asGalleryImages_rawOf.
    + right. by eexists.
  - symmetry. by eapply Forall2_length.
  - intros i x Hi.
    destruct (Forall2_lookup_l _ _ _ _ _ Hall Hi) as (o & Ho & Hrevive).
    assert (revivable x = true) as Hx
      by (rewrite Forall_lookup in Hxs; by eapply Hxs).
    destruct (newDate_revivable Date_parse x Hx) as [time Htime].
    exists o, time. split; [done|]. split; [done|].
    rewrite (revive_revivable Date_parse x time Hx Htime) in Hrevive.
    injection Hrevive as <-. split.
    + apply getField_setField_eq.
    + intros key Hkey. by rewrite getField_setField_ne, getField_lifted.
Qed.

Lemma loadImages_keeps_every_record_witness :
  exists parsedImages,
    length parsedImages = 3%nat /\
    forall i x, [toJSON cat; toJSON hologram; fragment] !! i = Some x ->
      exists o, parsedImages !! i = Some o /\
        getField "type" o = Json <$> getField "type" (ownProperties x).
Proof.
  destruct (loadImages_keeps_every_record Date.parseISO
              (storedWith [toJSON cat; toJSON hologram; fragment])
              [toJSON cat; toJSON hologram; fragment])
    as (parsedImages & _ & Hlength & Hkept).
  - reflexivity.
  - repeat constructor.
  - exists parsedImages. split; [exact Hlength|].
    intros i x Hi. destruct (Hkept i x Hi) as (o & time & Ho & _ & _ & Hkeys).
    exists o. split; [exact Ho|]. apply Hkeys. discriminate.
Defined.

(** C2 as stated fails.  A stored record whose [type] is none of the five is
    loaded into the collection like the record before it; a stored object
    without [url], [prompt] and [isFavorite] is handed to [setImages] as it
    is; and one [null] among the stored records makes the loader give up the
    whole array, the well-formed record before it included. *)
Lemma loadImages_validates_nothing :
  recognizedType (type hologram) = false /\
  loadImages Date.parseISO (storedWith [toJSON cat; toJSON hologram]) =
    Typed (mkState [cat; hologram] [] "" "all" "newest" false
             (localStorage (storedWith [toJSON cat; toJSON hologram]))
             [GetItem storageKey]) /\
  loadImages Date.parseISO (storedWith [fragment]) =
    Untyped [[("id", Json (JStr "4")); ("type", Json (JStr "generated"));
              ("createdAt", DateObj (Some 1700000000000))]]
      (mkState [] [] "" "all" "newest" false (localStorage (storedWith [fragment]))
         [GetItem storageKey]) /\
  loadImages Date.parseISO (storedWith [toJSON cat; JNull]) =
    Typed (mkState [] [] "" "all" "newest" false
             (localStorage (storedWith [toJSON cat; JNull]))
             [GetItem storageKey; ConsoleError "Error loading images:" TypeError]).
Proof. repeat split; vm_compute; reflexivity. Qed.

(** One stored record that is [null], or whose [createdAt] has no primitive,
    and the loader gives the array up: the collection stays as it was and the
    error goes to the console. *)
Lemma loadImages_gives_up
    (Date_parse : string -> option Z) (st : State) (xs : list json) :
  items (localStorage st) !! storageKey = Some (JsonText (JArr xs)) ->
  Exists (fun x => revivable x = false) xs ->
  exists st',
    loadImages Date_parse st = Typed st' /\
    images st' = images st /\
    effects st' =
      (effects st ++
         [GetItem storageKey; ConsoleError "Error loading images:" TypeError])%list.
Proof.
  intros Hstored Hbad.
  rewrite (loadImages_stored Date_parse st _ Hstored eq_refl).
  unfold parseImages. simpl. rewrite (mapR_revive_throws Date_parse xs Hbad).
  eexists. split; [done|]. simpl. split; [done|]. by rewrite <- app_assoc.
Qed.

Lemma loadImages_null_gives_up
    (Date_parse : string -> option Z) (st : State) (xs : list json) :
  items (localStorage st) !! storageKey = Some (JsonText (JArr xs)) ->
  JNull ∈ xs ->
  exists st',
    loadImages Date_parse st = Typed st' /\
    images st' = images st /\
    effects st' =
      (effects st ++
         [GetItem storageKey; ConsoleError "Error loading images:" TypeError])%list.
Proof.
  intros Hstored Hnull. apply (loadImages_gives_up Date_parse st xs Hstored).
  apply Exists_exists. by exists JNull.
Qed.

(** A stored record whose [createdAt] is an object with an own property
    [toString]: [new Date] throws on it, and the record before it is not
    loaded either. *)
Example loadImages_sealed_gives_up :
  revivable sealed = false /\
  loadImages Date.parseISO (storedWith [toJSON cat; sealed]) =
    Typed (mkState [] [] "" "all" "newest" false
             (localStorage (storedWith [toJSON cat; sealed]))
             [GetItem storageKey; ConsoleError "Error loading images:" TypeError]).
Proof. split; vm_compute; reflexivity. Qed.

(** An Invalid Date is written as [null], which [new Date] reads as the
    epoch: saved and loaded again, the record has a valid date. *)
Example undated_reloads_at_the_epoch :
  getField "createdAt" (ownProperties (toJSON undated)) = Some JNull /\
  loadImages Date.parseISO (storedWith [toJSON undated]) =
    Typed (mkState [mkGalleryImage "b" "https://img.example/b.png" "noon" "generated"
                      None None None None None None (Some 0) false]
             [] "" "all" "newest" false
             (localStorage (storedWith [toJSON undated])) [GetItem storageKey]).
Proof. split; vm_compute; reflexivity. Qed.

(** ** More about the query *)

Lemma filter_filter_andb {A : Type} (f g : A -> bool) (l : list A) :
  List.filter g (List.filter f l) = List.filter (fun x => f x && g x) l.
Proof.
  induction l as [|a l IH]; simpl; [done|].
  destruct (f a); simpl; [|done]. destruct (g a); by rewrite IH.
Qed.

Lemma filter_true {A : Type} (f : A -> bool) (l : list A) :
  (forall x, f x = true) -> List.filter f l = l.
Proof. intros Hf. apply filter_all. auto. Qed.

Lemma selected_passes (images : list GalleryImage) (searchQuery filterType : string) :
  selected images searchQuery filterType =
  List.filter (passes searchQuery filterType) images.
Proof.
  unfold selected, passes.
  destruct (Str.truthy (Str.trim searchQuery)), (String.eqb filterType "all"); simpl.
  - apply filter_ext. intros img. by destruct (matchesSearch searchQuery img).
  - apply filter_filter_andb.
  - symmetry. by apply filter_true.
  - done.
Qed.

(** X1.  The query returns the records of the collection that pass its two tests,
    each as often as the collection has it, in some order: nothing else is
    in the result and nothing that passes is missing. *)
Theorem query_returns_what_passes
    (images : list GalleryImage) (searchQuery filterType sortBy : string) :
  filtered images searchQuery filterType sortBy ≡ₚ
  List.filter (passes searchQuery filterType) images.
Proof. by rewrite filtered_selected, Array_sort_Permutation, selected_passes. Qed.

(** X2.  In a collection whose dates are all valid, sorted by [newest] the
    result has the later record first, sorted by [oldest] the earlier one. *)
Theorem newest_descends_oldest_ascends
    (images : list GalleryImage) (searchQuery filterType : string) (i j : nat) :
  Forall dated images ->
  (i < j)%nat ->
  (forall a b,
     filtered images searchQuery filterType "newest" !! i = Some a ->
     filtered images searchQuery filterType "newest" !! j = Some b ->
     notOlder a b) /\
  (forall a b,
     filtered images searchQuery filterType "oldest" !! i = Some a ->
     filtered images searchQuery filterType "oldest" !! j = Some b ->
     notOlder b a).
Proof.
  intros Hdated Hij. split; intros a b Ha Hb;
    pose proof (filtered_elem_dated _ _ _ _ _ _ Hdated Ha) as Hda;
    pose proof (filtered_elem_dated _ _ _ _ _ _ Hdated Hb) as Hdb;
    rewrite filtered_dated in Ha, Hb by done;
    apply timeOf_notOlder; try done.
  - exact (StronglySorted_lookup _ _ i j a b (sorted_newest _) Hij Ha Hb).
  - exact (StronglySorted_lookup _ _ i j a b (sorted_oldest _) Hij Ha Hb).
Qed.

Lemma newest_descends_oldest_ascends_witness :
  notOlder dog cat.
Proof.
  destruct (newest_descends_oldest_ascends [cat; dog] "" "all" 0 1) as [Hnewest _].
  - repeat constructor; by eexists.
  - lia.
  - exact (Hnewest dog cat eq_refl eq_refl).
Defined.

Lemma Array_sort_constant {A : Type} (compareFn : A -> A -> Z) (l : list A) :
  (forall a b, compareFn a b = 0) -> Array_sort compareFn l = l.
Proof.
  intros Hzero. induction l as [|a l IH]; simpl; [done|].
  fold (Array_sort compareFn l). rewrite IH.
  destruct l as [|b l]; simpl; [done|]. by rewrite Hzero.
Qed.

(** X3.  A sort key that is none of the three makes the comparator return 0 every
    time: the result lists the records that pass in the order of the
    collection. *)
Theorem unknown_sort_key_keeps_order
    (images : list GalleryImage) (searchQuery filterType sortBy : string) :
  sortBy <> "newest" -> sortBy <> "oldest" -> sortBy <> "favorites" ->
  filtered images searchQuery filterType sortBy =
  List.filter (passes searchQuery filterType) images.
Proof.
  intros Hn Ho Hf. rewrite filtered_selected, selected_passes.
  apply Array_sort_constant. intros a b. unfold sortCompare, compareImages.
  apply String.eqb_neq in Hn, Ho, Hf. by rewrite Hn, Ho, Hf.
Qed.

Lemma unknown_sort_key_keeps_order_witness :
  filtered [cat; dog] "" "all" "random" = [cat; dog].
Proof. by apply (unknown_sort_key_keeps_order [cat; dog] "" "all" "random"). Defined.

Lemma compareDated_trans (sortBy : string) (a b c : GalleryImage) :
  compareDated sortBy a b <= 0 -> compareDated sortBy b c <= 0 ->
  compareDated sortBy a c <= 0.
Proof.
  unfold compareDated.
  destruct (String.eqb sortBy "newest"); [lia|].
  destruct (String.eqb sortBy "oldest"); [lia|].
  destruct (String.eqb sortBy "favorites"); [|lia].
  destruct (isFavorite a), (isFavorite b), (isFavorite c); simpl; lia.
Qed.

Lemma filter_ext_elem_of {A : Type} (f g : A -> bool) (l : list A) :
  (forall a, a ∈ l -> f a = g a) -> List.filter f l = List.filter g l.
Proof.
  induction l as [|a l IH]; intros Hfg; simpl; [done|].
  rewrite (Hfg a) by constructor. rewrite IH; [done|].
  intros b Hb. apply Hfg. by constructor.
Qed.

(** X4.  In a collection whose dates are all valid the sort is stable under
    every sort key: the records that tie under the comparator with a given
    record, its date valid too, stand in the result in the order the
    collection has them. *)
Theorem query_keeps_ties_in_order
    (images : list GalleryImage) (searchQuery filterType sortBy : string)
    (x : GalleryImage) :
  Forall dated images ->
  dated x ->
  List.filter (ties (sortCompare (compareImages sortBy)) x)
    (filtered images searchQuery filterType sortBy) =
  List.filter (ties (sortCompare (compareImages sortBy)) x)
    (List.filter (passes searchQuery filterType) images).
Proof.
  intros Hdated Hx. rewrite filtered_dated by done.
  pose proof (selected_dated images searchQuery filterType Hdated) as Hkept.
  rewrite Forall_forall in Hkept.
  assert (forall l, (forall y, y ∈ l -> dated y) ->
            List.filter (ties (sortCompare (compareImages sortBy)) x) l =
            List.filter (ties (compareDated sortBy) x) l) as Hties.
  { intros l Hl. apply filter_ext_elem_of. intros y Hy. unfold ties.
    by rewrite !sortCompare_dated by auto. }
  rewrite Hties by (intros y Hy; apply Hkept; by apply Array_sort_elem_of in Hy).
  rewrite <- selected_passes. rewrite (Hties _ Hkept).
  apply Array_sort_stable. apply compareDated_trans.
Qed.

Lemma query_keeps_ties_in_order_witness :
  filtered [cat; dog; flipFavorite cat] "" "all" "newest" = [dog; cat; flipFavorite cat] /\
  List.filter (ties (sortCompare (compareImages "newest")) cat)
    (filtered [cat; dog; flipFavorite cat] "" "all" "newest") =
  [cat; flipFavorite cat].
Proof.
  split; [reflexivity|].
  rewrite (query_keeps_ties_in_order [cat; dog; flipFavorite cat] "" "all" "newest" cat).
  - reflexivity.
  - repeat constructor; by eexists.
  - by eexists.
Defined.

Lemma filter_fmap_same {A : Type} (f : A -> A) (p : A -> bool) (l : list A) :
  (forall a, p (f a) = p a) -> List.filter p (f <$> l) = f <$> List.filter p l.
Proof.
  intros Hp. induction l as [|a l IH]; csimpl; [done|].
  rewrite Hp. destruct (p a); csimpl; by rewrite IH.
Qed.

Lemma sortInsert_fmap {A : Type} (f : A -> A) (compareFn : A -> A -> Z) (a : A) (l : list A) :
  (forall a b, compareFn (f a) (f b) = compareFn a b) ->
  sortInsert compareFn (f a) (f <$> l) = f <$> sortInsert compareFn a l.
Proof.
  intros Hc. induction l as [|b l IH]; csimpl; [done|].
  rewrite Hc. destruct (0 <? compareFn a b); csimpl; [by rewrite IH|done].
Qed.

Lemma Array_sort_fmap {A : Type} (f : A -> A) (compareFn : A -> A -> Z) (l : list A) :
  (forall a b, compareFn (f a) (f b) = compareFn a b) ->
  Array_sort compareFn (f <$> l) = f <$> Array_sort compareFn l.
Proof.
  intros Hc. induction l as [|a l IH]; csimpl; [done|].
  fold (Array_sort compareFn (f <$> l)). fold (Array_sort compareFn l).
  rewrite IH. by apply sortInsert_fmap.
Qed.

(** X5.  Under a sort key other than [favorites], toggling a favorite changes
    neither which records the query returns nor where they stand: the result
    over the toggled collection is the toggled result. *)
Theorem toggle_keeps_query_order
    (imageId : string) (images : list GalleryImage)
    (searchQuery filterType sortBy : string) :
  sortBy <> "favorites" ->
  filtered (toggledImages imageId images) searchQuery filterType sortBy =
  toggledImages imageId (filtered images searchQuery filterType sortBy).
Proof.
  intros Hkey. rewrite !filtered_selected, !selected_passes. unfold toggledImages.
  rewrite filter_fmap_same.
  - apply Array_sort_fmap. intros a b. unfold sortCompare, compareImages.
    apply String.eqb_neq in Hkey. rewrite Hkey.
    by destruct (String.eqb (id a) imageId), (String.eqb (id b) imageId).
  - intros a. by destruct (String.eqb (id a) imageId).
Qed.

Lemma toggle_keeps_query_order_witness :
  filtered (toggledImages "1" [cat; dog]) "" "all" "newest" =
  toggledImages "1" (filtered [cat; dog] "" "all" "newest").
Proof. by apply (toggle_keeps_query_order "1" [cat; dog] "" "all" "newest"). Defined.

(** ** More about the mutations *)

Lemma toggledImages_ids (imageId : string) (images : list GalleryImage) :
  id <$> toggledImages imageId images = id <$> images.
Proof.
  unfold toggledImages. rewrite <- list_fmap_compose. apply list_fmap_ext.
  intros i img _. simpl. by destruct (String.eqb (id img) imageId).
Qed.

Lemma updatedImages_unique_ids (m : Mutation) (images : list GalleryImage) :
  NoDup (id <$> images) -> NoDup (id <$> updatedImages m images).
Proof.
  destruct m as [imageId|imageId]; simpl.
  - by rewrite toggledImages_ids.
  - apply NoDup_fmap_filter.
Qed.

(** X6.  Ids that are unique in the collection stay unique through a mutation,
    whether its write is accepted or refused. *)
Theorem mutation_keeps_ids_unique (m : Mutation) (st : State) :
  NoDup (id <$> images st) -> NoDup (id <$> images (fst (mutate m st))).
Proof.
  intros Hunique.
  destruct (accepts (localStorage st) storageKey
              (JSON_stringify (updatedImages m (images st)))) eqn:Hacc.
  - rewrite (mutate_accepted m st Hacc). simpl. by apply updatedImages_unique_ids.
  - by rewrite (mutate_refused m st Hacc).
Qed.

Lemma mutation_keeps_ids_unique_witness :
  NoDup (id <$> images (fst (mutate (DeleteImage "1") catAndDog))).
Proof.
  apply (mutation_keeps_ids_unique (DeleteImage "1") catAndDog).
  apply (bool_decide_unpack _). vm_compute. reflexivity.
Defined.

(** X7.  In a collection with unique ids, toggling the id of the record at a
    place replaces that record by its flipped copy and nothing else. *)
Theorem toggle_changes_one_record
    (imageId : string) (images : list GalleryImage) (i : nat) (img : GalleryImage) :
  NoDup (id <$> images) ->
  images !! i = Some img ->
  id img = imageId ->
  toggledImages imageId images = <[i := flipFavorite img]> images.
Proof.
  intros Hunique Hi Hid. apply list_eq. intros j.
  rewrite toggledImages_lookup.
  destruct (decide (i = j)) as [<-|Hij].
  - rewrite list_lookup_insert_eq by (by eapply lookup_lt_Some).
    rewrite Hi. simpl. apply String.eqb_eq in Hid. by rewrite Hid.
  - rewrite list_lookup_insert_ne by done.
    destruct (images !! j) as [other|] eqn:Hj; simpl; [|done].
    destruct (String.eqb_spec (id other) imageId) as [Hother|]; [|done].
    destruct Hij. eapply (NoDup_lookup (id <$> images)); [done| |].
    + by rewrite list_lookup_fmap, Hi.
    + rewrite list_lookup_fmap, Hj. simpl. congruence.
Qed.

Lemma toggle_changes_one_record_witness :
  toggledImages "2" [cat; dog] = [cat; flipFavorite dog].
Proof.
  apply (toggle_changes_one_record "2" [cat; dog] 1 dog); [|reflexivity..].
  apply (bool_decide_unpack _). vm_compute. reflexivity.
Defined.

Lemma toggledImages_remainingImages (a b : string) (images : list GalleryImage) :
  toggledImages a (remainingImages b images) = remainingImages b (toggledImages a images).
Proof.
  unfold toggledImages, remainingImages. symmetry. apply filter_fmap_same.
  intros img. by destruct (String.eqb (id img) a).
Qed.

Lemma toggledImages_comm (a b : string) (images : list GalleryImage) :
  toggledImages a (toggledImages b images) = toggledImages b (toggledImages a images).
Proof.
  unfold toggledImages. rewrite <- !list_fmap_compose. apply list_fmap_ext.
  intros i img _. simpl.
  destruct (String.eqb (id img) a) eqn:Ha, (String.eqb (id img) b) eqn:Hb; simpl;
    by rewrite ?Ha, ?Hb.
Qed.

Lemma remainingImages_comm (a b : string) (images : list GalleryImage) :
  remainingImages a (remainingImages b images) = remainingImages b (remainingImages a images).
Proof.
  unfold remainingImages. rewrite !filter_filter_andb. apply filter_ext.
  intros img. apply andb_comm.
Qed.

(** X8.  Any two mutations commute on the collection: toggles and deletes, of one
    id or of two, give the same collection in either order. *)
Theorem mutations_commute (m1 m2 : Mutation) (images : list GalleryImage) :
  updatedImages m1 (updatedImages m2 images) = updatedImages m2 (updatedImages m1 images).
Proof.
  destruct m1 as [a|a], m2 as [b|b]; simpl.
  - apply toggledImages_comm.
  - apply toggledImages_remainingImages.
  - symmetry. apply toggledImages_remainingImages.
  - apply remainingImages_comm.
Qed.

Lemma filter_length_split {A : Type} (f : A -> bool) (l : list A) :
  (length (List.filter f l) + length (List.filter (fun x => negb (f x)) l))%nat = length l.
Proof.
  induction l as [|a l IH]; simpl; [done|]. destruct (f a); simpl; lia.
Qed.

(** X9.  When [deleteImage] returns normally no record of the collection has the
    id any more, the collection is shorter by the number of records that had
    it, and a [toggleFavorite] of that id would find nothing to flip. *)
Theorem deleteImage_removes_every_match (imageId : string) (st : State) :
  snd (deleteImage imageId st) = Ok tt ->
  Forall (fun img => id img <> imageId) (images (fst (deleteImage imageId st))) /\
  (length (images (fst (deleteImage imageId st))) + countId imageId (images st))%nat =
    length (images st) /\
  toggledImages imageId (images (fst (deleteImage imageId st))) =
    images (fst (deleteImage imageId st)).
Proof.
  intros Hok.
  destruct (accepts (localStorage st) storageKey
              (JSON_stringify (remainingImages imageId (images st)))) eqn:Hacc.
  - pose proof (mutate_accepted (DeleteImage imageId) st Hacc) as Hrun.
    simpl in Hrun. rewrite Hrun. simpl.
    assert (Forall (fun img => id img <> imageId) (remainingImages imageId (images st)))
      as Hgone.
    { apply Forall_forall. by intros img [_ ?]%remainingImages_elem_of. }
    split; [done|]. split.
    + unfold remainingImages, countId.
      rewrite Nat.add_comm. apply filter_length_split.
    + apply toggledImages_absent. by rewrite Forall_forall in Hgone.
  - pose proof (mutate_refused (DeleteImage imageId) st Hacc) as Hrun.
    simpl in Hrun. by rewrite Hrun in Hok.
Qed.

Lemma deleteImage_removes_every_match_witness :
  Forall (fun img => id img <> "1") (images (fst (deleteImage "1" catAndDog))).
Proof.
  by destruct (deleteImage_removes_every_match "1" catAndDog) as [Hgone _].
Defined.

(** ** The badge of a type *)

Lemma getTypeLabel_cases (s : string) :
  (recognizedType s = true /\
   (s, getTypeLabel s) ∈ [("generated", "Generated"); ("unblurred", "Unblurred");
                          ("upscaled", "Upscaled");
                          ("background-removed", "Background Removed");
                          ("batch", "Batch")]) \/
  (recognizedType s = false /\ getTypeLabel s = "Unknown").
Proof.
  unfold getTypeLabel, recognizedType; simpl.
  destruct (String.eqb_spec s "generated") as [Hs|_]; [left; rewrite Hs; set_solver|].
  destruct (String.eqb_spec s "unblurred") as [Hs|_]; [left; rewrite Hs; set_solver|].
  destruct (String.eqb_spec s "upscaled") as [Hs|_]; [left; rewrite Hs; set_solver|].
  destruct (String.eqb_spec s "background-removed") as [Hs|_];
    [left; rewrite Hs; set_solver|].
  destruct (String.eqb_spec s "batch") as [Hs|_]; [left; rewrite Hs; set_solver|].
  by right.
Qed.

(** X10.  [getTypeLabel] answers [Unknown] for the strings that are none of the
    five types and for no other, and what it answers for one of the five
    tells which it is. *)
Theorem getTypeLabel_tells_the_type (s s' : string) :
  (getTypeLabel s = "Unknown" <-> recognizedType s = false) /\
  (recognizedType s = true -> getTypeLabel s = getTypeLabel s' -> s = s').
Proof.
  destruct (getTypeLabel_cases s) as [[Hs Hin]|[Hs Hlabel]]; rewrite Hs; split.
  - split; [|done]. intros Hunknown. rewrite Hunknown in Hin.
    repeat (apply elem_of_cons in Hin as [[=]|Hin]). by apply not_elem_of_nil in Hin.
  - intros _ Hsame.
    destruct (getTypeLabel_cases s') as [[_ Hin']|[_ Hlabel']].
    + rewrite <- Hsame in Hin'. set (label := getTypeLabel s) in *. clearbody label.
      repeat (apply elem_of_cons in Hin as [[= -> ->]|Hin]);
        try (by apply not_elem_of_nil in Hin);
        repeat (apply elem_of_cons in Hin' as [[= ->]|Hin']);
        try done; by apply not_elem_of_nil in Hin'.
    + rewrite Hlabel' in Hsame. rewrite Hsame in Hin.
      repeat (apply elem_of_cons in Hin as [[=]|Hin]). by apply not_elem_of_nil in Hin.
  - done.
  - done.
Qed.

(** ** More about loading *)

Section LoadingFacts.

Variable Date_parse : string -> option Z.

(** What [loadImages] does when nothing, or the empty text, is stored. *)
Lemma loadImages_nothing_stored (st : State) :
  match items (localStorage st) !! storageKey with
  | Some text => Text_truthy text = false
  | None => True
  end ->
  loadImages Date_parse st =
    Typed (mkState (images st) (filteredImages st) (searchQuery st) (filterType st)
             (sortBy st) false (localStorage st)
             (effects st ++ [GetItem storageKey])%list).
Proof.
  intros Hstored.
  unfold loadImages, readImages, tryFinally, tryCatch, getItem, liftR, setIsLoading,
    perform, gets, mbind, M_bind, mret, M_ret; simpl.
  destruct (items (localStorage st) !! storageKey) as [text|]; [|done].
  by rewrite Hstored.
Qed.

Lemma parseImages_not_array (text : Text) :
  (forall xs, text <> JsonText (JArr xs)) ->
  exists e, parseImages Date_parse text = Throw e.
Proof.
  intros Hnot. destruct text as [[| | | |xs|]|raw]; unfold parseImages; simpl; eauto.
  by destruct (Hnot xs).
Qed.

Lemma revive_toJSON (img : GalleryImage) (t : Z) :
  createdAt img = Some t ->
  Date_parse (Date.toISOString t) = Some t ->
  Z.abs t <= Date.maxTime ->
  revive Date_parse (toJSON img) = Ok (rawOf img).
Proof.
  destruct img as [? ? ? ? o1 o2 o3 o4 o5 o6 time ?].
  cbn [createdAt]. intros -> Hparse Hvalid.
  assert (Date.timeClip t = Some t) as Hclip.
  { unfold Date.timeClip. by rewrite (proj2 (Z.leb_le _ _) Hvalid). }
  unfold toJSON, rawOf, Date_toJSON.
  cbn [id url prompt type size quality style scale mode filename createdAt isFavorite].
  revert Hparse. generalize (Date.toISOString t). intros iso Hparse.
  destruct o1, o2, o3, o4, o5, o6;
    unfold revive, getProp, getField; simpl; unfold getField; simpl;
    by rewrite Hparse; simpl; rewrite Hclip.
Qed.

Lemma parseImages_stringify (l : list GalleryImage) :
  Forall (fun img =>
            exists t, createdAt img = Some t /\
                      Date_parse (Date.toISOString t) = Some t /\
                      Z.abs t <= Date.maxTime) l ->
  parseImages Date_parse (JSON_stringify l) = Ok (rawOf <$> l).
Proof.
  unfold parseImages, JSON_stringify. cbn [JSON_parse].
  induction 1 as [|img l (t & Ht & Hparse & Hvalid) _ IH]; [done|].
  rewrite !fmap_cons. cbn [mapR].
  by rewrite (revive_toJSON img t Ht Hparse Hvalid), IH.
Qed.

Lemma asGalleryImages_of_rawOf (l : list GalleryImage) :
  asGalleryImages (rawOf <$> l) = Some l.
Proof.
  induction l as [|img l IH]; csimpl; [done|].
  by rewrite asGalleryImage_of_rawOf, IH.
Qed.

(** X11.  Round trip.  A collection whose dates are valid and are read back from
    their ISO text by the engine's [Date.parse], once saved with the write
    accepted, is what [loadImages] loads again, in a gallery started afresh
    over the same [localStorage] as much as in the one that saved it. *)
Theorem save_then_load (l : list GalleryImage) (st st' : State) :
  Forall (fun img =>
            exists t, createdAt img = Some t /\
                      Date_parse (Date.toISOString t) = Some t /\
                      Z.abs t <= Date.maxTime) l ->
  accepts (localStorage st) storageKey (JSON_stringify l) = true ->
  localStorage st' = localStorage (fst (saveImages l st)) ->
  snd (saveImages l st) = Ok tt /\
  exists st'',
    loadImages Date_parse st' = Typed st'' /\
    images st'' = l /\
    isLoading st'' = false.
Proof.
  intros Hdates Hacc Hstore. rewrite (saveImages_accepted l st Hacc) in *. simpl in Hstore.
  split; [done|].
  rewrite (loadImages_stored Date_parse st' (JSON_stringify l)); [|by rewrite Hstore; apply lookup_insert_eq|done].
  rewrite (parseImages_stringify l Hdates), asGalleryImages_of_rawOf.
  by eexists.
Qed.

(** X12.  Whatever is stored, [loadImages] ends with [isLoading] false, and it
    writes nothing: [localStorage] is as it was and no [setItem] was called. *)
Theorem loadImages_ends_loading_and_writes_nothing (st : State) :
  match loadImages Date_parse st with
  | Typed st' | Untyped _ st' =>
      isLoading st' = false /\
      localStorage st' = localStorage st /\
      writes (effects st') = writes (effects st)
  end.
Proof.
  destruct (items (localStorage st) !! storageKey) as [text|] eqn:Hstored.
  - destruct (Text_truthy text) eqn:Htruthy.
    + rewrite (loadImages_stored Date_parse st text Hstored Htruthy).
      destruct (parseImages Date_parse text) as [parsedImages|e].
      * destruct (asGalleryImages parsedImages); simpl;
          by rewrite writes_app, app_nil_r.
      * simpl. by rewrite !writes_app, !app_nil_r.
    + rewrite loadImages_nothing_stored by (by rewrite Hstored).
      simpl. by rewrite writes_app, app_nil_r.
  - rewrite loadImages_nothing_stored by (by rewrite Hstored).
    simpl. by rewrite writes_app, app_nil_r.
Qed.

(** X13.  Unless a JSON array is stored under the gallery's key (nothing is, or the
    empty text, or a text that is not JSON, or JSON that is no array),
    [loadImages] leaves the collection as it was. *)
Theorem loadImages_without_array_keeps_collection (st : State) :
  (forall xs, items (localStorage st) !! storageKey <> Some (JsonText (JArr xs))) ->
  exists st',
    loadImages Date_parse st = Typed st' /\
    images st' = images st /\
    filteredImages st' = filteredImages st.
Proof.
  intros Hnot.
  destruct (items (localStorage st) !! storageKey) as [text|] eqn:Hstored.
  - destruct (Text_truthy text) eqn:Htruthy.
    + rewrite (loadImages_stored Date_parse st text Hstored Htruthy).
      destruct (parseImages_not_array text) as [e He].
      { intros xs ->. by destruct (Hnot xs). }
      rewrite He. by eexists.
    + rewrite loadImages_nothing_stored by (by rewrite Hstored). by eexists.
  - rewrite loadImages_nothing_stored by (by rewrite Hstored). by eexists.
Qed.

End LoadingFacts.

Lemma save_then_load_witness :
  exists st'',
    loadImages Date.parseISO (storedWith [toJSON cat; toJSON dog]) = Typed st'' /\
    images st'' = [cat; dog] /\
    isLoading st'' = false.
Proof.
  destruct (save_then_load Date.parseISO [cat; dog] (initialState (openStorage ∅))
              (storedWith [toJSON cat; toJSON dog])) as [_ Hload].
  - repeat constructor; eexists; (split; [reflexivity|]);
      split; vm_compute; congruence.
  - reflexivity.
  - vm_compute. reflexivity.
  - exact Hload.
Defined.

Lemma loadImages_without_array_keeps_collection_witness :
  exists st',
    loadImages Date.parseISO
      (mkState [cat] [] "" "all" "newest" true
         (openStorage {[ storageKey := NotJson "[{" ]}) []) = Typed st' /\
    images st' = [cat] /\
    filteredImages st' = [].
Proof.
  apply (loadImages_without_array_keeps_collection Date.parseISO
           (mkState [cat] [] "" "all" "newest" true
              (openStorage {[ storageKey := NotJson "[{" ]}) [])).
  intros xs. vm_compute. discriminate.
Defined.

(** ** The variations of the batch generator *)

Lemma spread_elems (vs : list string) :
  BatchGenerator.spread (BatchGenerator.Elem <$> vs) = BatchGenerator.Elem <$> vs.
Proof.
  unfold BatchGenerator.spread. rewrite <- list_fmap_compose. by apply list_fmap_ext.
Qed.

Lemma wellFormed_elems (a : list BatchGenerator.Slot) :
  Forall (fun slot => exists v, slot = BatchGenerator.Elem v) a ->
  exists vs, a = BatchGenerator.Elem <$> vs.
Proof.
  induction 1 as [|slot a [v ->] _ [vs ->]].
  - by exists [].
  - by exists (v :: vs).
Qed.

Lemma withoutIndex_elems_from (k : nat) (index : Z) (vs : list string) :
  omap (fun p : nat * BatchGenerator.Slot =>
          match snd p with
          | BatchGenerator.Hole => None
          | slot => if Z.of_nat (fst p) =? index then None else Some slot
          end)
    (imap (fun i => pair (k + i)%nat) (BatchGenerator.Elem <$> vs)) =
  BatchGenerator.Elem <$>
    (if (Z.of_nat k <=? index) && (index <? Z.of_nat (k + length vs))
     then delete (Z.to_nat index - k)%nat vs else vs).
Proof.
  revert k. induction vs as [|v vs IH]; intros k; csimpl.
  - by destruct (_ && _).
  - rewrite (imap_ext _ (fun i => pair (S k + i)%nat))
      by (intros i x _; simpl; f_equal; lia).
    rewrite IH. destruct (Z.eqb_spec (Z.of_nat (k + 0)) index) as [Heq|Hne].
    + assert (Z.to_nat index = k) as Hk by lia. rewrite Hk, Nat.sub_diag. simpl.
      replace (Z.of_nat k <=? index) with true by (symmetry; apply Z.leb_le; lia).
      replace (index <? Z.of_nat (k + S (length vs))) with true
        by (symmetry; apply Z.ltb_lt; lia).
      replace (Z.of_nat (S k) <=? index) with false
        by (symmetry; apply Z.leb_gt; lia).
      done.
    + destruct (Z.leb_spec (Z.of_nat (S k)) index) as [Hle|Hgt].
      * replace (Z.of_nat k <=? index) with true by (symmetry; apply Z.leb_le; lia).
        replace (k + S (length vs))%nat with (S k + length vs)%nat by lia.
        destruct (index <? Z.of_nat (S k + length vs)); simpl; [|done].
        replace (Z.to_nat index - k)%nat with (S (Z.to_nat index - S k)) by lia.
        done.
      * replace (Z.of_nat k <=? index) with false by (symmetry; apply Z.leb_gt; lia).
        done.
Qed.

Lemma withoutIndex_elems (index : Z) (vs : list string) :
  BatchGenerator.withoutIndex index (BatchGenerator.Elem <$> vs) =
  BatchGenerator.Elem <$>
    (if (0 <=? index) && (index <? Z.of_nat (length vs))
     then delete (Z.to_nat index) vs else vs).
Proof.
  unfold BatchGenerator.withoutIndex.
  rewrite (imap_ext _ (fun i => pair (0 + i)%nat)) by done.
  rewrite withoutIndex_elems_from. simpl. by rewrite Nat.sub_0_r.
Qed.

(** X14.  [removeVariation] on a form of strings: with more than one variation and
    an index of the form, the variation at that index is taken out and the
    others keep their order; the last variation left, or an index the form
    does not have, and nothing changes. *)
Theorem removeVariation_takes_out_the_index
    (index : Z) (vs : list string) (st : BatchGenerator.State) :
  BatchGenerator.variations st = BatchGenerator.Elem <$> vs ->
  BatchGenerator.variations (BatchGenerator.removeVariation index st) =
  BatchGenerator.Elem <$>
    (if (1 <? length vs)%nat && (0 <=? index) && (index <? Z.of_nat (length vs))
     then delete (Z.to_nat index) vs else vs).
Proof.
  intros Hvs. unfold BatchGenerator.removeVariation. rewrite Hvs, length_fmap.
  destruct (1 <? length vs)%nat; simpl; [|done].
  apply withoutIndex_elems.
Qed.

Lemma removeVariation_takes_out_the_index_witness :
  BatchGenerator.variations
    (BatchGenerator.removeVariation 0
       (BatchGenerator.setVariations
          [BatchGenerator.Elem "red"; BatchGenerator.Elem "blue"]
          BatchGenerator.initialState)) =
  [BatchGenerator.Elem "blue"].
Proof.
  exact (removeVariation_takes_out_the_index 0 ["red"; "blue"]
           (BatchGenerator.setVariations
              [BatchGenerator.Elem "red"; BatchGenerator.Elem "blue"]
              BatchGenerator.initialState) eq_refl).
Defined.

Lemma elems_Forall (vs : list string) :
  Forall (fun slot => exists v, slot = BatchGenerator.Elem v) (BatchGenerator.Elem <$> vs).
Proof. apply Forall_fmap, Forall_true. intros v. by exists v. Qed.

Lemma elems_inj (vs vs' : list string) :
  BatchGenerator.Elem <$> vs = BatchGenerator.Elem <$> vs' -> vs = vs'.
Proof.
  revert vs'. induction vs as [|v vs IH]; intros [|v' vs']; csimpl; try done.
  intros [= -> Hrest]. f_equal. by apply IH.
Qed.

Lemma assign_elems (index : Z) (value : string) (vs : list string) :
  0 <= index < Z.of_nat (length vs) ->
  Z.of_nat (length vs) <= 4294967295 ->
  BatchGenerator.assign index value (BatchGenerator.Elem <$> vs) =
  BatchGenerator.Elem <$> <[Z.to_nat index := value]> vs.
Proof.
  intros Hindex Hlength. unfold BatchGenerator.assign. rewrite length_fmap.
  replace (index <? 0) with false by (symmetry; apply Z.ltb_ge; lia).
  replace (4294967294 <? index) with false by (symmetry; apply Z.ltb_ge; lia).
  replace (index <? Z.of_nat (length vs)) with true by (symmetry; apply Z.ltb_lt; lia).
  simpl. by rewrite list_fmap_insert.
Qed.

(** X15.  The form stays a form: when the variations are one to ten strings they
    still are after [addVariation], after [removeVariation] of any index, and
    after [updateVariation] at an index of the form, which changes the string
    at that index and no other. *)
Theorem variations_stay_well_formed (st : BatchGenerator.State) :
  wellFormed (BatchGenerator.variations st) ->
  wellFormed (BatchGenerator.variations (BatchGenerator.addVariation st)) /\
  (forall index,
     wellFormed (BatchGenerator.variations (BatchGenerator.removeVariation index st))) /\
  (forall index value vs,
     BatchGenerator.variations st = BatchGenerator.Elem <$> vs ->
     0 <= index < Z.of_nat (length vs) ->
     BatchGenerator.variations (BatchGenerator.updateVariation index value st) =
       BatchGenerator.Elem <$> <[Z.to_nat index := value]> vs /\
     wellFormed (BatchGenerator.variations (BatchGenerator.updateVariation index value st))).
Proof.
  intros [Hall Hlength]. destruct (wellFormed_elems _ Hall) as [vs Hvs].
  rewrite Hvs in Hlength. rewrite length_fmap in Hlength.
  split; [|split].
  - unfold BatchGenerator.addVariation. rewrite Hvs, length_fmap.
    destruct (Nat.ltb_spec (length vs) 10) as [Hlt|Hge]; simpl.
    + rewrite spread_elems. split.
      * apply Forall_app. split; [apply elems_Forall|]. constructor; [by eexists|done].
      * rewrite length_app, length_fmap. simpl. lia.
    + rewrite Hvs. split; [apply elems_Forall|]. rewrite length_fmap. lia.
  - intros index. unfold BatchGenerator.removeVariation. rewrite Hvs, length_fmap.
    destruct (Nat.ltb_spec 1 (length vs)) as [Hlt|Hge]; simpl.
    + rewrite withoutIndex_elems. split; [apply elems_Forall|]. rewrite length_fmap.
      destruct (Z.leb_spec 0 index); simpl; [|lia].
      destruct (Z.ltb_spec index (Z.of_nat (length vs))); [|lia].
      rewrite length_delete by (apply lookup_lt_is_Some; lia). lia.
    + rewrite Hvs. split; [apply elems_Forall|]. rewrite length_fmap. lia.
  - intros index value vs' Hvs' Hindex.
    assert (vs' = vs) as -> by (apply elems_inj; congruence).
    assert (BatchGenerator.variations (BatchGenerator.updateVariation index value st) =
            BatchGenerator.Elem <$> <[Z.to_nat index := value]> vs) as Hupdated.
    { unfold BatchGenerator.updateVariation. simpl.
      rewrite Hvs, spread_elems. apply assign_elems; lia. }
    split; [done|]. rewrite Hupdated.
    split; [apply elems_Forall|]. rewrite length_fmap, length_insert. lia.
Qed.

Lemma variations_stay_well_formed_witness :
  wellFormed (BatchGenerator.variations
                (BatchGenerator.addVariation BatchGenerator.initialState)).
Proof.
  apply (variations_stay_well_formed BatchGenerator.initialState).
  split; [repeat constructor; by eexists|simpl; lia].
Defined.

(** X16.  [updateVariation] at an index past the end of the form lengthens it up
    to that index: the value is at the index, the places skipped are empty,
    and the form has [index + 1] places, however many that is. *)
Theorem updateVariation_past_the_end_lengthens
    (index : Z) (value : string) (st : BatchGenerator.State) :
  Z.of_nat (length (BatchGenerator.variations st)) <= index <= 4294967294 ->
  length (BatchGenerator.variations (BatchGenerator.updateVariation index value st)) =
    S (Z.to_nat index) /\
  BatchGenerator.variations (BatchGenerator.updateVariation index value st)
    !! Z.to_nat index = Some (BatchGenerator.Elem value) /\
  forall i, (length (BatchGenerator.variations st) <= i < Z.to_nat index)%nat ->
    BatchGenerator.variations (BatchGenerator.updateVariation index value st) !! i =
      Some BatchGenerator.Hole.
Proof.
  intros Hindex. unfold BatchGenerator.updateVariation, BatchGenerator.assign. simpl.
  assert (length (BatchGenerator.spread (BatchGenerator.variations st)) =
          length (BatchGenerator.variations st)) as Hlength by apply length_fmap.
  rewrite Hlength.
  replace (index <? 0) with false by (symmetry; apply Z.ltb_ge; lia).
  replace (4294967294 <? index) with false by (symmetry; apply Z.ltb_ge; lia).
  replace (index <? Z.of_nat (length (BatchGenerator.variations st))) with false
    by (symmetry; apply Z.ltb_ge; lia).
  simpl. split; [|split].
  - rewrite !length_app, length_replicate, Hlength. simpl. lia.
  - rewrite lookup_app_r by (rewrite Hlength; lia).
    rewrite lookup_app_r by (rewrite length_replicate, Hlength; lia).
    rewrite length_replicate, Hlength.
    by replace (_ - _ - _)%nat with 0%nat by lia.
  - intros i Hi. rewrite lookup_app_r by (rewrite Hlength; lia).
    rewrite lookup_app_l by (rewrite length_replicate, Hlength; lia).
    apply lookup_replicate_2. rewrite Hlength. lia.
Qed.

Lemma updateVariation_past_the_end_lengthens_witness :
  length (BatchGenerator.variations
            (BatchGenerator.updateVariation 11 "late" BatchGenerator.initialState)) =
  12%nat.
Proof.
  by destruct (updateVariation_past_the_end_lengthens 11 "late" BatchGenerator.initialState)
    as [Hlength _]; [simpl; lia|].
Defined.

(** ** Generating a batch *)

Lemma validVariations_elems (vs : list string) :
  BatchGenerator.validVariations (BatchGenerator.Elem <$> vs) = Ok (nonBlank vs).
Proof.
  induction vs as [|v vs IH]; csimpl; [done|]. rewrite IH. simpl.
  by destruct (Str.truthy (Str.trim v)).
Qed.

Lemma updateJob_twice (jobId : string) (a b : list BatchImage.t) (jobs : list BatchJob.t) :
  BatchGenerator.updateJob jobId (BatchJob.withImages b)
    (BatchGenerator.updateJob jobId (BatchJob.withImages a) jobs) =
  BatchGenerator.updateJob jobId (BatchJob.withImages b) jobs.
Proof.
  unfold BatchGenerator.updateJob. rewrite <- list_fmap_compose. apply list_fmap_ext.
  intros i job _. simpl.
  destruct (String.eqb (BatchJob.id job) jobId) eqn:Hid; simpl; by rewrite Hid.
Qed.

Lemma updateJob_other (jobId : string) (f : BatchJob.t -> BatchJob.t) (jobs : list BatchJob.t) :
  Forall (fun job => BatchJob.id job <> jobId) jobs ->
  BatchGenerator.updateJob jobId f jobs = jobs.
Proof.
  induction 1 as [|job jobs Hjob _ IH]; csimpl; [done|].
  apply String.eqb_neq in Hjob. by rewrite Hjob, IH.
Qed.

Lemma requests_app (l k : list BatchGenerator.Effect) :
  BatchGenerator.requests (l ++ k)%list =
  (BatchGenerator.requests l ++ BatchGenerator.requests k)%list.
Proof. apply omap_app. Qed.

Section BatchFacts.

Variable now : nat -> Z.
Variable generateImage : nat -> BatchGenerator.ImageRequest -> BatchGenerator.Response.

Lemma requestFor_cells (st st' : BatchGenerator.State) (variation : string) :
  BatchGenerator.basePrompt st' = BatchGenerator.basePrompt st ->
  BatchGenerator.size st' = BatchGenerator.size st ->
  BatchGenerator.quality st' = BatchGenerator.quality st ->
  BatchGenerator.style st' = BatchGenerator.style st ->
  requestFor st' variation = requestFor st variation.
Proof. unfold requestFor. by intros -> -> -> ->. Qed.

Lemma expectedImages_cells (st st' : BatchGenerator.State) (jobId : string)
    (rest : list string) (i k r : nat) :
  BatchGenerator.basePrompt st' = BatchGenerator.basePrompt st ->
  BatchGenerator.size st' = BatchGenerator.size st ->
  BatchGenerator.quality st' = BatchGenerator.quality st ->
  BatchGenerator.style st' = BatchGenerator.style st ->
  expectedImages now generateImage st' jobId i k r rest =
  expectedImages now generateImage st jobId i k r rest.
Proof.
  intros Hbase Hsize Hquality Hstyle. revert i k r.
  induction rest as [|variation rest IH]; intros i k r; simpl; [done|].
  rewrite (requestFor_cells st st' variation Hbase Hsize Hquality Hstyle), Hbase.
  destruct (firstUrl _); by rewrite IH.
Qed.

Lemma generateVariation_caught (jobId : string) (totalImages i : nat) (variation : string)
    (st : BatchGenerator.State) (generated : list BatchImage.t) :
  firstUrl (generateImage (length (BatchGenerator.requests (BatchGenerator.effects st)))
              (requestFor st variation)) = None ->
  exists error,
    BatchGenerator.generateVariation now generateImage jobId totalImages i variation
      (st, generated) =
    (BatchGenerator.perform
       (BatchGenerator.ConsoleError
          ("Error generating variation " ++ pretty (i + 1)%nat ++ ":") error)
       (BatchGenerator.perform (BatchGenerator.GenerateImage (requestFor st variation)) st),
     generated).
Proof.
  unfold BatchGenerator.generateVariation. fold (requestFor st variation).
  destruct (generateImage _ _) as [reason|[|first data]]; [by eexists..|done].
Qed.

Lemma generateVariation_made (jobId : string) (totalImages i : nat) (variation first : string)
    (st : BatchGenerator.State) (generated : list BatchImage.t) :
  firstUrl (generateImage (length (BatchGenerator.requests (BatchGenerator.effects st)))
              (requestFor st variation)) = Some first ->
  BatchGenerator.generateVariation now generateImage jobId totalImages i variation
    (st, generated) =
  (let newImage :=
     BatchImage.mk (jobId ++ "-" ++ pretty i) first
       (BatchGenerator.fullPrompt (BatchGenerator.basePrompt st) variation) (i + 1)
       (now (BatchGenerator.clockReads st)) in
   (BatchGenerator.setBatchJobs
      (BatchGenerator.updateJob jobId
         (BatchJob.withImages (generated ++ [newImage])%list))
      (BatchGenerator.setProgress (BatchGenerator.Share (i + 1) totalImages)
         (BatchGenerator.tick
            (BatchGenerator.perform
               (BatchGenerator.GenerateImage (requestFor st variation)) st))),
    (generated ++ [newImage])%list)).
Proof.
  unfold BatchGenerator.generateVariation. fold (requestFor st variation).
  destruct (generateImage _ _) as [reason|[|first' data]]; [done..|].
  by intros [= ->].
Qed.

(** What the loop leaves, from any turn on. *)
Lemma generateVariations_run (jobId : string) (totalImages : nat) (rest : list string) :
  forall (i : nat) (st : BatchGenerator.State) (generated : list BatchImage.t),
  exists st',
    BatchGenerator.generateVariations now generateImage jobId totalImages i rest
      (st, generated) =
      (st', (generated ++
             expectedImages now generateImage st jobId i
               (length (BatchGenerator.requests (BatchGenerator.effects st)))
               (BatchGenerator.clockReads st) rest)%list) /\
    BatchGenerator.requests (BatchGenerator.effects st') =
      (BatchGenerator.requests (BatchGenerator.effects st) ++ (requestFor st <$> rest))%list /\
    BatchGenerator.basePrompt st' = BatchGenerator.basePrompt st /\
    BatchGenerator.variations st' = BatchGenerator.variations st /\
    BatchGenerator.size st' = BatchGenerator.size st /\
    BatchGenerator.quality st' = BatchGenerator.quality st /\
    BatchGenerator.style st' = BatchGenerator.style st /\
    BatchGenerator.isGenerating st' = BatchGenerator.isGenerating st /\
    BatchGenerator.batchJobs st' =
      match expectedImages now generateImage st jobId i
              (length (BatchGenerator.requests (BatchGenerator.effects st)))
              (BatchGenerator.clockReads st) rest with
      | [] => BatchGenerator.batchJobs st
      | new =>
          BatchGenerator.updateJob jobId (BatchJob.withImages (generated ++ new)%list)
            (BatchGenerator.batchJobs st)
      end.
Proof.
  induction rest as [|variation rest IH]; intros i st generated.
  - exists st. simpl. by rewrite !app_nil_r.
  - cbn [BatchGenerator.generateVariations expectedImages].
    destruct (firstUrl _) as [first|] eqn:Hanswer.
    + rewrite (generateVariation_made jobId totalImages i variation first st generated Hanswer).
      cbv zeta.
      set (newImage := BatchImage.mk _ first _ _ _).
      destruct (IH (S i)
                  (BatchGenerator.setBatchJobs
                     (BatchGenerator.updateJob jobId
                        (BatchJob.withImages (generated ++ [newImage])%list))
                     (BatchGenerator.setProgress (BatchGenerator.Share (i + 1) totalImages)
                        (BatchGenerator.tick
                           (BatchGenerator.perform
                              (BatchGenerator.GenerateImage (requestFor st variation)) st))))
                  (generated ++ [newImage])%list)
        as (st' & Hrun & Hreq & ? & ? & ? & ? & ? & ? & Hjobs).
      simpl in Hrun, Hreq, Hjobs.
      rewrite requests_app, length_app in Hrun, Hjobs. simpl in Hrun, Hjobs.
      rewrite (Nat.add_1_r (length _)) in Hrun, Hjobs.
      rewrite (expectedImages_cells st) in Hrun, Hjobs by done.
      rewrite (list_fmap_ext _ (requestFor st)) in Hreq
        by (intros; by apply requestFor_cells).
      exists st'. split; [by rewrite Hrun, <- app_assoc|].
      split; [by rewrite Hreq, requests_app, <- app_assoc|].
      repeat (split; [done|]). rewrite Hjobs.
      destruct (expectedImages _ _ _ jobId (S i) _ _ rest) as [|image new]; [done|].
      by rewrite updateJob_twice, <- app_assoc.
    + destruct (generateVariation_caught jobId totalImages i variation st generated Hanswer)
        as [error ->].
      destruct (IH (S i)
                  (BatchGenerator.perform
                     (BatchGenerator.ConsoleError
                        ("Error generating variation " ++ pretty (i + 1)%nat ++ ":") error)
                     (BatchGenerator.perform
                        (BatchGenerator.GenerateImage (requestFor st variation)) st))
                  generated)
        as (st' & Hrun & Hreq & ? & ? & ? & ? & ? & ? & Hjobs).
      simpl in Hrun, Hreq, Hjobs.
      rewrite !requests_app, !length_app in Hrun, Hjobs. simpl in Hrun, Hjobs.
      rewrite Nat.add_0_r, (Nat.add_1_r (length _)) in Hrun, Hjobs.
      rewrite (expectedImages_cells st) in Hrun, Hjobs by done.
      rewrite (list_fmap_ext _ (requestFor st)) in Hreq
        by (intros; by apply requestFor_cells).
      exists st'. split; [exact Hrun|].
      split; [|by repeat split].
      rewrite Hreq, !requests_app. simpl. by rewrite app_nil_r, <- app_assoc.
Qed.

Lemma expectedImages_within (st : BatchGenerator.State) (jobId : string)
    (rest : list string) (i k r : nat) :
  Forall (fun image => (i < BatchImage.variation image <= i + length rest)%nat)
    (expectedImages now generateImage st jobId i k r rest).
Proof.
  revert i k r. induction rest as [|variation rest IH]; intros i k r; simpl; [done|].
  destruct (firstUrl _).
  - constructor; [simpl; lia|].
    eapply Forall_impl; [apply IH|]. simpl. intros image. lia.
  - eapply Forall_impl; [apply IH|]. simpl. intros image. lia.
Qed.

Lemma expectedImages_length (st : BatchGenerator.State) (jobId : string)
    (rest : list string) (i k r : nat) :
  (length (expectedImages now generateImage st jobId i k r rest) <= length rest)%nat.
Proof.
  revert i k r. induction rest as [|variation rest IH]; intros i k r; simpl; [done|].
  destruct (firstUrl _); simpl; [apply le_n_S|apply Nat.le_le_succ_r]; apply IH.
Qed.

Lemma expectedImages_ascending (st : BatchGenerator.State) (jobId : string)
    (rest : list string) (i k r : nat) :
  StronglySorted lt
    (BatchImage.variation <$> expectedImages now generateImage st jobId i k r rest).
Proof.
  revert i k r. induction rest as [|variation rest IH]; intros i k r; simpl;
    [constructor|].
  destruct (firstUrl _); [|apply IH]. csimpl. constructor; [apply IH|].
  apply Forall_fmap. eapply Forall_impl; [apply (expectedImages_within st jobId rest (S i))|].
  simpl. intros image. lia.
Qed.

Lemma expectedImages_made (st : BatchGenerator.State) (jobId : string)
    (rest : list string) (i k r : nat) (image : BatchImage.t) :
  image ∈ expectedImages now generateImage st jobId i k r rest ->
  exists j variation,
    rest !! j = Some variation /\
    firstUrl (generateImage (k + j) (requestFor st variation)) = Some (BatchImage.url image) /\
    BatchImage.id image = jobId ++ "-" ++ pretty (i + j)%nat /\
    BatchImage.prompt image =
      BatchGenerator.fullPrompt (BatchGenerator.basePrompt st) variation /\
    BatchImage.variation image = (i + j + 1)%nat.
Proof.
  revert i k r. induction rest as [|variation rest IH]; intros i k r; simpl.
  - by intros ?%not_elem_of_nil.
  - destruct (firstUrl _) as [first|] eqn:Hanswer.
    + rewrite elem_of_cons. intros [->|Hin].
      * exists 0%nat, variation. rewrite !Nat.add_0_r. by repeat split.
      * destruct (IH _ _ _ Hin) as (j & v & Hj & Hurl & Hid & Hprompt & Hvariation).
        exists (S j), v. replace (k + S j)%nat with (S k + j)%nat by lia.
        replace (i + S j)%nat with (S i + j)%nat by lia. by repeat split.
    + intros Hin.
      destruct (IH _ _ _ Hin) as (j & v & Hj & Hurl & Hid & Hprompt & Hvariation).
      exists (S j), v. replace (k + S j)%nat with (S k + j)%nat by lia.
      replace (i + S j)%nat with (S i + j)%nat by lia. by repeat split.
Qed.

Lemma expectedImages_kept (st : BatchGenerator.State) (jobId : string)
    (rest : list string) (i k r j : nat) (variation first : string) :
  rest !! j = Some variation ->
  firstUrl (generateImage (k + j) (requestFor st variation)) = Some first ->
  exists image,
    image ∈ expectedImages now generateImage st jobId i k r rest /\
    BatchImage.variation image = (i + j + 1)%nat /\
    BatchImage.url image = first.
Proof.
  revert i k r j. induction rest as [|v rest IH]; intros i k r j; [done|].
  destruct j as [|j]; simpl.
  - intros [= ->]. rewrite Nat.add_0_r. intros ->.
    eexists. split; [by constructor|]. simpl. split; [lia|done].
  - intros Hj Hanswer. replace (k + S j)%nat with (S k + j)%nat in Hanswer by lia.
    destruct (firstUrl (generateImage k (requestFor st v))).
    + destruct (IH (S i) (S k) (S r) j Hj Hanswer) as (image & Hin & Hvariation & Hurl).
      exists image. split; [by constructor|]. split; [lia|done].
    + destruct (IH (S i) (S k) r j Hj Hanswer) as (image & Hin & Hvariation & Hurl).
      exists image. split; [done|]. split; [lia|done].
Qed.

Lemma expectedImages_none (st : BatchGenerator.State) (jobId : string)
    (rest : list string) (i k r : nat) :
  (forall j variation, rest !! j = Some variation ->
     firstUrl (generateImage (k + j) (requestFor st variation)) = None) ->
  expectedImages now generateImage st jobId i k r rest = [].
Proof.
  revert i k r. induction rest as [|variation rest IH]; intros i k r Hnone; simpl; [done|].
  rewrite <- (Nat.add_0_r k) at 1. rewrite (Hnone 0%nat variation eq_refl).
  apply IH. intros j v Hj. replace (S k + j)%nat with (k + S j)%nat by lia.
  by apply Hnone.
Qed.

(** The whole of [generateBatch], for a form of strings with a base prompt
    and a variation to generate, when no earlier job has the id of the new
    one. *)
Lemma generateBatch_run (st : BatchGenerator.State) (vs : list string) :
  BatchGenerator.variations st = BatchGenerator.Elem <$> vs ->
  Str.truthy (Str.trim (BatchGenerator.basePrompt st)) = true ->
  nonBlank vs <> [] ->
  exists st',
    BatchGenerator.generateBatch now generateImage st = Ok st' /\
    (Forall (fun job => BatchJob.id job <>
                        "batch-" ++ pretty (now (BatchGenerator.clockReads st)))
       (BatchGenerator.batchJobs st) ->
     BatchGenerator.batchJobs st' =
      BatchJob.mk ("batch-" ++ pretty (now (BatchGenerator.clockReads st)))
        (BatchGenerator.basePrompt st) (nonBlank vs)
        (expectedImages now generateImage st
           ("batch-" ++ pretty (now (BatchGenerator.clockReads st))) 0
           (length (BatchGenerator.requests (BatchGenerator.effects st)))
           (S (S (BatchGenerator.clockReads st))) (nonBlank vs))
        (BatchGenerator.size st) (BatchGenerator.quality st) (BatchGenerator.style st)
        (now (S (BatchGenerator.clockReads st))) BatchJob.completed
      :: BatchGenerator.batchJobs st) /\
    BatchGenerator.requests (BatchGenerator.effects st') =
      (BatchGenerator.requests (BatchGenerator.effects st)
       ++ (requestFor st <$> nonBlank vs))%list /\
    BatchGenerator.isGenerating st' = false /\
    BatchGenerator.progress st' = BatchGenerator.Percent 0 /\
    BatchGenerator.variations st' = BatchGenerator.variations st /\
    BatchGenerator.basePrompt st' = BatchGenerator.basePrompt st /\
    last (BatchGenerator.effects st') =
      Some (BatchGenerator.Toast "Batch generation completed!"
              ("Generated "
               ++ pretty (length (expectedImages now generateImage st
                                    ("batch-" ++ pretty (now (BatchGenerator.clockReads st)))
                                    0
                                    (length (BatchGenerator.requests
                                               (BatchGenerator.effects st)))
                                    (S (S (BatchGenerator.clockReads st))) (nonBlank vs)))
               ++ " images from " ++ pretty (length (nonBlank vs)) ++ " variations.")
              false).
Proof.
  intros Hvs Hbase Hvalid.
  unfold BatchGenerator.generateBatch.
  rewrite Hvs, validVariations_elems, Hbase. cbn [negb].
  destruct (Nat.eqb_spec (length (nonBlank vs)) 0) as [Hzero|_].
  { by destruct (nonBlank vs). }
  cbv zeta.
  set (jobId := "batch-" ++ pretty (now (BatchGenerator.clockReads st))) in *.
  cbn [BatchGenerator.clockReads BatchGenerator.setProgress BatchGenerator.setIsGenerating
       BatchGenerator.tick BatchGenerator.basePrompt BatchGenerator.size
       BatchGenerator.quality BatchGenerator.style].
  fold jobId.
  match goal with
  | |- context [BatchGenerator.generateVariations now generateImage jobId _ 0 _ (?s0, [])] =>
      set (start := s0)
  end.
  destruct (generateVariations_run jobId (length (nonBlank vs)) (nonBlank vs) 0%nat start [])
    as (st1 & Hrun & Hreq & Hb & Hv & Hs & Hq & Hy & Hg & Hjobs).
  assert (expectedImages now generateImage start jobId 0
            (length (BatchGenerator.requests (BatchGenerator.effects start)))
            (BatchGenerator.clockReads start) (nonBlank vs) =
          expectedImages now generateImage st jobId 0
            (length (BatchGenerator.requests (BatchGenerator.effects st)))
            (S (S (BatchGenerator.clockReads st))) (nonBlank vs)) as Hexpected
    by (by apply expectedImages_cells).
  rewrite Hexpected in Hrun, Hjobs. rewrite Hrun. cbn [app].
  set (made := expectedImages now generateImage st jobId 0 _ _ (nonBlank vs)) in *.
  rewrite (list_fmap_ext _ (requestFor st)) in Hreq by (intros; by apply requestFor_cells).
  unfold start in Hreq, Hb, Hv, Hs, Hq, Hy, Hg, Hjobs.
  simpl in Hreq, Hb, Hv, Hs, Hq, Hy, Hg, Hjobs.
  eexists. split; [reflexivity|]. simpl.
  split; [|split; [|split; [done|split; [done|split; [|split]]]]].
  - intros Hfresh. rewrite Hjobs.
    assert (forall f, BatchGenerator.updateJob jobId f (BatchGenerator.batchJobs st) =
                      BatchGenerator.batchJobs st) as Hsame
      by (intros f; by apply updateJob_other).
    destruct made as [|image rest]; csimpl.
    + rewrite String.eqb_refl. simpl. by rewrite Hsame.
    + rewrite String.eqb_refl. simpl. rewrite String.eqb_refl. simpl.
      by rewrite !Hsame.
  - rewrite requests_app, Hreq. simpl. by rewrite app_nil_r.
  - congruence.
  - done.
  - by rewrite last_snoc.
Qed.

End BatchFacts.

Example generateBatch_redAndBlue :
  exists st',
    BatchGenerator.generateBatch exampleClock firstOnly redAndBlue = Ok st' /\
    BatchGenerator.batchJobs st' =
      [BatchJob.mk "batch-1700000000000" "a cat" ["red"; "blue"]
         [BatchImage.mk "batch-1700000000000-0" "https://img.example/red.png"
            "a cat, red" 1 1700000000002]
         "1024x1024" "high" "natural" 1700000000001 BatchJob.completed].
Proof. eexists. split; vm_compute; reflexivity. Qed.

Section BatchTheorems.

Variable now : nat -> Z.
Variable generateImage : nat -> BatchGenerator.ImageRequest -> BatchGenerator.Response.

Lemma generateBatch_blank
    (st : BatchGenerator.State) (vs : list string) :
  BatchGenerator.variations st = BatchGenerator.Elem <$> vs ->
  Str.truthy (Str.trim (BatchGenerator.basePrompt st)) = false \/ nonBlank vs = [] ->
  exists title description,
    BatchGenerator.generateBatch now generateImage st =
    Ok (BatchGenerator.perform (BatchGenerator.Toast title description true) st).
Proof.
  intros Hvs Hblank. unfold BatchGenerator.generateBatch.
  rewrite Hvs, validVariations_elems.
  destruct (Str.truthy (Str.trim (BatchGenerator.basePrompt st))); simpl.
  - destruct Hblank as [|Hnone]; [done|]. rewrite Hnone. simpl. by eexists _, _.
  - by eexists _, _.
Qed.

(** X17.  Without a base prompt, or without a variation that is not blank,
    [generateBatch] does one thing: it shows a destructive toast.  No request
    is sent, no job is added and the cells are as they were. *)
Theorem generateBatch_refuses_blank_input (st : BatchGenerator.State) (vs : list string) :
  BatchGenerator.variations st = BatchGenerator.Elem <$> vs ->
  Str.truthy (Str.trim (BatchGenerator.basePrompt st)) = false \/ nonBlank vs = [] ->
  exists st',
    BatchGenerator.generateBatch now generateImage st = Ok st' /\
    BatchGenerator.batchJobs st' = BatchGenerator.batchJobs st /\
    BatchGenerator.requests (BatchGenerator.effects st') =
      BatchGenerator.requests (BatchGenerator.effects st) /\
    BatchGenerator.isGenerating st' = BatchGenerator.isGenerating st /\
    BatchGenerator.progress st' = BatchGenerator.progress st /\
    exists title description,
      BatchGenerator.effects st' =
        (BatchGenerator.effects st ++ [BatchGenerator.Toast title description true])%list.
Proof.
  intros Hvs Hblank.
  destruct (generateBatch_blank st vs Hvs Hblank)
    as (title & description & Hrun).
  eexists. split; [exact Hrun|]. simpl. split; [done|]. split.
  - rewrite requests_app. simpl. by rewrite app_nil_r.
  - repeat (split; [done|]). by exists title, description.
Qed.

(** X18.  [generateBatch] sends the service one request for each variation that
    is not blank, in the order of the form, each for one image of the size,
    quality and style of the form and with the full prompt of its variation;
    it does so whether the requests succeed or fail. *)
Theorem generateBatch_asks_once_per_variation
    (st : BatchGenerator.State) (vs : list string) :
  BatchGenerator.variations st = BatchGenerator.Elem <$> vs ->
  Str.truthy (Str.trim (BatchGenerator.basePrompt st)) = true ->
  exists st',
    BatchGenerator.generateBatch now generateImage st = Ok st' /\
    BatchGenerator.requests (BatchGenerator.effects st') =
      (BatchGenerator.requests (BatchGenerator.effects st) ++
       ((fun variation =>
           BatchGenerator.mkRequest
             (BatchGenerator.fullPrompt (BatchGenerator.basePrompt st) variation)
             (BatchGenerator.size st) (BatchGenerator.quality st)
             (BatchGenerator.style st) 1) <$> nonBlank vs))%list.
Proof.
  intros Hvs Hbase. destruct (nonBlank vs) as [|v valid] eqn:Hvalid.
  - destruct (generateBatch_blank st vs Hvs) as (title & description & ->);
      [by right|].
    eexists. split; [done|]. simpl. rewrite requests_app. simpl. by rewrite !app_nil_r.
  - destruct (generateBatch_run now generateImage st vs Hvs Hbase) as (st' & Hrun & _ & Hreq & _);
      [by rewrite Hvalid|].
    exists st'. split; [done|]. by rewrite Hreq, Hvalid.
Qed.

(** X19.  A batch that runs ends with its job marked completed, never failed: the
    job is put before the earlier jobs, which stay as they were when none of
    them has its id; it lists the variations that are not blank and at most
    as many images, in the order of their variations; and when the handler
    returns [isGenerating] is false and [progress] is 0. *)
Theorem generateBatch_completes_the_job (st : BatchGenerator.State) (vs : list string) :
  BatchGenerator.variations st = BatchGenerator.Elem <$> vs ->
  Str.truthy (Str.trim (BatchGenerator.basePrompt st)) = true ->
  nonBlank vs <> [] ->
  Forall (fun job => BatchJob.id job <>
                     "batch-" ++ pretty (now (BatchGenerator.clockReads st)))
    (BatchGenerator.batchJobs st) ->
  exists st' job,
    BatchGenerator.generateBatch now generateImage st = Ok st' /\
    BatchGenerator.batchJobs st' = job :: BatchGenerator.batchJobs st /\
    BatchJob.status job = BatchJob.completed /\
    BatchJob.id job = "batch-" ++ pretty (now (BatchGenerator.clockReads st)) /\
    BatchJob.basePrompt job = BatchGenerator.basePrompt st /\
    BatchJob.variations job = nonBlank vs /\
    (length (BatchJob.images job) <= length (nonBlank vs))%nat /\
    StronglySorted lt (BatchImage.variation <$> BatchJob.images job) /\
    BatchGenerator.isGenerating st' = false /\
    BatchGenerator.progress st' = BatchGenerator.Percent 0 /\
    BatchGenerator.variations st' = BatchGenerator.variations st.
Proof.
  intros Hvs Hbase Hvalid Hfresh.
  destruct (generateBatch_run now generateImage st vs Hvs Hbase Hvalid)
    as (st' & Hrun & Hjobs & _ & Hgenerating & Hprogress & Hvariations & _).
  eexists st', _. split; [exact Hrun|]. split; [exact (Hjobs Hfresh)|]. simpl.
  repeat (split; [done|]).
  split; [apply expectedImages_length|].
  split; [apply expectedImages_ascending|]. done.
Qed.

(** X20.  The images of the job are the variations that succeeded, no more and no
    fewer: each image comes from a variation whose request, the one sent at
    its turn, was answered with a url, and it carries that url, the full
    prompt of the variation, its number counted from 1 and the id of the job
    with its index; and each variation so answered has its image. *)
Theorem generateBatch_keeps_what_succeeded (st : BatchGenerator.State) (vs : list string) :
  BatchGenerator.variations st = BatchGenerator.Elem <$> vs ->
  Str.truthy (Str.trim (BatchGenerator.basePrompt st)) = true ->
  nonBlank vs <> [] ->
  Forall (fun job => BatchJob.id job <>
                     "batch-" ++ pretty (now (BatchGenerator.clockReads st)))
    (BatchGenerator.batchJobs st) ->
  exists st' job,
    BatchGenerator.generateBatch now generateImage st = Ok st' /\
    head (BatchGenerator.batchJobs st') = Some job /\
    (forall image, image ∈ BatchJob.images job ->
       exists j variation,
         nonBlank vs !! j = Some variation /\
         firstUrl (generateImage
                     (length (BatchGenerator.requests (BatchGenerator.effects st)) + j)
                     (requestFor st variation)) = Some (BatchImage.url image) /\
         BatchImage.id image = BatchJob.id job ++ "-" ++ pretty j /\
         BatchImage.prompt image =
           BatchGenerator.fullPrompt (BatchGenerator.basePrompt st) variation /\
         BatchImage.variation image = (j + 1)%nat) /\
    (forall j variation first,
       nonBlank vs !! j = Some variation ->
       firstUrl (generateImage
                   (length (BatchGenerator.requests (BatchGenerator.effects st)) + j)
                   (requestFor st variation)) = Some first ->
       exists image,
         image ∈ BatchJob.images job /\
         BatchImage.variation image = (j + 1)%nat /\
         BatchImage.url image = first).
Proof.
  intros Hvs Hbase Hvalid Hfresh.
  destruct (generateBatch_run now generateImage st vs Hvs Hbase Hvalid)
    as (st' & Hrun & Hjobs & _).
  eexists st', _. split; [exact Hrun|]. rewrite (Hjobs Hfresh). split; [done|]. simpl.
  split.
  - intros image Hin.
    destruct (expectedImages_made now generateImage _ _ _ _ _ _ _ Hin)
      as (j & variation & ? & ? & ? & ? & ?).
    by exists j, variation.
  - intros j variation first Hj Hanswer.
    destruct (expectedImages_kept now generateImage st
                ("batch-" ++ pretty (now (BatchGenerator.clockReads st))) (nonBlank vs) 0
                (length (BatchGenerator.requests (BatchGenerator.effects st)))
                (S (S (BatchGenerator.clockReads st))) j variation first Hj Hanswer)
      as (image & ? & ? & ?).
    by exists image.
Qed.

(** X21.  When every request of a batch fails, the job is marked completed all
    the same, with no image, and the handler ends on the toast of a success
    that says it generated 0 images. *)
Theorem generateBatch_completes_without_images
    (st : BatchGenerator.State) (vs : list string) :
  BatchGenerator.variations st = BatchGenerator.Elem <$> vs ->
  Str.truthy (Str.trim (BatchGenerator.basePrompt st)) = true ->
  nonBlank vs <> [] ->
  Forall (fun job => BatchJob.id job <>
                     "batch-" ++ pretty (now (BatchGenerator.clockReads st)))
    (BatchGenerator.batchJobs st) ->
  (forall j variation, nonBlank vs !! j = Some variation ->
     firstUrl (generateImage
                 (length (BatchGenerator.requests (BatchGenerator.effects st)) + j)
                 (requestFor st variation)) = None) ->
  exists st' job,
    BatchGenerator.generateBatch now generateImage st = Ok st' /\
    head (BatchGenerator.batchJobs st') = Some job /\
    BatchJob.status job = BatchJob.completed /\
    BatchJob.images job = [] /\
    last (BatchGenerator.effects st') =
      Some (BatchGenerator.Toast "Batch generation completed!"
              ("Generated 0 images from " ++ pretty (length (nonBlank vs))
               ++ " variations.") false).
Proof.
  intros Hvs Hbase Hvalid Hfresh Hfail.
  destruct (generateBatch_run now generateImage st vs Hvs Hbase Hvalid)
    as (st' & Hrun & Hjobs & _ & _ & _ & _ & _ & Hlast).
  rewrite (expectedImages_none now generateImage) in Hlast by done.
  eexists st', _. split; [exact Hrun|]. rewrite (Hjobs Hfresh). split; [done|]. simpl.
  split; [done|]. split; [by apply expectedImages_none|]. exact Hlast.
Qed.

End BatchTheorems.

Lemma generateBatch_refuses_blank_input_witness :
  exists st',
    BatchGenerator.generateBatch exampleClock firstOnly BatchGenerator.initialState = Ok st' /\
    BatchGenerator.batchJobs st' = [].
Proof.
  destruct (generateBatch_refuses_blank_input exampleClock firstOnly
              BatchGenerator.initialState [""] eq_refl) as (st' & Hrun & Hjobs & _).
  - by left.
  - by exists st'.
Defined.

Lemma generateBatch_asks_once_per_variation_witness :
  exists st',
    BatchGenerator.generateBatch exampleClock firstOnly redAndBlue = Ok st' /\
    BatchGenerator.requests (BatchGenerator.effects st') =
      [BatchGenerator.mkRequest "a cat, red" "1024x1024" "high" "natural" 1;
       BatchGenerator.mkRequest "a cat, blue" "1024x1024" "high" "natural" 1].
Proof.
  exact (generateBatch_asks_once_per_variation exampleClock firstOnly redAndBlue
           ["red"; "  "; "blue"] eq_refl eq_refl).
Defined.

Lemma generateBatch_completes_the_job_witness :
  exists st' job,
    BatchGenerator.generateBatch exampleClock firstOnly redAndBlue = Ok st' /\
    BatchGenerator.batchJobs st' = [job] /\
    BatchJob.status job = BatchJob.completed.
Proof.
  destruct (generateBatch_completes_the_job exampleClock firstOnly redAndBlue
              ["red"; "  "; "blue"] eq_refl eq_refl)
    as (st' & job & Hrun & Hjobs & Hstatus & _); [done|constructor|].
  by exists st', job.
Defined.

Lemma generateBatch_keeps_what_succeeded_witness :
  exists st' job,
    BatchGenerator.generateBatch exampleClock firstOnly redAndBlue = Ok st' /\
    head (BatchGenerator.batchJobs st') = Some job /\
    exists image,
      image ∈ BatchJob.images job /\ BatchImage.variation image = 1%nat /\
      BatchImage.url image = "https://img.example/red.png".
Proof.
  destruct (generateBatch_keeps_what_succeeded exampleClock firstOnly redAndBlue
              ["red"; "  "; "blue"] eq_refl eq_refl)
    as (st' & job & Hrun & Hhead & _ & Hkept); [done|constructor|].
  exists st', job. split; [exact Hrun|]. split; [exact Hhead|].
  exact (Hkept 0%nat "red" "https://img.example/red.png" eq_refl eq_refl).
Defined.

Lemma generateBatch_completes_without_images_witness :
  exists st' job,
    BatchGenerator.generateBatch exampleClock down redAndBlue = Ok st' /\
    head (BatchGenerator.batchJobs st') = Some job /\
    BatchJob.status job = BatchJob.completed /\
    BatchJob.images job = [].
Proof.
  destruct (generateBatch_completes_without_images exampleClock down redAndBlue
              ["red"; "  "; "blue"] eq_refl eq_refl)
    as (st' & job & Hrun & Hhead & Hstatus & Himages & _); [done|constructor|done|].
  by exists st', job.
Defined.

(** ** The full prompt of a variation *)

Lemma append_empty (s : string) : s ++ "" = s.
Proof. induction s as [|c s IH]; [done|]. by rewrite append_String, IH. Qed.

Lemma append_assoc (a b c : string) : (a ++ b) ++ c = a ++ b ++ c.
Proof. induction a as [|d a IH]; [done|]. by rewrite !append_String, IH. Qed.

Lemma keepChars_app (p : ascii -> bool) (a b : string) :
  keepChars p (a ++ b) = keepChars p a ++ keepChars p b.
Proof.
  induction a as [|c a IH]; [done|]. rewrite append_String. simpl.
  destruct (p c); [by rewrite IH|done].
Qed.

Lemma keepChars_none (p : ascii -> bool) (s : string) :
  everyChar (fun c => negb (p c)) s = true -> keepChars p s = "".
Proof.
  induction s as [|c s IH]; simpl; [done|].
  rewrite andb_true_iff, negb_true_iff. intros [-> Hs]. by apply IH.
Qed.

Lemma everyChar_app (p : ascii -> bool) (a b : string) :
  everyChar p (a ++ b) = everyChar p a && everyChar p b.
Proof.
  induction a as [|c a IH]; [done|]. rewrite append_String. simpl.
  by rewrite IH, andb_assoc.
Qed.

Lemma isWordChar_whiteSpace (c : ascii) : Str.isWhiteSpace c = true -> isWordChar c = false.
Proof. unfold isWordChar. intros ->. by rewrite andb_false_r. Qed.

Lemma isWordChar_comma (c : ascii) : Js.isComma c = true -> isWordChar c = false.
Proof. unfold isWordChar. by intros ->. Qed.

Lemma words_trimStart (s : string) :
  keepChars isWordChar (Str.trimStart s) = keepChars isWordChar s.
Proof.
  induction s as [|c s IH]; simpl; [done|].
  destruct (Str.isWhiteSpace c) eqn:Hc; [|done].
  by rewrite (isWordChar_whiteSpace c Hc).
Qed.

Lemma words_trimEnd (s : string) :
  keepChars isWordChar (Str.trimEnd s) = keepChars isWordChar s.
Proof.
  induction s as [|c s IH]; simpl; [done|].
  destruct (Str.trimEnd s) as [|d t]; simpl in *.
  - destruct (Str.isWhiteSpace c) eqn:Hc; simpl.
    + by rewrite (isWordChar_whiteSpace c Hc).
    + by rewrite <- IH.
  - by rewrite <- IH.
Qed.

Lemma words_trim (s : string) : keepChars isWordChar (Str.trim s) = keepChars isWordChar s.
Proof. unfold Str.trim. by rewrite words_trimEnd, words_trimStart. Qed.

Lemma words_collapse (pending : option string) (s : string) :
  match pending with
  | Some ws => everyChar Str.isWhiteSpace ws = true
  | None => True
  end ->
  keepChars isWordChar (Js.collapse pending s) = keepChars isWordChar s.
Proof.
  assert (forall ws, everyChar Str.isWhiteSpace ws = true -> keepChars isWordChar ws = "")
    as Hblank.
  { intros ws Hws. apply keepChars_none. revert Hws.
    induction ws as [|c ws IH]; simpl; [done|].
    rewrite !andb_true_iff. intros [Hc Hws].
    by rewrite (isWordChar_whiteSpace c Hc), IH. }
  revert pending. induction s as [|c s IH]; intros [ws|] Hpending; simpl.
  - by rewrite Hblank.
  - done.
  - destruct (Js.isComma c) eqn:Hcomma; simpl.
    + by rewrite (isWordChar_comma c Hcomma), IH.
    + destruct (Str.isWhiteSpace c) eqn:Hspace.
      * rewrite (isWordChar_whiteSpace c Hspace). apply IH.
        rewrite everyChar_app, Hpending. simpl. by rewrite Hspace.
      * simpl. rewrite keepChars_app, (Hblank ws Hpending). simpl.
        by destruct (isWordChar c); rewrite IH.
  - destruct (Js.isComma c) eqn:Hcomma; simpl.
    + rewrite (isWordChar_comma c Hcomma). by apply IH.
    + by destruct (isWordChar c); rewrite IH.
Qed.

(** X22.  The full prompt of a variation keeps every character of the base prompt
    and of the variation that is neither a comma nor white space, in order:
    trimming and the collapsing of commas take nothing else away and add
    nothing. *)
Theorem fullPrompt_keeps_the_words (basePrompt variation : string) :
  keepChars isWordChar (BatchGenerator.fullPrompt basePrompt variation) =
  keepChars isWordChar basePrompt ++ keepChars isWordChar variation.
Proof.
  unfold BatchGenerator.fullPrompt, Js.collapseCommas.
  rewrite words_collapse by done. rewrite words_trim, !keepChars_app. done.
Qed.

Lemma collapse_without_commas (s : string) :
  everyChar (fun c => negb (Js.isComma c)) s = true ->
  Js.collapse None s = s /\
  forall ws, Js.collapse (Some ws) s = String "," (ws ++ s).
Proof.
  induction s as [|c s IH]; simpl.
  - intros _. split; [done|]. intros ws. by rewrite append_empty.
  - rewrite andb_true_iff, negb_true_iff. intros [Hc Hs].
    destruct (IH Hs) as [Hnone Hsome]. rewrite Hc, Hnone. split; [done|].
    intros ws. destruct (Str.isWhiteSpace c); [|done].
    rewrite Hsome. f_equal. by rewrite append_assoc.
Qed.

Lemma collapse_one_comma (a b : string) :
  everyChar (fun c => negb (Js.isComma c)) a = true ->
  everyChar (fun c => negb (Js.isComma c)) b = true ->
  Js.collapse None (a ++ String "," b) = a ++ String "," b.
Proof.
  intros Ha Hb. induction a as [|c a IH]; simpl in *.
  - by rewrite (proj2 (collapse_without_commas b Hb) "").
  - apply andb_true_iff in Ha as [Hc Ha]. apply negb_true_iff in Hc.
    by rewrite Hc, IH.
Qed.

Lemma isComma_whiteSpace (c : ascii) : Str.isWhiteSpace c = true -> Js.isComma c = false.
Proof.
  unfold Js.isComma. destruct (Ascii.eqb_spec c ",") as [->|]; [|done].
  by vm_compute.
Qed.

Lemma commas_trimStart (s : string) :
  keepChars Js.isComma (Str.trimStart s) = keepChars Js.isComma s.
Proof.
  induction s as [|c s IH]; simpl; [done|].
  destruct (Str.isWhiteSpace c) eqn:Hc; [|done]. by rewrite (isComma_whiteSpace c Hc).
Qed.

Lemma commas_trimEnd (s : string) :
  keepChars Js.isComma (Str.trimEnd s) = keepChars Js.isComma s.
Proof.
  induction s as [|c s IH]; simpl; [done|].
  destruct (Str.trimEnd s) as [|d t]; simpl in *.
  - destruct (Str.isWhiteSpace c) eqn:Hc; simpl.
    + by rewrite (isComma_whiteSpace c Hc).
    + by rewrite <- IH.
  - by rewrite <- IH.
Qed.

Lemma collapse_at_most_one_comma (s : string) :
  (String.length (keepChars Js.isComma s) <= 1)%nat -> Js.collapse None s = s.
Proof.
  induction s as [|c s IH]; simpl; [done|].
  destruct (Js.isComma c) eqn:Hc; simpl.
  - intros Hs. assert (keepChars Js.isComma s = "") as Hnone
      by (destruct (keepChars Js.isComma s); [done|simpl in Hs; lia]).
    assert (everyChar (fun c => negb (Js.isComma c)) s = true) as Hfree.
    { clear -Hnone. induction s as [|d s IH]; simpl in *; [done|].
      destruct (Js.isComma d); [done|]. by apply IH. }
    rewrite (proj2 (collapse_without_commas s Hfree) ""). simpl.
    apply Ascii.eqb_eq in Hc. by rewrite Hc.
  - intros Hs. by rewrite IH.
Qed.

(** X23.  When neither the base prompt nor the variation has a comma, the full
    prompt is the two joined by a comma and a space, trimmed: the collapsing
    of commas finds nothing to collapse. *)
Theorem fullPrompt_without_commas (basePrompt variation : string) :
  everyChar (fun c => negb (Js.isComma c)) basePrompt = true ->
  everyChar (fun c => negb (Js.isComma c)) variation = true ->
  BatchGenerator.fullPrompt basePrompt variation =
  Str.trim (basePrompt ++ ", " ++ variation).
Proof.
  intros Hbase Hvariation. unfold BatchGenerator.fullPrompt, Js.collapseCommas.
  apply collapse_at_most_one_comma. unfold Str.trim.
  rewrite commas_trimEnd, commas_trimStart, !keepChars_app.
  rewrite (keepChars_none Js.isComma basePrompt Hbase).
  rewrite (keepChars_none Js.isComma variation Hvariation). simpl. lia.
Qed.

Lemma fullPrompt_without_commas_witness :
  BatchGenerator.fullPrompt "  a cat" "red  " = "a cat, red".
Proof. by apply (fullPrompt_without_commas "  a cat" "red  "). Defined.

Example fullPrompt_trailing_comma : BatchGenerator.fullPrompt "a cat," "red" = "a cat, red".
Proof. reflexivity. Qed.

Example collapseCommas_three : Js.collapseCommas ",,," = ",,".
Proof. reflexivity. Qed.

Example collapseCommas_spaced : Js.collapseCommas "a ,  , b,c" = "a , b,c".
Proof. reflexivity. Qed.

(** ** The names of the downloads *)

Lemma dashOthers_safe (s : string) : everyChar isSafeChar (Js.dashOthers s) = true.
Proof.
  induction s as [|c s IH]; simpl; [done|]. rewrite IH, andb_true_r.
  unfold isSafeChar. destruct (Js.isAlphanumeric c) eqn:Hc; [by rewrite Hc|done].
Qed.

Lemma dashOthers_length (s : string) : String.length (Js.dashOthers s) = String.length s.
Proof. induction s as [|c s IH]; simpl; [done|]. by rewrite IH. Qed.

Lemma sliceFromStart_length (n : nat) (s : string) :
  String.length (Js.sliceFromStart n s) = Nat.min n (String.length s).
Proof.
  revert s. induction n as [|n IH]; intros [|c s]; simpl; try done. by rewrite IH.
Qed.

Lemma dashOthers_alphanumeric (s : string) :
  everyChar Js.isAlphanumeric s = true -> Js.dashOthers s = s.
Proof.
  induction s as [|c s IH]; simpl; [done|].
  rewrite andb_true_iff. intros [-> Hs]. by rewrite IH.
Qed.

Lemma sliceFromStart_short (n : nat) (s : string) :
  (String.length s <= n)%nat -> Js.sliceFromStart n s = s.
Proof.
  revert s. induction n as [|n IH]; intros [|c s]; simpl; try done; [lia|].
  intros Hs. rewrite IH; [done|lia].
Qed.

Lemma pretty_N_go_safe (x : N) (s : string) :
  everyChar isSafeChar s = true -> everyChar isSafeChar (pretty_N_go x s) = true.
Proof.
  revert s. induction (N.lt_wf_0 x) as [x _ IH]; intros s Hs.
  destruct (decide (x = 0)%N) as [->|Hx]; [by rewrite pretty_N_go_0|].
  rewrite pretty_N_go_step by lia. apply IH.
  - apply N.div_lt; lia.
  - simpl. rewrite Hs, andb_true_r. unfold pretty_N_char. by repeat case_match.
Qed.

Lemma pretty_nat_safe (n : nat) : everyChar isSafeChar (pretty n) = true.
Proof.
  unfold pretty, pretty_nat, pretty, pretty_N. case_decide; [done|].
  by apply pretty_N_go_safe.
Qed.

(** X24.  The name [downloadSingle] gives a file is made of letters, digits, dashes
    and dots only, whatever the prompt: it is [variation-], the number of the
    variation, a dash, the first 30 characters of the prompt with every
    character that is no letter or digit turned into a dash, and [.png]; a
    prompt of letters and digits no longer than 30 is kept whole. *)
Theorem downloadSingle_name_is_safe (image : BatchImage.t) :
  everyChar isSafeChar (BatchGenerator.singleName image) = true /\
  exists stem,
    BatchGenerator.singleName image =
      "variation-" ++ pretty (BatchImage.variation image) ++ "-" ++ stem ++ ".png" /\
    String.length stem = Nat.min 30 (String.length (BatchImage.prompt image)) /\
    ((String.length (BatchImage.prompt image) <= 30)%nat ->
     everyChar Js.isAlphanumeric (BatchImage.prompt image) = true ->
     stem = BatchImage.prompt image).
Proof.
  unfold BatchGenerator.singleName. split.
  - rewrite !everyChar_app, pretty_nat_safe, dashOthers_safe. done.
  - eexists. split; [done|]. split.
    + by rewrite dashOthers_length, sliceFromStart_length.
    + intros Hshort Hplain. rewrite sliceFromStart_short by done.
      by apply dashOthers_alphanumeric.
Qed.

(** X25.  The name the image generator gives a download is made of letters,
    digits, dashes and dots only, and is at most 47 characters long, whatever
    the prompt. *)
Theorem generated_name_is_safe (prompt : string) :
  everyChar isSafeChar (ImageGenerator.downloadName prompt) = true /\
  (String.length (ImageGenerator.downloadName prompt) <= 47)%nat.
Proof.
  unfold ImageGenerator.downloadName. split.
  - by rewrite !everyChar_app, dashOthers_safe.
  - assert (forall a b, String.length (a ++ b) = (String.length a + String.length b)%nat)
      as Hlength.
    { intros a b. induction a as [|c a IH]; [done|]. rewrite append_String. simpl. by rewrite IH. }
    rewrite !Hlength, dashOthers_length, sliceFromStart_length.
    change (String.length "ai-generated-") with 13%nat.
    change (String.length ".png") with 4%nat. lia.
Qed.

Example singleName_example :
  BatchGenerator.singleName
    (BatchImage.mk "batch-1-0" "https://img.example/a.png" "a cat, red/blue" 1 0) =
  "variation-1-a-cat--red-blue.png".
Proof. vm_compute. reflexivity. Qed.

Section DownloadFacts.

Variable fetch : nat -> string -> option BatchGenerator.Blob.

Lemma downloadNames_app (l k : list BatchGenerator.Effect) :
  downloadNames (l ++ k)%list = (downloadNames l ++ downloadNames k)%list.
Proof. apply omap_app. Qed.

Lemma fetches_app (l k : list BatchGenerator.Effect) :
  BatchGenerator.fetches (l ++ k)%list =
  (BatchGenerator.fetches l + BatchGenerator.fetches k)%nat.
Proof. unfold BatchGenerator.fetches. by rewrite List.filter_app, length_app. Qed.

Lemma fetches_toast (l : list BatchGenerator.Effect) (title description : string)
    (destructive : bool) :
  BatchGenerator.fetches (l ++ [BatchGenerator.Toast title description destructive])%list =
  BatchGenerator.fetches l.
Proof. rewrite fetches_app. unfold BatchGenerator.fetches at 2. simpl. lia. Qed.

(** What the loop of [downloadAll] leaves: the images saved, and the image,
    if any, whose fetch stopped it. *)
Lemma saveAll_run (job : BatchJob.t) (images : list BatchImage.t) :
  forall st : BatchGenerator.State,
  exists saved rest,
    images = (saved ++ rest)%list /\
    downloadNames (BatchGenerator.effects (fst (BatchGenerator.saveAll fetch job images st))) =
      (downloadNames (BatchGenerator.effects st)
       ++ (BatchGenerator.batchName job <$> saved))%list /\
    BatchGenerator.fetches
      (BatchGenerator.effects (fst (BatchGenerator.saveAll fetch job images st))) =
      (BatchGenerator.fetches (BatchGenerator.effects st) + length saved
       + match rest with [] => 0 | _ :: _ => 1 end)%nat /\
    match rest with
    | [] => snd (BatchGenerator.saveAll fetch job images st) = true
    | image :: _ =>
        snd (BatchGenerator.saveAll fetch job images st) = false /\
        fetch (BatchGenerator.fetches (BatchGenerator.effects st) + length saved)
          (BatchImage.url image) = None
    end.
Proof.
  induction images as [|image images IH]; intros st.
  - exists [], []. simpl. rewrite app_nil_r. repeat split. lia.
  - cbn [BatchGenerator.saveAll]. unfold BatchGenerator.save.
    destruct (fetch (BatchGenerator.fetches (BatchGenerator.effects st))
                (BatchImage.url image)) as [blob|] eqn:Hfetch.
    + destruct (IH (BatchGenerator.perform
                      (BatchGenerator.Download blob (BatchGenerator.batchName job image))
                      (BatchGenerator.perform (BatchGenerator.Fetch (BatchImage.url image)) st)))
        as (saved & rest & Himages & Hnames & Hfetches & Hrest).
      assert (BatchGenerator.fetches
                (BatchGenerator.effects
                   (BatchGenerator.perform
                      (BatchGenerator.Download blob (BatchGenerator.batchName job image))
                      (BatchGenerator.perform
                         (BatchGenerator.Fetch (BatchImage.url image)) st))) =
              S (BatchGenerator.fetches (BatchGenerator.effects st))) as Hcount.
      { simpl. rewrite !fetches_app. unfold BatchGenerator.fetches at 2 3. simpl. lia. }
      rewrite Hcount in Hfetches, Hrest.
      exists (image :: saved), rest. split; [by rewrite Himages|]. split; [|split].
      * rewrite Hnames. simpl. rewrite !downloadNames_app. simpl.
        by rewrite app_nil_r, <- app_assoc.
      * rewrite Hfetches, length_cons. lia.
      * destruct rest as [|image' rest]; [done|].
        destruct Hrest as [Hstop Hnone]. split; [done|].
        by rewrite length_cons, Nat.add_succ_r.
    + exists [], (image :: images). split; [done|]. split; [|split].
      * simpl. rewrite downloadNames_app. simpl. by rewrite !app_nil_r.
      * simpl. rewrite fetches_app. unfold BatchGenerator.fetches at 2. simpl. lia.
      * by rewrite Nat.add_0_r.
Qed.

(** X26.  [downloadAll] saves the images of a job in order, each under the name
    [batch-], the id of the job, [-variation-], its number and [.png], up to
    the first image that cannot be fetched.  If there is none, every image
    was fetched once and it ends on the toast of a success that counts the
    images of the job; if there is one, that fetch is the last, so the images
    after it are not tried, those before it stay saved, and it ends on the
    toast of a failure. *)
Theorem downloadAll_saves_until_a_fetch_fails
    (job : BatchJob.t) (st : BatchGenerator.State) :
  exists saved rest,
    BatchJob.images job = (saved ++ rest)%list /\
    downloadNames (BatchGenerator.effects (BatchGenerator.downloadAll fetch job st)) =
      (downloadNames (BatchGenerator.effects st)
       ++ ((fun image =>
              ("batch-" ++ BatchJob.id job ++ "-variation-"
               ++ pretty (BatchImage.variation image) ++ ".png")%string) <$> saved))%list /\
    match rest with
    | [] =>
        BatchGenerator.fetches (BatchGenerator.effects (BatchGenerator.downloadAll fetch job st)) =
          (BatchGenerator.fetches (BatchGenerator.effects st) + length saved)%nat /\
        last (BatchGenerator.effects (BatchGenerator.downloadAll fetch job st)) =
          Some (BatchGenerator.Toast "Batch download started"
                  ("Downloading " ++ pretty (length (BatchJob.images job))
                   ++ " images from this batch.") false)
    | image :: _ =>
        fetch (BatchGenerator.fetches (BatchGenerator.effects st) + length saved)
          (BatchImage.url image) = None /\
        BatchGenerator.fetches (BatchGenerator.effects (BatchGenerator.downloadAll fetch job st)) =
          (BatchGenerator.fetches (BatchGenerator.effects st) + length saved + 1)%nat /\
        last (BatchGenerator.effects (BatchGenerator.downloadAll fetch job st)) =
          Some (BatchGenerator.Toast "Download failed"
                  "Failed to download batch images. Please try again." true)
    end.
Proof.
  destruct (saveAll_run job (BatchJob.images job) st)
    as (saved & rest & Himages & Hnames & Hfetches & Hrest).
  exists saved, rest. split; [done|].
  unfold BatchGenerator.downloadAll.
  destruct (BatchGenerator.saveAll fetch job (BatchJob.images job) st) as [st' ok].
  simpl in Hnames, Hfetches, Hrest. split.
  - destruct ok; simpl; rewrite downloadNames_app, Hnames; simpl; by rewrite app_nil_r.
  - destruct rest as [|image rest].
    + rewrite Hrest. simpl. rewrite last_snoc, fetches_toast, Hfetches.
      split; [lia|done].
    + destruct Hrest as [-> Hfetch]. split; [done|]. simpl.
      rewrite last_snoc, fetches_toast, Hfetches. split; [lia|done].
Qed.

(** [downloadSingle] never fails: it fetches the image once and ends on a
    toast, of a success after one download under the name of the image when
    the fetch succeeded, of a failure after no download when it did not. *)
Theorem downloadSingle_ends_on_a_toast
    (image : BatchImage.t) (st : BatchGenerator.State) :
  BatchGenerator.fetches (BatchGenerator.effects (BatchGenerator.downloadSingle fetch image st)) =
    S (BatchGenerator.fetches (BatchGenerator.effects st)) /\
  match fetch (BatchGenerator.fetches (BatchGenerator.effects st)) (BatchImage.url image) with
  | Some blob =>
      BatchGenerator.effects (BatchGenerator.downloadSingle fetch image st) =
        (BatchGenerator.effects st ++
         [BatchGenerator.Fetch (BatchImage.url image);
          BatchGenerator.Download blob (BatchGenerator.singleName image);
          BatchGenerator.Toast "Download started" "Your image is being downloaded." false])%list
  | None =>
      BatchGenerator.effects (BatchGenerator.downloadSingle fetch image st) =
        (BatchGenerator.effects st ++
         [BatchGenerator.Fetch (BatchImage.url image);
          BatchGenerator.Toast "Download failed"
            "Failed to download image. Please try again." true])%list
  end.
Proof.
  unfold BatchGenerator.downloadSingle, BatchGenerator.save.
  destruct (fetch _ _) as [blob|]; simpl; rewrite <- !app_assoc; simpl.
  - split; [|done]. rewrite fetches_app.
    unfold BatchGenerator.fetches at 2. simpl. lia.
  - split; [|done]. rewrite fetches_app.
    unfold BatchGenerator.fetches at 2. simpl. lia.
Qed.

End DownloadFacts.

Section BatchNames.

Variable now : nat -> Z.
Variable generateImage : nat -> BatchGenerator.ImageRequest -> BatchGenerator.Response.

(** X27.  The id of a job made by [generateBatch] begins with [batch-] already, so
    the files [downloadAll] saves for it are named [batch-batch-], the time
    the job was made, [-variation-], the number and [.png]. *)
Theorem generated_batch_is_named_twice (st : BatchGenerator.State) (vs : list string) :
  BatchGenerator.variations st = BatchGenerator.Elem <$> vs ->
  Str.truthy (Str.trim (BatchGenerator.basePrompt st)) = true ->
  nonBlank vs <> [] ->
  Forall (fun job => BatchJob.id job <>
                     "batch-" ++ pretty (now (BatchGenerator.clockReads st)))
    (BatchGenerator.batchJobs st) ->
  exists st' job,
    BatchGenerator.generateBatch now generateImage st = Ok st' /\
    head (BatchGenerator.batchJobs st') = Some job /\
    forall image,
      BatchGenerator.batchName job image =
        "batch-batch-" ++ pretty (now (BatchGenerator.clockReads st)) ++ "-variation-"
        ++ pretty (BatchImage.variation image) ++ ".png".
Proof.
  intros Hvs Hbase Hvalid Hfresh.
  destruct (generateBatch_run now generateImage st vs Hvs Hbase Hvalid)
    as (st' & Hrun & Hjobs & _).
  eexists st', _. split; [exact Hrun|]. rewrite (Hjobs Hfresh). split; [done|].
  intros image. unfold BatchGenerator.batchName. simpl.
  by rewrite !append_assoc.
Qed.

End BatchNames.

Lemma generated_batch_is_named_twice_witness :
  exists st' job,
    BatchGenerator.generateBatch exampleClock firstOnly redAndBlue = Ok st' /\
    head (BatchGenerator.batchJobs st') = Some job /\
    forall image,
      BatchGenerator.batchName job image =
        "batch-batch-1700000000000-variation-" ++ pretty (BatchImage.variation image)
        ++ ".png".
Proof.
  exact (generated_batch_is_named_twice exampleClock firstOnly redAndBlue
           ["red"; "  "; "blue"] eq_refl eq_refl ltac:(done) ltac:(constructor)).
Defined.

(** ** The file handlers of the three tools *)

Section PickerFacts.

Variable createObjectURL : nat -> FilePicker.File -> string.

(** X28.  [handleFileSelect] keeps the selection to images of at most ten
    megabytes: if the selected file, when there is one, is such a file
    before the handler runs, it is after, whatever the event holds. *)
Theorem handleFileSelect_keeps_selection_acceptable
    (files : option (list FilePicker.File)) (st : FilePicker.State) :
  (forall file, FilePicker.selectedFile st = Some file -> acceptable file = true) ->
  forall file,
    FilePicker.selectedFile (FilePicker.handleFileSelect createObjectURL files st) = Some file ->
    acceptable file = true.
Proof.
  intros Hst file. unfold FilePicker.handleFileSelect.
  destruct (files ≫= head) as [chosen|]; [|apply Hst].
  destruct (Str.startsWith (FilePicker.type chosen) "image/") eqn:Htype; simpl; [|apply Hst].
  destruct (FilePicker.sizeLimit <? FilePicker.size chosen)%N eqn:Hsize; simpl; [apply Hst|].
  intros [= <-]. unfold acceptable. rewrite Htype. simpl.
  apply N.ltb_ge in Hsize. apply N.leb_le. exact Hsize.
Qed.

(** A file [handleFileSelect] does not take leaves the selection, the
    preview and the object URLs as they were, and is answered by one toast of
    the destructive kind; a file it takes is answered by none. *)
Theorem handleFileSelect_refuses_with_one_toast
    (chosen : FilePicker.File) (rest : list FilePicker.File) (st : FilePicker.State) :
  let st' := FilePicker.handleFileSelect createObjectURL (Some (chosen :: rest)) st in
  if acceptable chosen
  then FilePicker.selectedFile st' = Some chosen /\
       FilePicker.previewUrl st' = createObjectURL (FilePicker.objectURLs st) chosen /\
       FilePicker.effects st' = FilePicker.effects st
  else FilePicker.selectedFile st' = FilePicker.selectedFile st /\
       FilePicker.previewUrl st' = FilePicker.previewUrl st /\
       FilePicker.objectURLs st' = FilePicker.objectURLs st /\
       exists title description,
         FilePicker.effects st' =
           (FilePicker.effects st ++ [FilePicker.Toast title description true])%list.
Proof.
  unfold acceptable, FilePicker.handleFileSelect.
  cbn [mbind option_bind head negb andb].
  change FilePicker.sizeLimit with 10485760%N.
  rewrite (N.ltb_antisym (FilePicker.size chosen) 10485760).
  destruct (Str.startsWith (FilePicker.type chosen) "image/");
    [destruct (FilePicker.size chosen <=? 10485760)%N|]; cbn [negb andb].
  - done.
  - repeat split; eauto.
  - repeat split; eauto.
Qed.

(** X29.  [handleDrop] has no limit on the size: an image of more than ten
    megabytes is selected when it is dropped, with a preview and without a
    toast, while [handleFileSelect] answers the same file with the toast
    [File too large] and selects nothing. *)
Theorem handleDrop_has_no_size_limit
    (file : FilePicker.File) (rest : list FilePicker.File) (st : FilePicker.State) :
  Str.startsWith (FilePicker.type file) "image/" = true ->
  (10485760 < FilePicker.size file)%N ->
  FilePicker.selectedFile (FilePicker.handleDrop createObjectURL (file :: rest) st) = Some file /\
  FilePicker.previewUrl (FilePicker.handleDrop createObjectURL (file :: rest) st) =
    createObjectURL (FilePicker.objectURLs st) file /\
  pickerToasts (FilePicker.effects (FilePicker.handleDrop createObjectURL (file :: rest) st)) =
    pickerToasts (FilePicker.effects st) /\
  FilePicker.handleFileSelect createObjectURL (Some (file :: rest)) st =
    FilePicker.perform
      (FilePicker.Toast "File too large" "Please select an image smaller than 10MB." true) st.
Proof.
  intros Htype Hsize. unfold FilePicker.handleDrop, FilePicker.handleFileSelect.
  cbn [mbind option_bind head]. rewrite Htype. cbn [negb].
  change FilePicker.sizeLimit with 10485760%N.
  apply N.ltb_lt in Hsize as ->. repeat split.
  unfold pickerToasts. simpl. rewrite List.filter_app. simpl. by rewrite app_nil_r.
Qed.

(** What is dropped and is not an image is passed over in silence: nothing
    is selected and no toast is shown. *)
Theorem handleDrop_passes_over_other_files
    (files : list FilePicker.File) (st : FilePicker.State) :
  (forall file, head files = Some file ->
                Str.startsWith (FilePicker.type file) "image/" = false) ->
  FilePicker.handleDrop createObjectURL files st = FilePicker.perform FilePicker.PreventDefault st.
Proof.
  intros Hfiles. unfold FilePicker.handleDrop.
  destruct (head files) as [file|]; [|done].
  by rewrite (Hfiles file eq_refl).
Qed.

End PickerFacts.

Lemma handleFileSelect_keeps_selection_acceptable_witness :
  FilePicker.selectedFile
    (FilePicker.handleFileSelect blobUrl (Some [scan])
       (FilePicker.handleFileSelect blobUrl (Some [photo]) emptyPicker)) = Some photo /\
  acceptable photo = true.
Proof.
  split; [reflexivity|].
  apply (handleFileSelect_keeps_selection_acceptable blobUrl (Some [scan])
           (FilePicker.handleFileSelect blobUrl (Some [photo]) emptyPicker)).
  - intros file Hfile. change (Some photo = Some file) in Hfile.
    injection Hfile as <-. reflexivity.
  - reflexivity.
Defined.

Lemma handleDrop_has_no_size_limit_witness :
  FilePicker.selectedFile (FilePicker.handleDrop blobUrl [scan] emptyPicker) = Some scan /\
  FilePicker.previewUrl (FilePicker.handleDrop blobUrl [scan] emptyPicker) = "blob:0" /\
  pickerToasts (FilePicker.effects (FilePicker.handleDrop blobUrl [scan] emptyPicker)) = [] /\
  FilePicker.handleFileSelect blobUrl (Some [scan]) emptyPicker =
    FilePicker.perform
      (FilePicker.Toast "File too large" "Please select an image smaller than 10MB." true)
      emptyPicker.
Proof.
  exact (handleDrop_has_no_size_limit blobUrl scan [] emptyPicker eq_refl eq_refl).
Defined.

Lemma handleDrop_passes_over_other_files_witness :
  FilePicker.handleDrop blobUrl [FilePicker.mkFile "notes.txt" "text/plain" 12] emptyPicker =
  FilePicker.perform FilePicker.PreventDefault emptyPicker.
Proof.
  apply (handleDrop_passes_over_other_files blobUrl).
  intros file [= <-]. reflexivity.
Defined.

(** ** The name of a processed download *)

Lemma dashRuns_notWhiteSpace (s : string) :
  forall inRun, everyChar notWhiteSpace (Js.dashRuns inRun s) = true.
Proof.
  induction s as [|c s IH]; intros inRun; [done|]. simpl.
  destruct (Str.isWhiteSpace c) eqn:Hc.
  - destruct inRun; [apply IH|]. simpl. apply IH.
  - simpl. unfold notWhiteSpace at 1. rewrite Hc. simpl. apply IH.
Qed.

Lemma dashRuns_length (s : string) :
  forall inRun, (String.length (Js.dashRuns inRun s) <= String.length s)%nat.
Proof.
  induction s as [|c s IH]; intros inRun; [done|]. simpl.
  destruct (Str.isWhiteSpace c).
  - destruct inRun; simpl; [specialize (IH true); lia|]. specialize (IH true). lia.
  - simpl. specialize (IH false). lia.
Qed.

Lemma toLowerCase_length (s : string) :
  String.length (Str.toLowerCase s) = String.length s.
Proof. induction s as [|c s IH]; simpl; [done|]. by rewrite IH. Qed.

(** X30.  The name [handleDownload] of the background remover gives a processed
    image is the file name after a dash and a prefix made from the mode: the
    prefix holds no white space, whatever the mode holds, and is no longer
    than the mode; when no mode is passed the prefix is [undefined]. *)
Theorem processed_name_has_a_prefix_without_white_space
    (filename : string) (mode : option string) :
  exists prefix,
    BackgroundRemover.downloadName filename BackgroundRemover.processed mode =
      prefix ++ "-" ++ filename /\
    everyChar notWhiteSpace prefix = true /\
    match mode with
    | Some m => (String.length prefix <= String.length m)%nat
    | None => prefix = "undefined"
    end.
Proof.
  destruct mode as [m|]; simpl.
  - exists (Js.dashWhiteSpace (Str.toLowerCase m)). split; [done|]. split.
    + apply dashRuns_notWhiteSpace.
    + unfold Js.dashWhiteSpace. etrans; [apply dashRuns_length|].
      by rewrite toLowerCase_length.
  - by exists "undefined".
Qed.

Example processed_name_example :
  BackgroundRemover.downloadName "cat.png" BackgroundRemover.processed
    (Some "Remove  Background") = "remove-background-cat.png".
Proof. reflexivity. Qed.
